(** * StickArcherSiege: combat, projectile and economy rules

    A shallow embedding of the game's core classes (GameManager, Base,
    Troop, Hero, Arrow and the arrow bookkeeping of GameScene) together
    with the properties their specification states about them.

    Conventions of the embedding.
    - A JavaScript number is a rational ([Q]); quantities the program
      keeps integral (gold, health, a rounded damage) are [Z].  The two
      damage calculations, whose products and quotient [Math.round]
      turns into hit points, round every result to the nearest double
      as the program does ([JS.mul], [JS.div]); elsewhere (positions,
      times, amounts of gold) the arithmetic is that of the rationals.
      [NaN] and the infinities are not rationals: a guard [isNaN(v)] is
      [false] on every modelled number, and a function whose result can
      be [NaN] returns an [option].
      Where the program reads a property that was never written
      ([undefined]) the field is an [option] and the arithmetic on it is
      written out.
    - A lookup [o[key]] in one of the economy's tables (unit costs, XP
      rewards) is modelled for every string, the names of the members of
      [Object.prototype] included ([JS.member]).  The troop tables are
      modelled for the categories that are no such names: under one of
      them the program finds an inherited member and the troop gets no
      stats.
    - Objects are records and a method is a function from the receiver
      (and the objects it writes) to their new values.
    - Calls a method makes into the scene (its callbacks) are returned as
      a log of [SceneCall]s, oldest first.
    - Rendering, tweens, velocities and the physics body are left out. *)

From Stdlib Require Import ZArith QArith Qround Qabs Qminmax List Ascii String Bool Lia Lqa.
Import ListNotations.

Local Open Scope Z_scope.

(** ** JavaScript arithmetic *)

Module JS.

(** [Math.round]: nearest integer, halves towards plus infinity. *)
Definition Math_round (v : Q) : Z := Qfloor (v + (1 # 2)).

(** [Math.floor]. *)
Definition Math_floor (v : Q) : Z := Qfloor v.

(** [a < b], [a <= b], [a > b], [a >= b] on numbers. *)
Definition lt (a b : Q) : bool := negb (Qle_bool b a).
Definition le (a b : Q) : bool := Qle_bool a b.
Definition gt (a b : Q) : bool := lt b a.
Definition ge (a b : Q) : bool := le b a.

(** A number is falsy when it is zero (or [NaN], which is not modelled). *)
Definition falsy (v : Q) : bool := Qeq_bool v 0.

(** [o.field || d] for a numeric property that may be absent. *)
Definition orQ (field : option Q) (d : Q) : Q :=
  match field with
  | Some v => if falsy v then d else v
  | None => d
  end.

(** [o.field || d] for a boolean property that may be absent. *)
Definition orB (field : option bool) (d : bool) : bool :=
  match field with
  | Some true => true
  | _ => d
  end.

(** [v || d] for an integer value. *)
Definition orZ (v d : Z) : Z := if Z.eqb v 0 then d else v.

(** A string is truthy when it is not empty. *)
Definition truthyS (s : string) : bool :=
  match s with EmptyString => false | _ => true end.

(** *** Doubles

    The finite doubles are the rationals [m / 2^1074] whose integer [m]
    is a 53-bit significand times a power of two; [1 / 2^1074] is the
    least positive one. *)
Definition tiny : Z := 2 ^ 1074.

(** The nearest integer, the even one of two that are equally near. *)
Definition nearestEven (v : Q) : Z :=
  let f := Qfloor v in
  match (v - inject_Z f ?= 1 # 2)%Q with
  | Lt => f
  | Gt => f + 1
  | Eq => if Z.even f then f else f + 1
  end.

(** The distance between neighbouring doubles around [n / 2^1074], in
    units of [1 / 2^1074]: 1 up to [2^53] (the subnormal numbers and the
    first binade), then doubling with every binade. *)
Definition spacing (n : Q) : Z := 2 ^ Z.max 0 (Z.log2 (Qfloor (Qabs n)) - 52).

(** The double nearest to [v], ties to the even significand, in units of
    [1 / 2^1074]. *)
Definition units (v : Q) : Z :=
  let n := (v * inject_Z tiny)%Q in
  nearestEven (n / inject_Z (spacing n)) * spacing n.

(** The Number value of a real: what a decimal literal denotes and what
    an arithmetic operation returns for its exact result.  (Beyond the
    largest double the program has [Infinity]; statements about rounded
    results keep to magnitudes far below it.) *)
Definition double (v : Q) : Q := Qred (inject_Z (units v) / inject_Z tiny).

(** [a * b] and [a / b] on doubles. *)
Definition mul (a b : Q) : Q := double (a * b).
Definition div (a b : Q) : Q := double (a / b).

(** [v] is a double. *)
Definition isDouble (v : Q) : Prop := (double v == v)%Q.

(** Magnitudes up to which no product of three factors and 1.4 comes
    near the largest double, [2^1024]. *)
Definition moderate (v : Q) : Prop := (Qabs v <= inject_Z (2 ^ 300))%Q.

(** *** Object literals

    What [o[key]] finds in an object literal [o]: one of its own
    members; a member inherited from [Object.prototype] (a function, or
    the prototype itself under [__proto__]), which is truthy and not a
    number -- a product with it is [NaN], a comparison with it is false
    -- or nothing ([undefined]). *)
Inductive Member (A : Type) : Type :=
| own (v : A)
| inherited
| undefined.

Arguments own {A} v.
Arguments inherited {A}.
Arguments undefined {A}.

(** The names of the members of [Object.prototype]. *)
Definition Object_prototype : list string :=
  ["constructor"; "hasOwnProperty"; "isPrototypeOf"; "propertyIsEnumerable";
   "toLocaleString"; "toString"; "valueOf"; "__defineGetter__";
   "__defineSetter__"; "__lookupGetter__"; "__lookupSetter__";
   "__proto__"]%string.

(** [o[key]] for the object literal with the own members [literal]. *)
Definition member {A : Type} (literal : string -> option A) (key : string)
    : Member A :=
  match literal key with
  | Some v => own v
  | None =>
      if List.existsb (String.eqb key) Object_prototype
      then inherited else undefined
  end.

End JS.

Arguments JS.double : simpl never.

(** ** Calls into the scene *)

Inductive SceneCall :=
| onPlayerBaseDestroyed
| onEnemyBaseDestroyed
| awardGoldForKill (category : string).

Definition SceneCall_eqb (a b : SceneCall) : bool :=
  match a, b with
  | onPlayerBaseDestroyed, onPlayerBaseDestroyed => true
  | onEnemyBaseDestroyed, onEnemyBaseDestroyed => true
  | awardGoldForKill c, awardGoldForKill d => String.eqb c d
  | _, _ => false
  end.

(** How many times a call occurs in a log. *)
Definition fired (c : SceneCall) (log : list SceneCall) : nat :=
  List.length (List.filter (SceneCall_eqb c) log).

(** ** GameManager (economy) *)

Module GameManager.

Record t := mk {
  difficulty : option string;   (* null until a difficulty is chosen *)
  currentRound : Z;
  gold : Z;
  xp : Z
}.

(** The state the constructor and [resetGame] establish. *)
Definition initial : t :=
  {| difficulty := None; currentRound := 1; gold := 100; xp := 0 |}.

Definition setDifficulty (d : string) (g : t) : t :=
  {| difficulty := Some d; currentRound := currentRound g;
     gold := gold g; xp := xp g |}.

Record DifficultyParameters := {
  enemyStrength : Q;
  resourceMultiplier : Q
}.

Definition defaultParameters : DifficultyParameters :=
  {| enemyStrength := 1; resourceMultiplier := 1 |}.

(** The [switch] on the difficulty name; ["normal"], any other name and
    [null] keep the defaults. *)
Definition getDifficultyParameters (g : t) : DifficultyParameters :=
  match difficulty g with
  | Some d =>
      if String.eqb d "hard"
      then {| enemyStrength := 3 # 2; resourceMultiplier := 8 # 10 |}
      else if String.eqb d "insane"
      then {| enemyStrength := 2; resourceMultiplier := 6 # 10 |}
      else defaultParameters
  | None => defaultParameters
  end.

Definition set_gold (v : Z) (g : t) : t :=
  {| difficulty := difficulty g; currentRound := currentRound g;
     gold := v; xp := xp g |}.

(** [addGold(amount, source)]: only passive income is scaled. *)
Definition addGold (amount : Z) (source : string) (g : t) : t :=
  let diffParams := getDifficultyParameters g in
  let adjustedAmount :=
    if String.eqb source "passive"
    then JS.Math_floor (inject_Z amount * resourceMultiplier diffParams)%Q
    else amount in
  set_gold (gold g + adjustedAmount) g.

(** [spendGold(amount, reason)]: the result and the new state. *)
Definition spendGold (amount : Z) (g : t) : bool * t :=
  if Z.geb (gold g) amount
  then (true, set_gold (gold g - amount) g)
  else (false, g).

Definition addXP (amount : Z) (g : t) : t :=
  {| difficulty := difficulty g; currentRound := currentRound g;
     gold := gold g; xp := xp g + amount |}.

(** [economyConfig.unitCosts[unitType]]: the object literal has three
    members of its own. *)
Definition unitCosts (unitType : string) : JS.Member Z :=
  JS.member
    (fun key =>
       if String.eqb key "Light" then Some 20
       else if String.eqb key "Ranged" then Some 35
       else if String.eqb key "Heavy" then Some 50
       else None)
    unitType.

(** [getUnitCost(unitType)], that is [unitCosts[unitType] || 0]: a
    number, or ([None]) the member inherited under that name, which is
    truthy and not a number. *)
Definition getUnitCost (unitType : string) : option Z :=
  match unitCosts unitType with
  | JS.own c => Some (JS.orZ c 0)
  | JS.inherited => None
  | JS.undefined => Some 0
  end.

Definition basePercentage : Q := 1 # 2.

(** [calculateKillReward(unitType)]; [None] is [NaN], the product with a
    cost that is not a number, which [Math.floor] and [Math.max] hand
    on. *)
Definition calculateKillReward (unitType : string) (g : t) : option Z :=
  let unitCost :=
    match unitCosts unitType with
    | JS.own c => Some (JS.orZ c 0)
    | JS.inherited => None
    | JS.undefined => Some 0
    end in
  let diffParams := getDifficultyParameters g in
  let difficultyBonus := (1 + (1 - resourceMultiplier diffParams))%Q in
  match unitCost with
  | Some unitCost =>
      let reward :=
        JS.Math_floor (inject_Z unitCost * basePercentage * difficultyBonus)%Q in
      Some (Z.max reward 1)
  | None => None
  end.

(** A call of the ledger's gold interface. *)
Inductive Call :=
| Add (amount : Z) (source : string)
| Spend (amount : Z).

Definition step (c : Call) (g : t) : t :=
  match c with
  | Add amount source => addGold amount source g
  | Spend amount => snd (spendGold amount g)
  end.

(** The state after a sequence of calls, first call first. *)
Definition run (calls : list Call) (g : t) : t :=
  List.fold_left (fun acc c => step c acc) calls g.

(** Amounts of gold handed to [addGold] are not negative. *)
Definition addsNonNegative (c : Call) : Prop :=
  match c with
  | Add amount _ => 0 <= amount
  | Spend _ => True
  end.

End GameManager.

(** ** Sprites *)

(** What the rules read of a Phaser game object: its position and whether
    it is still alive ([destroy()] clears [active]). *)
Record Sprite := {
  x : Q;
  y : Q;
  active : bool
}.

Definition Sprite_destroy (s : Sprite) : Sprite :=
  {| x := x s; y := y s; active := false |}.

(** ** Base *)

Module Base.

Record t := mk {
  isPlayerBase : bool;
  health : Z;
  maxHealth : Z;
  sprite : Sprite
}.

Definition set_health (v : Z) (b : t) : t :=
  {| isPlayerBase := isPlayerBase b; health := v;
     maxHealth := maxHealth b; sprite := sprite b |}.

(** [onDestroyed()]: the scene handler of the base's side is called.  The
    scene defines both handlers, and [GameScene.createBases] replaces the
    method on each base by a direct call of the same handler. *)
Definition onDestroyed (b : t) : list SceneCall :=
  if isPlayerBase b then [onPlayerBaseDestroyed] else [onEnemyBaseDestroyed].

(** [takeDamage(amount, source)]: nothing happens unless [amount] is a
    positive number; the method keeps no record of having called
    [onDestroyed()] before. *)
Definition takeDamage (amount : Q) (b : t) : t * list SceneCall :=
  if JS.le amount 0 then (b, [])
  else
    let damageAmount := JS.Math_round amount in
    let b' := set_health (Z.max 0 (health b - damageAmount)) b in
    if Z.leb (health b') 0 then (b', onDestroyed b') else (b', []).

(** A sequence of [takeDamage] calls, with the calls into the scene it
    makes in order. *)
Fixpoint takeDamages (amounts : list Q) (b : t) : t * list SceneCall :=
  match amounts with
  | [] => (b, [])
  | amount :: rest =>
      let (b1, log1) := takeDamage amount b in
      let (b2, log2) := takeDamages rest b1 in
      (b2, log1 ++ log2)
  end.

End Base.

(** ** Troop configuration tables *)

Module TroopConfig.

Record t := mk {
  health : Z;
  speed : Q;
  attackRange : Q;
  verticalAttackFactor : option Q;
  attackSpeed : Q;
  attackDamage : Q;
  width : Q;
  height : Q;
  projectileType : option string;
  projectileSpeed : option Q
}.

(** An object spread over a configuration: the properties it has replace
    the configuration's. *)
Record Partial := {
  p_health : option Z;
  p_speed : option Q;
  p_attackRange : option Q;
  p_verticalAttackFactor : option Q;
  p_attackSpeed : option Q;
  p_attackDamage : option Q;
  p_width : option Q;
  p_height : option Q;
  p_projectileType : option string;
  p_projectileSpeed : option Q
}.

Definition empty : Partial :=
  {| p_health := None; p_speed := None; p_attackRange := None;
     p_verticalAttackFactor := None; p_attackSpeed := None;
     p_attackDamage := None; p_width := None; p_height := None;
     p_projectileType := None; p_projectileSpeed := None |}.

Definition over {A : Type} (o : option A) (d : A) : A :=
  match o with Some v => v | None => d end.

Definition overOpt {A : Type} (o d : option A) : option A :=
  match o with Some v => Some v | None => d end.

(** [{ ...config, ...overrides }]. *)
Definition spread (config : t) (o : Partial) : t :=
  {| health := over (p_health o) (health config);
     speed := over (p_speed o) (speed config);
     attackRange := over (p_attackRange o) (attackRange config);
     verticalAttackFactor :=
       overOpt (p_verticalAttackFactor o) (verticalAttackFactor config);
     attackSpeed := over (p_attackSpeed o) (attackSpeed config);
     attackDamage := over (p_attackDamage o) (attackDamage config);
     width := over (p_width o) (width config);
     height := over (p_height o) (height config);
     projectileType := overOpt (p_projectileType o) (projectileType config);
     projectileSpeed := overOpt (p_projectileSpeed o) (projectileSpeed config) |}.

Definition Light : t :=
  {| health := 50; speed := 100; attackRange := 50;
     verticalAttackFactor := Some (17 # 10); attackSpeed := 1000;
     attackDamage := 10; width := 20; height := 40;
     projectileType := None; projectileSpeed := None |}.

Definition Heavy : t :=
  {| health := 100; speed := 70; attackRange := 40;
     verticalAttackFactor := Some (6 # 10); attackSpeed := 1500;
     attackDamage := 20; width := 30; height := 50;
     projectileType := None; projectileSpeed := None |}.

Definition Ranged : t :=
  {| health := 30; speed := 80; attackRange := 150;
     verticalAttackFactor := Some 2%Q; attackSpeed := 2000;
     attackDamage := 15; width := 20; height := 35;
     projectileType := Some "arrow"%string; projectileSpeed := Some 300%Q |}.

Definition Archer : Partial :=
  {| p_health := Some 25; p_speed := Some 60%Q; p_attackRange := Some 200%Q;
     p_verticalAttackFactor := None; p_attackSpeed := Some 2500%Q;
     p_attackDamage := Some 25%Q; p_width := Some 18%Q; p_height := Some 35%Q;
     p_projectileType := Some "longbow"%string;
     p_projectileSpeed := Some 400%Q |}.

(** [TROOP_CONFIGS[category] || TROOP_CONFIGS.Light], as its category
    defaults and its unit types.  (Under a name inherited from
    [Object.prototype] the program finds a member without defaults, and
    the troop gets no stats at all; such categories are not modelled.) *)
Definition categoryDefaults (category : string) : t :=
  if String.eqb category "Heavy" then Heavy
  else if String.eqb category "Ranged" then Ranged
  else Light.

Definition unitTypes (category unitType : string) : option Partial :=
  if String.eqb category "Ranged" && String.eqb unitType "Archer"
  then Some Archer else None.

End TroopConfig.

(** [DAMAGE_MULTIPLIERS[attacker][target]], absent off the table; each
    entry is the double its decimal literal denotes.  (What the lookup
    finds under a name inherited from [Object.prototype] is not
    modelled.) *)
Definition DAMAGE_MULTIPLIERS (attacker target : string) : option Q :=
  if String.eqb attacker "Light" then
    if String.eqb target "Light" then Some 1%Q
    else if String.eqb target "Heavy" then Some (JS.double (7 # 10))
    else if String.eqb target "Ranged" then Some (JS.double (12 # 10))
    else None
  else if String.eqb attacker "Heavy" then
    if String.eqb target "Light" then Some (JS.double (13 # 10))
    else if String.eqb target "Heavy" then Some 1%Q
    else if String.eqb target "Ranged" then Some (JS.double (15 # 10))
    else None
  else if String.eqb attacker "Ranged" then
    if String.eqb target "Light" then Some (JS.double (15 # 10))
    else if String.eqb target "Heavy" then Some (JS.double (8 # 10))
    else if String.eqb target "Ranged" then Some 1%Q
    else None
  else None.

Definition ENGAGEMENT_RANGE : Q := 50.

(** ** Troop *)

Module Troop.

Record t := mk {
  category : string;
  unitType : option string;
  health : Z;
  speed : Q;
  attackRange : Q;
  attackSpeed : Q;
  attackDamage : Q;
  troopWidth : Q;
  troopHeight : Q;
  config : TroopConfig.t;
  targetX : Q;
  isEnemy : bool;
  lastAttackTime : Q;
  sprite : Sprite
}.

(** The part of a string before its first colon. *)
Fixpoint beforeColon (s : string) : string :=
  match s with
  | EmptyString => EmptyString
  | String c rest =>
      if Ascii.eqb c ":"%char then EmptyString else String c (beforeColon rest)
  end.

(** The part after the first colon, when there is one. *)
Fixpoint afterColon (s : string) : option string :=
  match s with
  | EmptyString => None
  | String c rest => if Ascii.eqb c ":"%char then Some rest else afterColon rest
  end.

(** [new Troop(scene, x, y, category, targetX, isEnemy, customConfig)]:
    a name such as ["Ranged:Archer"] is split into category and unit
    type, and the category defaults, the unit type's settings and the
    custom configuration are spread over each other in that order. *)
Definition new (px py : Q) (name : string) (tx : Q) (enemy : bool)
    (customConfig : TroopConfig.Partial) : t :=
  let cat := match afterColon name with Some _ => beforeColon name | None => name end in
  let unit := match afterColon name with Some rest => Some (beforeColon rest) | None => None end in
  let config0 := TroopConfig.categoryDefaults cat in
  let config1 :=
    match unit with
    | Some u =>
        if JS.truthyS u then
          match TroopConfig.unitTypes cat u with
          | Some o => TroopConfig.spread config0 o
          | None => config0
          end
        else config0
    | None => config0
    end in
  let cfg := TroopConfig.spread config1 customConfig in
  {| category := cat; unitType := unit;
     health := TroopConfig.health cfg;
     speed := TroopConfig.speed cfg;
     attackRange := TroopConfig.attackRange cfg;
     attackSpeed := TroopConfig.attackSpeed cfg;
     attackDamage := TroopConfig.attackDamage cfg;
     troopWidth := TroopConfig.width cfg;
     troopHeight := TroopConfig.height cfg;
     config := cfg; targetX := tx; isEnemy := enemy; lastAttackTime := 0;
     sprite := {| x := px; y := py - 20; active := true |} |}.

Definition set_health (v : Z) (tr : t) : t :=
  {| category := category tr; unitType := unitType tr; health := v;
     speed := speed tr; attackRange := attackRange tr;
     attackSpeed := attackSpeed tr; attackDamage := attackDamage tr;
     troopWidth := troopWidth tr; troopHeight := troopHeight tr;
     config := config tr; targetX := targetX tr; isEnemy := isEnemy tr;
     lastAttackTime := lastAttackTime tr; sprite := sprite tr |}.

Definition set_lastAttackTime (v : Q) (tr : t) : t :=
  {| category := category tr; unitType := unitType tr; health := health tr;
     speed := speed tr; attackRange := attackRange tr;
     attackSpeed := attackSpeed tr; attackDamage := attackDamage tr;
     troopWidth := troopWidth tr; troopHeight := troopHeight tr;
     config := config tr; targetX := targetX tr; isEnemy := isEnemy tr;
     lastAttackTime := v; sprite := sprite tr |}.

(** [destroy()]: the sprite is destroyed if it is still active. *)
Definition destroy (tr : t) : t :=
  {| category := category tr; unitType := unitType tr; health := health tr;
     speed := speed tr; attackRange := attackRange tr;
     attackSpeed := attackSpeed tr; attackDamage := attackDamage tr;
     troopWidth := troopWidth tr; troopHeight := troopHeight tr;
     config := config tr; targetX := targetX tr; isEnemy := isEnemy tr;
     lastAttackTime := lastAttackTime tr;
     sprite := if active (sprite tr) then Sprite_destroy (sprite tr) else sprite tr |}.

(** [takeDamage(damage)]: nothing happens unless [damage] is a positive
    number; the scene's [awardGoldForKill] is called before [destroy()]. *)
Definition takeDamage (damage : Q) (tr : t) : t * list SceneCall :=
  if JS.le damage 0 then (tr, [])
  else
    let damageAmount := JS.Math_round damage in
    let tr' := set_health (health tr - damageAmount) tr in
    if Z.leb (health tr') 0
    then (destroy tr',
          if isEnemy tr' then [awardGoldForKill (category tr')] else [])
    else (tr', []).

(** [calculateDamage(target)]; the target's category is absent for a base
    and for the hero. *)
Definition calculateDamage (tr : t) (targetCategory : option string) : Z :=
  let damage := attackDamage tr in
  let damage :=
    match targetCategory with
    | Some tc =>
        if JS.truthyS tc then
          match DAMAGE_MULTIPLIERS (category tr) tc with
          | Some multiplier =>
              if JS.falsy multiplier then damage else JS.mul damage multiplier
          | None => damage
          end
        else damage
    | None => damage
    end in
  JS.Math_round damage.

(** [isTargetInAttackRange(target)], on the target's sprite ([None] when
    the target or its sprite is missing). *)
Definition isTargetInAttackRange (tr : t) (target : option Sprite) : bool :=
  match target with
  | None => false
  | Some ts =>
      if negb (active ts) || negb (active (sprite tr)) then false
      else
        let horizontalDistance := Qabs (x (sprite tr) - x ts) in
        if JS.gt horizontalDistance (attackRange tr) then false
        else if String.eqb (category tr) "Ranged" then true
        else
          let verticalFactor :=
            match TroopConfig.verticalAttackFactor (config tr) with
            | Some f => f
            | None => 1 # 2
            end in
          let maxVerticalDistance := (troopHeight tr * verticalFactor)%Q in
          let verticalDistance := Qabs (y (sprite tr) - y ts) in
          JS.le verticalDistance maxVerticalDistance
  end.

End Troop.

(** ** Arrow (the hero's projectile) *)

(** The rectangle an [Arrow] owns.  The constructor writes [damage] and
    [isMaxPower] on it; it never writes a [creationTime] on it (that one
    is a property of the [Arrow] instance), so reading the sprite's
    [creationTime] gives [undefined], here [None]. *)
Module ArrowSprite.

Record t := mk {
  x : Q;
  y : Q;
  active : bool;
  damage : Z;
  isMaxPower : bool;
  creationTime : option Z
}.

Definition destroy (s : t) : t :=
  {| x := x s; y := y s; active := false; damage := damage s;
     isMaxPower := isMaxPower s; creationTime := creationTime s |}.

End ArrowSprite.

(** The [options] argument of [Arrow.createFromShot]: every property may
    be absent. *)
Module ShotOptions.

Record t := mk {
  speedMultiplier : option Q;
  isMaxPower : option bool;
  baseDamage : option Q;
  powerLevel : option Q;
  damageMultiplier : option Q
}.

End ShotOptions.

Module Arrow.

Record Options := {
  speed : Q;
  gravity : Q;
  lifetime : Z;
  speedMultiplier : Q;
  isMaxPower : bool;
  baseDamage : Q;
  powerLevel : Q;
  damageMultiplier : Q
}.

Definition defaults : Options :=
  {| speed := 900; gravity := 300; lifetime := 5000; speedMultiplier := 1;
     isMaxPower := false; baseDamage := 10; powerLevel := 100;
     damageMultiplier := 1 |}.

(** [calculateDamage()], on the arrow's options. *)
Definition calculateDamage (o : Options) : Z :=
  let damage := baseDamage o in
  let powerScaling :=
    if JS.lt (powerLevel o) 50 then JS.div (powerLevel o) 50 else 1%Q in
  let damage := JS.mul damage powerScaling in
  let damage :=
    if isMaxPower o then JS.mul damage (JS.double (14 # 10)) else damage in
  let damage := JS.mul damage (damageMultiplier o) in
  JS.Math_round damage.

Record t := mk {
  options : Options;
  damage : Z;
  hasHit : bool;
  creationTime : Z;
  sprite : ArrowSprite.t
}.

(** [new Arrow(scene, x, y, options)], the options already spread over
    the defaults; [now] is [Date.now()].  The constructor also schedules
    [destroy()] after [options.lifetime] ms of scene time and registers the
    sprite with the scene; scheduled calls are not modelled, and the
    registration is made by the caller (see [Hero.shootWithPower]). *)
Definition new (px py : Q) (now : Z) (o : Options) : t :=
  let d := calculateDamage o in
  {| options := o; damage := d; hasHit := false; creationTime := now;
     sprite := {| ArrowSprite.x := px; ArrowSprite.y := py;
                  ArrowSprite.active := true; ArrowSprite.damage := d;
                  ArrowSprite.isMaxPower := isMaxPower o;
                  ArrowSprite.creationTime := None |} |}.

(** [Arrow.createFromShot(scene, x, y, targetX, targetY, options)].  The
    target point only sets the heading, which is not modelled. *)
Definition createFromShot (px py : Q) (now : Z) (so : ShotOptions.t) : t :=
  new px py now
    {| speed := speed defaults; gravity := gravity defaults;
       lifetime := lifetime defaults;
       speedMultiplier :=
         JS.orQ (ShotOptions.speedMultiplier so)
           (if JS.orB (ShotOptions.isMaxPower so) false then 12 # 10 else 1);
       isMaxPower := JS.orB (ShotOptions.isMaxPower so) false;
       baseDamage := JS.orQ (ShotOptions.baseDamage so) 10;
       powerLevel := JS.orQ (ShotOptions.powerLevel so) 100;
       damageMultiplier := JS.orQ (ShotOptions.damageMultiplier so) 1 |}.

Definition set_hasHit (v : bool) (a : t) : t :=
  {| options := options a; damage := damage a; hasHit := v;
     creationTime := creationTime a; sprite := sprite a |}.

(** [destroy()]. *)
Definition destroy (a : t) : t :=
  {| options := options a; damage := damage a; hasHit := hasHit a;
     creationTime := creationTime a;
     sprite := if ArrowSprite.active (sprite a)
               then ArrowSprite.destroy (sprite a) else sprite a |}.

(** [hitBase(arrow, baseSprite)]; [None] when the sprite carries no
    [baseInstance].  The fade that ends in [destroy()] two and a half
    seconds later is a scheduled call and is not modelled. *)
Definition hitBase (a : t) (base : option Base.t)
    : t * option Base.t * list SceneCall :=
  if hasHit a then (a, base, [])
  else
    let a' := set_hasHit true a in
    match base with
    | None => (a', None, [])
    | Some b =>
        let dmg := JS.orZ (damage a') 10 in
        let (b', log) := Base.takeDamage (inject_Z dmg) b in
        (a', Some b', log)
    end.

(** [hitEnemy(arrow, enemySprite)]; [None] when the sprite carries no
    [parentTroop]. *)
Definition hitEnemy (a : t) (enemy : option Troop.t)
    : t * option Troop.t * list SceneCall :=
  if hasHit a then (a, enemy, [])
  else
    let a' := set_hasHit true a in
    match enemy with
    | None => (a', None, [])
    | Some troop =>
        let dmg := JS.orZ (damage a') 10 in
        let (troop', log) := Troop.takeDamage (inject_Z dmg) troop in
        (a', Some troop', log)
    end.

End Arrow.

(** ** GameScene: the list of arrows in flight *)

Module GameScene.

Record Bounds := {
  width : Q;
  height : Q
}.

(** The scene's [arrows] array holds the arrows' sprites; a sprite is kept
    here with the [Arrow] it points back to ([arrowInstance]). *)
Record t := mk {
  gameActive : bool;
  worldBounds : Bounds;
  arrows : list Arrow.t
}.

Definition WORLD_WIDTH : Q := 2000.
Definition WORLD_HEIGHT : Q := 600.

Definition initial : t :=
  {| gameActive := true;
     worldBounds := {| width := WORLD_WIDTH; height := WORLD_HEIGHT |};
     arrows := [] |}.

Definition set_arrows (l : list Arrow.t) (s : t) : t :=
  {| gameActive := gameActive s; worldBounds := worldBounds s; arrows := l |}.

Definition set_gameActive (v : bool) (s : t) : t :=
  {| gameActive := v; worldBounds := worldBounds s; arrows := arrows s |}.

(** [addArrowToScene(arrow)]: the tracking part. *)
Definition addArrowToScene (a : Arrow.t) (s : t) : t :=
  if ArrowSprite.active (Arrow.sprite a)
  then set_arrows (arrows s ++ [a]) s
  else s.

Definition margin : Q := 50.

(** What the filter of [cleanupArrows] decides for one sprite. *)
Inductive Verdict := Keep | Drop | DestroyAndDrop.

Definition cleanupVerdict (now : Z) (wb : Bounds) (sp : ArrowSprite.t) : Verdict :=
  if negb (ArrowSprite.active sp) then Drop
  else
    let outOfBounds :=
      JS.lt (ArrowSprite.x sp) (- margin) ||
      JS.lt (ArrowSprite.y sp) (- margin) ||
      JS.gt (ArrowSprite.x sp) (width wb + margin) ||
      JS.gt (ArrowSprite.y sp) (height wb + margin) in
    if outOfBounds then DestroyAndDrop
    else
      (* Date.now() - arrow.creationTime > 10000, false on undefined *)
      let tooOld :=
        match ArrowSprite.creationTime sp with
        | Some created => Z.gtb (now - created) 10000
        | None => false
        end in
      if tooOld then DestroyAndDrop else Keep.

(** [cleanupArrows()]: the new scene, and the arrows it destroyed. *)
Definition cleanupArrows (now : Z) (s : t) : t * list Arrow.t :=
  let verdict a := cleanupVerdict now (worldBounds s) (Arrow.sprite a) in
  let kept :=
    List.filter (fun a => match verdict a with Keep => true | _ => false end)
      (arrows s) in
  let destroyed :=
    List.map Arrow.destroy
      (List.filter
         (fun a => match verdict a with DestroyAndDrop => true | _ => false end)
         (arrows s)) in
  (set_arrows kept s, destroyed).

(** [update(time, delta)], as far as the arrows are concerned: the method
    returns at once when the game is not active; its other steps (hero,
    UI, troops) leave the list alone. *)
Definition update (now : Z) (s : t) : t * list Arrow.t :=
  if negb (gameActive s) then (s, [])
  else cleanupArrows now s.

End GameScene.

(** ** Hero *)

Module Hero.

Record t := mk {
  health : Z;
  maxHealth : Z;
  isAlive : bool;
  shootCooldown : Z;
  lastShot : Z;
  baseDamage : Q;
  damageMultiplier : Q;
  isCharging : bool;
  powerLevel : Q;   (* written by updatePowerBar while charging *)
  sprite : Sprite
}.

(** [new Hero(scene, x, y)]. *)
Definition new (px py : Q) : t :=
  {| health := 200; maxHealth := 200; isAlive := true;
     shootCooldown := 300; lastShot := 0;
     baseDamage := 15; damageMultiplier := 1;
     isCharging := false; powerLevel := 0;
     sprite := {| x := px; y := py; active := true |} |}.

Definition set_isCharging (v : bool) (h : t) : t :=
  {| health := health h; maxHealth := maxHealth h; isAlive := isAlive h;
     shootCooldown := shootCooldown h; lastShot := lastShot h;
     baseDamage := baseDamage h; damageMultiplier := damageMultiplier h;
     isCharging := v; powerLevel := powerLevel h; sprite := sprite h |}.

Definition set_lastShot (v : Z) (h : t) : t :=
  {| health := health h; maxHealth := maxHealth h; isAlive := isAlive h;
     shootCooldown := shootCooldown h; lastShot := v;
     baseDamage := baseDamage h; damageMultiplier := damageMultiplier h;
     isCharging := isCharging h; powerLevel := powerLevel h;
     sprite := sprite h |}.

Definition set_health (v : Z) (alive : bool) (h : t) : t :=
  {| health := v; maxHealth := maxHealth h; isAlive := alive;
     shootCooldown := shootCooldown h; lastShot := lastShot h;
     baseDamage := baseDamage h; damageMultiplier := damageMultiplier h;
     isCharging := isCharging h; powerLevel := powerLevel h;
     sprite := sprite h |}.

Definition startCharging (h : t) : t := set_isCharging true h.

(** [shootWithPower(targetX, targetY, power)]: the arrow is built by
    [Arrow.createFromShot], whose constructor registers it with the
    scene; the method answers the arrow's sprite, kept here with its
    arrow.  [now] is [Date.now()]. *)
Definition shootWithPower (now : Z) (power : Q) (h : t) (scene : GameScene.t)
    : GameScene.t * option Arrow.t :=
  let isMaxPower := JS.ge power 99 in
  let arrow :=
    Arrow.createFromShot (x (sprite h)) (y (sprite h)) now
      {| ShotOptions.speedMultiplier := None;
         ShotOptions.isMaxPower := Some isMaxPower;
         ShotOptions.baseDamage := Some (baseDamage h);
         ShotOptions.powerLevel := Some power;
         ShotOptions.damageMultiplier := Some (damageMultiplier h) |} in
  (GameScene.addArrowToScene arrow scene, Some arrow).

(** [releaseArrow(targetX, targetY)]. *)
Definition releaseArrow (now : Z) (h : t) (scene : GameScene.t)
    : t * GameScene.t * option Arrow.t :=
  if negb (isCharging h) then (h, scene, None)
  else
    let finalPower := powerLevel h in
    let h' := set_isCharging false h in
    if JS.lt finalPower 34 then (h', scene, None)
    else
      let (scene', arrow) := shootWithPower now finalPower h' scene in
      (h', scene', arrow).

(** [shoot(targetX, targetY)], the legacy shot at 70% power. *)
Definition shoot (now : Z) (h : t) (scene : GameScene.t)
    : t * GameScene.t * option Arrow.t :=
  if negb (active (sprite h)) then (h, scene, None)
  else if Z.ltb (now - lastShot h) (shootCooldown h) then (h, scene, None)
  else
    let h' := set_lastShot now h in
    let (scene', arrow) := shootWithPower now 70 h' scene in
    (h', scene', arrow).

(** [takeDamage(amount)]; the respawn it schedules is not modelled. *)
Definition takeDamage (amount : Q) (h : t) : t :=
  if JS.le amount 0 || negb (isAlive h) then h
  else
    let v := Z.max 0 (health h - JS.Math_round amount) in
    if Z.leb v 0 then set_health 0 false h else set_health v (isAlive h) h.

End Hero.

(** ** Troop attacks *)

(** What a troop can attack. *)
Inductive Target :=
| ofTroop (tr : Troop.t)
| ofBase (b : Base.t)
| ofHero (h : Hero.t).

Module Target.

Definition sprite (tg : Target) : Sprite :=
  match tg with
  | ofTroop tr => Troop.sprite tr
  | ofBase b => Base.sprite b
  | ofHero h => Hero.sprite h
  end.

Definition health (tg : Target) : Z :=
  match tg with
  | ofTroop tr => Troop.health tr
  | ofBase b => Base.health b
  | ofHero h => Hero.health h
  end.

Definition category (tg : Target) : option string :=
  match tg with
  | ofTroop tr => Some (Troop.category tr)
  | _ => None
  end.

Definition takeDamage (amount : Q) (tg : Target) : Target * list SceneCall :=
  match tg with
  | ofTroop tr => let (tr', log) := Troop.takeDamage amount tr in (ofTroop tr', log)
  | ofBase b => let (b', log) := Base.takeDamage amount b in (ofBase b', log)
  | ofHero h => (ofHero (Hero.takeDamage amount h), [])
  end.

End Target.

(** The rectangle a ranged troop shoots, with the damage its overlap
    callback closes over. *)
Module SubProjectile.

Record t := mk {
  sprite : Sprite;
  projectileType : string;
  damage : Z
}.

Definition destroy (p : t) : t :=
  {| sprite := Sprite_destroy (sprite p);
     projectileType := projectileType p; damage := damage p |}.

End SubProjectile.

Module Combat.

(** [Troop.createRangedAttack(target, damage)]: the projectile starts at
    the troop.  No target of this program has a [hitbox], so the one
    overlap registered is the one with the target's sprite. *)
Definition createRangedAttack (tr : Troop.t) (tg : Target) (damage : Z)
    : option SubProjectile.t :=
  if negb (active (Target.sprite tg)) then None
  else
    let projectileType :=
      match TroopConfig.projectileType (Troop.config tr) with
      | Some ty => if JS.truthyS ty then ty else "arrow"%string
      | None => "arrow"%string
      end in
    Some {| SubProjectile.sprite :=
              {| x := x (Troop.sprite tr); y := y (Troop.sprite tr);
                 active := true |};
            SubProjectile.projectileType := projectileType;
            SubProjectile.damage := damage |}.

(** The overlap callback [createRangedAttack] registers: damage the
    target, then destroy the projectile. *)
Definition onOverlap (p : SubProjectile.t) (tg : Target)
    : SubProjectile.t * Target * list SceneCall :=
  let (tg', log) := Target.takeDamage (inject_Z (SubProjectile.damage p)) tg in
  (SubProjectile.destroy p, tg', log).

(** [Troop.attack(target, delta)] at scene time [now]. *)
Definition attack (now : Q) (tr : Troop.t) (tg : Target)
    : Troop.t * Target * option SubProjectile.t * list SceneCall :=
  if Z.leb (Target.health tg) 0 || negb (active (Target.sprite tg))
  then (tr, tg, None, [])
  else if JS.ge (now - Troop.lastAttackTime tr) (Troop.attackSpeed tr) then
    let damage := Troop.calculateDamage tr (Target.category tg) in
    let tr' := Troop.set_lastAttackTime now tr in
    if String.eqb (Troop.category tr') "Ranged"
    then (tr', tg, createRangedAttack tr' tg damage, [])
    else
      let (tg', log) := Target.takeDamage (inject_Z damage) tg in
      (tr', tg', None, log)
  else (tr, tg, None, []).

End Combat.

(** ** The scene's handlers *)

Module Game.

Definition baseDestroyXP : Z := 100.

(** [economyConfig.xpRewards.troopKill[category]]. *)
Definition troopKillXP (category : string) : JS.Member Z :=
  JS.member
    (fun key =>
       if String.eqb key "Light" then Some 10
       else if String.eqb key "Ranged" then Some 15
       else if String.eqb key "Heavy" then Some 20
       else None)
    category.

(** The scene handler behind each call, on the scene and the game
    manager.  The balances of the manager are numbers; the result is
    [None] when the handler makes one of them something else:
    [awardGoldForKill] adds a reward of [NaN] to the gold for a category
    named like an inherited member, and adds [undefined] or an inherited
    member to the XP for every category without an XP entry of its
    own. *)
Definition handle (c : SceneCall) (st : GameScene.t * GameManager.t)
    : option (GameScene.t * GameManager.t) :=
  let (scene, gm) := st in
  match c with
  | onPlayerBaseDestroyed => Some (GameScene.set_gameActive false scene, gm)
  | onEnemyBaseDestroyed =>
      Some (GameScene.set_gameActive false scene,
            GameManager.addXP baseDestroyXP gm)
  | awardGoldForKill category =>
      match GameManager.calculateKillReward category gm with
      | Some reward =>
          let gm := GameManager.addGold reward "enemy kill" gm in
          match troopKillXP category with
          | JS.own xpReward => Some (scene, GameManager.addXP xpReward gm)
          | _ => None
          end
      | None => None
      end
  end.

(** The handlers of a log of calls, one after the other, as long as the
    balances are numbers. *)
Definition handleAll (log : list SceneCall) (st : GameScene.t * GameManager.t)
    : option (GameScene.t * GameManager.t) :=
  List.fold_left
    (fun acc c => match acc with Some st' => handle c st' | None => None end)
    log (Some st).

End Game.

(** ** The specification's formulas *)

(** The damage formula as the specification words it, to be compared
    with what [Arrow.calculateDamage] computes on the hero's shots.  Its
    products and its quotient are the program's, on doubles and from
    left to right, and 1.4 is the double of that literal. *)
Module ShotSpec.

Definition powerScaling (powerLevel : Q) : Q :=
  if JS.lt powerLevel 50 then JS.div powerLevel 50 else 1%Q.

Definition isMaxPowerShot (powerLevel : Q) : bool := JS.ge powerLevel 99.

Definition maxPowerBonus (powerLevel : Q) : Q :=
  if isMaxPowerShot powerLevel then JS.double (14 # 10) else 1%Q.

Definition damage (baseDamage powerLevel damageMultiplier : Q) : Z :=
  JS.Math_round
    (JS.mul
       (JS.mul (JS.mul baseDamage (powerScaling powerLevel))
          (maxPowerBonus powerLevel))
       damageMultiplier).

End ShotSpec.

(** The category matchup table as the specification lists it, in
    decimal fractions. *)
Module MatchupSpec.

Inductive Category := Light | Heavy | Ranged.

Definition name (c : Category) : string :=
  match c with
  | Light => "Light"
  | Heavy => "Heavy"
  | Ranged => "Ranged"
  end.

Definition multiplier (attacker target : Category) : Q :=
  match attacker, target with
  | Light, Light | Heavy, Heavy | Ranged, Ranged => 1
  | Ranged, Light => 15 # 10
  | Heavy, Ranged => 15 # 10
  | Light, Heavy => 7 # 10
  | Heavy, Light => 13 # 10
  | Light, Ranged => 12 # 10
  | Ranged, Heavy => 8 # 10
  end.

End MatchupSpec.

(** The sprite lies outside the world bounds by more than the margin. *)
Definition outOfBounds (wb : GameScene.Bounds) (sp : ArrowSprite.t) : Prop :=
  (ArrowSprite.x sp < - GameScene.margin)%Q \/
  (ArrowSprite.y sp < - GameScene.margin)%Q \/
  (GameScene.width wb + GameScene.margin < ArrowSprite.x sp)%Q \/
  (GameScene.height wb + GameScene.margin < ArrowSprite.y sp)%Q.

(** The vertical reach factor [isTargetInAttackRange] uses. *)
Definition verticalFactor (tr : Troop.t) : Q :=
  match TroopConfig.verticalAttackFactor (Troop.config tr) with
  | Some f => f
  | None => 1 # 2
  end.

(** What the specification says of the damage an arrow [a] stores, for a
    shot of hero [h] at power level [power]: the formula on the arrow's
    own base damage and multiplier, the same damage on the sprite, and,
    when the hero's base damage and multiplier are not zero, the formula
    on the hero's values with its special case between 50 and 99. *)
Definition shotDamageAsSpecified (h : Hero.t) (power : Q) (a : Arrow.t) : Prop :=
  Arrow.damage a
  = ShotSpec.damage (Arrow.baseDamage (Arrow.options a)) power
      (Arrow.damageMultiplier (Arrow.options a)) /\
  ArrowSprite.damage (Arrow.sprite a) = Arrow.damage a /\
  (~ (Hero.baseDamage h == 0)%Q -> ~ (Hero.damageMultiplier h == 0)%Q ->
   Arrow.damage a
   = ShotSpec.damage (Hero.baseDamage h) power (Hero.damageMultiplier h) /\
   ((50 <= power)%Q -> (power < 99)%Q ->
    Arrow.damage a
    = JS.Math_round (JS.mul (Hero.baseDamage h) (Hero.damageMultiplier h)))).

(** ** GameManager: upgrades, features and rounds *)

(** The game manager with the upgrade records the economy functions above
    do not touch.  [purchasedUpgrades] and [unlockedFeatures] are objects
    whose keys are set to [true]; they are kept as the list of their keys.
    (Property names inherited from [Object.prototype] are not modelled.) *)
Module Ledger.

Record t := mk {
  manager : GameManager.t;
  purchasedUpgrades : list string;
  roundUpgrades : list string;
  enemyUpgrades : list string;
  unlockedFeatures : list string
}.

(** The state the constructor and [resetGame] establish. *)
Definition initial : t :=
  {| manager := GameManager.initial; purchasedUpgrades := [];
     roundUpgrades := []; enemyUpgrades := []; unlockedFeatures := [] |}.

Definition resetGame (l : t) : t := initial.

Definition set_manager (g : GameManager.t) (l : t) : t :=
  {| manager := g; purchasedUpgrades := purchasedUpgrades l;
     roundUpgrades := roundUpgrades l; enemyUpgrades := enemyUpgrades l;
     unlockedFeatures := unlockedFeatures l |}.

(** [array.includes(id)], and [object[id]] on an object of [true]s. *)
Definition includes (id : string) (keys : list string) : bool :=
  List.existsb (String.eqb id) keys.

(** [object[id] = true]. *)
Definition setTrue (id : string) (keys : list string) : list string :=
  if includes id keys then keys else keys ++ [id].

(** [economyConfig.baseUpgrades[id].cost]. *)
Definition baseUpgradeCost (id : string) : option Z :=
  if String.eqb id "longbowTraining" then Some 400
  else if String.eqb id "reinforcedWalls" then Some 300
  else if String.eqb id "improvedArrows" then Some 300
  else if String.eqb id "extendedPlatforms" then Some 300
  else if String.eqb id "quickSummoning" then Some 350
  else if String.eqb id "widePlatforms" then Some 400
  else None.

(** [isFeatureUnlocked(featureId)]. *)
Definition isFeatureUnlocked (featureId : string) (l : t) : bool :=
  includes featureId (unlockedFeatures l).

(** [canPurchaseUpgrade(upgradeId)]. *)
Definition canPurchaseUpgrade (upgradeId : string) (l : t) : bool :=
  match baseUpgradeCost upgradeId with
  | None => false
  | Some cost =>
      if includes upgradeId (purchasedUpgrades l) then false
      else if String.eqb upgradeId "longbowTraining"
              && negb (includes "longbowTraining" (unlockedFeatures l))
      then false
      else Z.geb (GameManager.gold (manager l)) cost
  end.

(** [purchaseUpgrade(upgradeId)]. *)
Definition purchaseUpgrade (upgradeId : string) (l : t) : bool * t :=
  match baseUpgradeCost upgradeId with
  | None => (false, l)
  | Some cost =>
      if includes upgradeId (purchasedUpgrades l) then (false, l)
      else if String.eqb upgradeId "longbowTraining"
              && negb (includes "longbowTraining" (unlockedFeatures l))
      then (false, l)
      else
        let (ok, g) := GameManager.spendGold cost (manager l) in
        if ok
        then (true,
              {| manager := g;
                 purchasedUpgrades := setTrue upgradeId (purchasedUpgrades l);
                 roundUpgrades := roundUpgrades l;
                 enemyUpgrades := enemyUpgrades l;
                 unlockedFeatures := unlockedFeatures l |})
        else (false, l)
  end.

(** [spendXP(amount, reason)]. *)
Definition spendXP (amount : Z) (l : t) : bool * t :=
  let g := manager l in
  if Z.geb (GameManager.xp g) amount
  then (true,
        set_manager
          {| GameManager.difficulty := GameManager.difficulty g;
             GameManager.currentRound := GameManager.currentRound g;
             GameManager.gold := GameManager.gold g;
             GameManager.xp := GameManager.xp g - amount |} l)
  else (false, l).

(** [economyConfig.roundUpgrades[id]] exists. *)
Definition isRoundUpgrade (id : string) : bool :=
  String.eqb id "unlockLongbowTraining".

(** [applyRoundUpgradeEffect(upgradeId)]. *)
Definition applyRoundUpgradeEffect (upgradeId : string) (l : t) : t :=
  if negb (isRoundUpgrade upgradeId) then l
  else if String.eqb upgradeId "unlockLongbowTraining"
  then {| manager := manager l; purchasedUpgrades := purchasedUpgrades l;
          roundUpgrades := roundUpgrades l; enemyUpgrades := enemyUpgrades l;
          unlockedFeatures := setTrue "longbowTraining" (unlockedFeatures l) |}
  else l.

(** [purchaseRoundUpgrade(upgradeId, cost)]. *)
Definition purchaseRoundUpgrade (upgradeId : string) (cost : Z) (l : t) : bool * t :=
  if includes upgradeId (roundUpgrades l) then (false, l)
  else
    let (ok, l1) := spendXP cost l in
    if ok
    then
      let l2 :=
        {| manager := manager l1; purchasedUpgrades := purchasedUpgrades l1;
           roundUpgrades := roundUpgrades l1 ++ [upgradeId];
           enemyUpgrades := enemyUpgrades l1;
           unlockedFeatures := unlockedFeatures l1 |} in
      (true, applyRoundUpgradeEffect upgradeId l2)
    else (false, l).

(** [addEnemyUpgrade(upgradeId)]. *)
Definition addEnemyUpgrade (upgradeId : string) (l : t) : t :=
  if includes upgradeId (enemyUpgrades l) then l
  else {| manager := manager l; purchasedUpgrades := purchasedUpgrades l;
          roundUpgrades := roundUpgrades l;
          enemyUpgrades := enemyUpgrades l ++ [upgradeId];
          unlockedFeatures := unlockedFeatures l |}.

(** [economyConfig.enemyUpgrades[id]]: its effect key and value. *)
Definition enemyUpgradeConfig (id : string) : option (string * Q) :=
  if String.eqb id "enemyBaseHealthBoost"
  then Some ("enemyBaseHealthBoost"%string, 12 # 10)
  else None.

(** [effects[key] = value] on the effects object, kept as an association
    list with one entry per key. *)
Fixpoint assign (key : string) (value : Q) (effects : list (string * Q))
    : list (string * Q) :=
  match effects with
  | [] => [(key, value)]
  | (k, v) :: rest =>
      if String.eqb k key then (k, value) :: rest
      else (k, v) :: assign key value rest
  end.

Fixpoint lookup (key : string) (effects : list (string * Q)) : option Q :=
  match effects with
  | [] => None
  | (k, v) :: rest => if String.eqb k key then Some v else lookup key rest
  end.

(** [getEnemyUpgradeEffects()]. *)
Definition getEnemyUpgradeEffects (l : t) : list (string * Q) :=
  List.fold_left
    (fun effects upgradeId =>
       match enemyUpgradeConfig upgradeId with
       | Some (key, value) => assign key value effects
       | None => effects
       end)
    (enemyUpgrades l) [].

(** [advanceRound()]. *)
Definition advanceRound (l : t) : t :=
  let g := manager l in
  set_manager
    {| GameManager.difficulty := GameManager.difficulty g;
       GameManager.currentRound := GameManager.currentRound g + 1;
       GameManager.gold := GameManager.gold g;
       GameManager.xp := GameManager.xp g |} l.

(** A call of the manager's interface. *)
Inductive Call :=
| AddGold (amount : Z) (source : string)
| SpendGold (amount : Z)
| AddXP (amount : Z)
| SpendXP (amount : Z)
| PurchaseUpgrade (upgradeId : string)
| PurchaseRoundUpgrade (upgradeId : string) (cost : Z)
| AddEnemyUpgrade (upgradeId : string)
| SetDifficulty (difficulty : string)
| AdvanceRound.

Definition step (c : Call) (l : t) : t :=
  match c with
  | AddGold amount source =>
      set_manager (GameManager.addGold amount source (manager l)) l
  | SpendGold amount =>
      set_manager (snd (GameManager.spendGold amount (manager l))) l
  | AddXP amount => set_manager (GameManager.addXP amount (manager l)) l
  | SpendXP amount => snd (spendXP amount l)
  | PurchaseUpgrade upgradeId => snd (purchaseUpgrade upgradeId l)
  | PurchaseRoundUpgrade upgradeId cost =>
      snd (purchaseRoundUpgrade upgradeId cost l)
  | AddEnemyUpgrade upgradeId => addEnemyUpgrade upgradeId l
  | SetDifficulty d => set_manager (GameManager.setDifficulty d (manager l)) l
  | AdvanceRound => advanceRound l
  end.

(** The state after a sequence of calls, first call first. *)
Definition run (calls : list Call) (l : t) : t :=
  List.fold_left (fun acc c => step c acc) calls l.

(** Amounts handed to [addGold] and [addXP] are not negative. *)
Definition addsNonNegative (c : Call) : Prop :=
  match c with
  | AddGold amount _ | AddXP amount => 0 <= amount
  | _ => True
  end.

End Ledger.

(** What ties the longbow records together. *)
Definition longbowRecordsAgree (l : Ledger.t) : Prop :=
  (In "longbowTraining"%string (Ledger.purchasedUpgrades l) ->
   In "longbowTraining"%string (Ledger.unlockedFeatures l)) /\
  (In "longbowTraining"%string (Ledger.unlockedFeatures l) ->
   In "unlockLongbowTraining"%string (Ledger.roundUpgrades l)).

(** ** UpgradeScene: the choices between rounds *)

Module UpgradeScene.

(** The scene's own state.  The two selections are set to [null] by the
    constructor only; the two flags say whether the enemy upgrade buttons
    and the start button take clicks ([setInteractive] /
    [disableInteractive]), as [create()] and the select methods leave
    them. *)
Record t := mk {
  selectedPlayerUpgrade : option string;
  selectedEnemyUpgrade : option string;
  enemySectionEnabled : bool;
  startEnabled : bool
}.

(** [new UpgradeScene()]. *)
Definition new : t :=
  {| selectedPlayerUpgrade := None; selectedEnemyUpgrade := None;
     enemySectionEnabled := false; startEnabled := false |}.

(** [create()], on every entry into the scene: the buttons are rebuilt,
    the enemy section and the start button disabled; the selections are
    not cleared. *)
Definition create (sc : t) : t :=
  {| selectedPlayerUpgrade := selectedPlayerUpgrade sc;
     selectedEnemyUpgrade := selectedEnemyUpgrade sc;
     enemySectionEnabled := false; startEnabled := false |}.

(** [getPlayerUpgradesForCurrentRound()]: ids with their XP cost. *)
Definition getPlayerUpgradesForCurrentRound (l : Ledger.t) : list (string * Z) :=
  if Z.eqb (GameManager.currentRound (Ledger.manager l)) 1
  then [("unlockLongbowTraining"%string, 200)]
  else [].

(** [getEnemyUpgradesForCurrentRound()]: ids. *)
Definition getEnemyUpgradesForCurrentRound (l : Ledger.t) : list string :=
  if Z.eqb (GameManager.currentRound (Ledger.manager l)) 1
  then ["enemyBaseHealthBoost"%string]
  else [].

(** [list.find(u => u.id === upgradeId)]. *)
Definition findOffer (upgradeId : string) (offers : list (string * Z))
    : option (string * Z) :=
  List.find (fun u => String.eqb (fst u) upgradeId) offers.

Definition sameSelection (selected : option string) (upgradeId : string) : bool :=
  match selected with
  | Some s => String.eqb s upgradeId
  | None => false
  end.

(** [selectPlayerUpgrade(upgradeId)]; every offer has its button, and the
    answer of [purchaseRoundUpgrade] is not looked at. *)
Definition selectPlayerUpgrade (upgradeId : string) (st : t * Ledger.t)
    : t * Ledger.t :=
  let (sc, l) := st in
  match findOffer upgradeId (getPlayerUpgradesForCurrentRound l) with
  | None => st
  | Some (_, cost) =>
      if Z.ltb (GameManager.xp (Ledger.manager l)) cost then st
      else if sameSelection (selectedPlayerUpgrade sc) upgradeId then st
      else
        ({| selectedPlayerUpgrade := Some upgradeId;
            selectedEnemyUpgrade := selectedEnemyUpgrade sc;
            enemySectionEnabled := true;
            startEnabled := startEnabled sc |},
         snd (Ledger.purchaseRoundUpgrade upgradeId cost l))
  end.

(** [selectEnemyUpgrade(upgradeId)]. *)
Definition selectEnemyUpgrade (upgradeId : string) (st : t * Ledger.t)
    : t * Ledger.t :=
  let (sc, l) := st in
  if List.existsb (fun u => String.eqb u upgradeId)
       (getEnemyUpgradesForCurrentRound l)
  then
    ({| selectedPlayerUpgrade := selectedPlayerUpgrade sc;
        selectedEnemyUpgrade := Some upgradeId;
        enemySectionEnabled := enemySectionEnabled sc;
        startEnabled := true |},
     Ledger.addEnemyUpgrade upgradeId l)
  else st.

(** A selection is truthy when it is a non-empty string. *)
Definition chosen (selected : option string) : bool :=
  match selected with
  | Some s => JS.truthyS s
  | None => false
  end.

(** [startNextRound()]: the new state, and whether the game scene was
    started. *)
Definition startNextRound (st : t * Ledger.t) : t * Ledger.t * bool :=
  let (sc, l) := st in
  if negb (chosen (selectedPlayerUpgrade sc)) || negb (chosen (selectedEnemyUpgrade sc))
  then (st, false)
  else
    ({| selectedPlayerUpgrade := selectedPlayerUpgrade sc;
        selectedEnemyUpgrade := selectedEnemyUpgrade sc;
        enemySectionEnabled := enemySectionEnabled sc;
        startEnabled := false |},
     Ledger.advanceRound l, true).

(** A call of one of the scene's three handlers. *)
Inductive Call :=
| SelectPlayer (upgradeId : string)
| SelectEnemy (upgradeId : string)
| Start.

Definition step (c : Call) (st : t * Ledger.t) : t * Ledger.t * bool :=
  match c with
  | SelectPlayer upgradeId => (selectPlayerUpgrade upgradeId st, false)
  | SelectEnemy upgradeId => (selectEnemyUpgrade upgradeId st, false)
  | Start => startNextRound st
  end.

(** A pointer click: a button that is not interactive passes nothing on
    to its handler.  The player upgrade buttons are always interactive. *)
Definition click (c : Call) (st : t * Ledger.t) : t * Ledger.t * bool :=
  match c with
  | SelectPlayer _ => step c st
  | SelectEnemy _ => if enemySectionEnabled (fst st) then step c st else (st, false)
  | Start => if startEnabled (fst st) then step c st else (st, false)
  end.

(** Runs handlers one after the other until one starts the game scene;
    the answer says whether one did. *)
Fixpoint run (react : Call -> t * Ledger.t -> t * Ledger.t * bool)
    (calls : list Call) (st : t * Ledger.t) : t * Ledger.t * bool :=
  match calls with
  | [] => (st, false)
  | c :: rest =>
      let '(st', started) := react c st in
      if started then (st', true) else run react rest st'
  end.

End UpgradeScene.

(** [GameScene.createBases()]: the player base and the enemy base of a
    round, the latter with the enemy upgrades applied. *)
Definition createBases (l : Ledger.t) : Base.t * Base.t :=
  let playerBase :=
    Base.mk true 300 300 {| x := 100; y := 570 - 80; active := true |} in
  let enemyBaseHealth :=
    match Ledger.lookup "enemyBaseHealthBoost" (Ledger.getEnemyUpgradeEffects l) with
    | Some boost =>
        if JS.falsy boost then 300 else JS.Math_floor (300 * boost)%Q
    | None => 300
    end in
  (playerBase,
   Base.mk false enemyBaseHealth enemyBaseHealth
     {| x := 2000 - 100; y := 570 - 80; active := true |}).

(** ** Platform (the hero's summoned platform) *)

Module Platform.

Record Options := {
  width : Q;
  height : Q;
  duration : Q;
  blinkTime : Q;
  fadeOutTime : Q;
  solid : bool
}.

Definition defaults : Options :=
  {| width := 70; height := 10; duration := 6000; blinkTime := 2000;
     fadeOutTime := 500; solid := true |}.

(** [sprite] is [null] ([None]) once the platform is destroyed;
    [collidesUp] is the body's [checkCollision.up], [blinkTween] whether
    the blinking tween is running. *)
Record t := mk {
  options : Options;
  sprite : option Sprite;
  collidesUp : bool;
  creationTime : Q;
  isBlinking : bool;
  isFadingOut : bool;
  markedForDestroy : bool;
  blinkTween : bool
}.

(** [new Platform(scene, x, y, { width, duration })] at scene time [now]. *)
Definition new (now px py w d : Q) : t :=
  {| options :=
       {| width := w; height := height defaults; duration := d;
          blinkTime := blinkTime defaults; fadeOutTime := fadeOutTime defaults;
          solid := solid defaults |};
     sprite := Some {| x := px; y := py; active := true |};
     collidesUp := true;
     creationTime := now;
     isBlinking := false; isFadingOut := false; markedForDestroy := false;
     blinkTween := false |}.

(** [setSolid(isSolid)]. *)
Definition setSolid (isSolid : bool) (p : t) : t :=
  {| options :=
       {| width := width (options p); height := height (options p);
          duration := duration (options p); blinkTime := blinkTime (options p);
          fadeOutTime := fadeOutTime (options p); solid := isSolid |};
     sprite := sprite p;
     collidesUp := match sprite p with Some _ => isSolid | None => collidesUp p end;
     creationTime := creationTime p;
     isBlinking := isBlinking p; isFadingOut := isFadingOut p;
     markedForDestroy := markedForDestroy p; blinkTween := blinkTween p |}.

(** [startBlinking()]. *)
Definition startBlinking (p : t) : t :=
  if isBlinking p then p
  else
    {| options := options p; sprite := sprite p; collidesUp := collidesUp p;
       creationTime := creationTime p;
       isBlinking := true; isFadingOut := isFadingOut p;
       markedForDestroy := markedForDestroy p; blinkTween := true |}.

(** [startFadeOut()]: the platform stops being solid. *)
Definition startFadeOut (p : t) : t :=
  if isFadingOut p then p
  else
    setSolid false
      {| options := options p; sprite := sprite p; collidesUp := collidesUp p;
         creationTime := creationTime p;
         isBlinking := isBlinking p; isFadingOut := true;
         markedForDestroy := markedForDestroy p; blinkTween := false |}.

(** [destroy()]. *)
Definition destroy (p : t) : t :=
  {| options := options p; sprite := None; collidesUp := collidesUp p;
     creationTime := creationTime p;
     isBlinking := isBlinking p; isFadingOut := isFadingOut p;
     markedForDestroy := true; blinkTween := false |}.

(** [forceDespawn()]; the [destroy()] its 300 ms fade ends in is a
    scheduled call, see [Despawned] below. *)
Definition forceDespawn (p : t) : t :=
  if isFadingOut p || markedForDestroy p then p
  else
    setSolid false
      {| options := options p; sprite := sprite p; collidesUp := collidesUp p;
         creationTime := creationTime p;
         isBlinking := isBlinking p; isFadingOut := true;
         markedForDestroy := markedForDestroy p; blinkTween := false |}.

(** [update()] at scene time [now]. *)
Definition update (now : Q) (p : t) : t :=
  if markedForDestroy p then p
  else
    let age := (now - creationTime p)%Q in
    let o := options p in
    let p1 :=
      if negb (isBlinking p) && negb (isFadingOut p)
         && JS.ge age (duration o - blinkTime o - fadeOutTime o)
      then startBlinking p else p in
    let p2 :=
      if negb (isFadingOut p1) && JS.ge age (duration o - fadeOutTime o)
      then startFadeOut p1 else p1 in
    if JS.ge age (duration o) then destroy p2 else p2.

(** What happens to a platform: a frame at some scene time, the player
    dropping through it, and the end of the fade that follows. *)
Inductive Event :=
| Frame (now : Q)
| ForceDespawn
| Despawned.

Definition step (e : Event) (p : t) : t :=
  match e with
  | Frame now => update now p
  | ForceDespawn => forceDespawn p
  | Despawned => destroy p
  end.

Definition run (events : list Event) (p : t) : t :=
  List.fold_left (fun acc e => step e acc) events p.


End Platform.

(** What holds of a platform at every moment of its life: a fading
    platform is not solid, and it is marked for destruction exactly when
    its sprite is gone. *)
Definition platformConsistent (p : Platform.t) : Prop :=
  (Platform.isFadingOut p = true ->
   Platform.solid (Platform.options p) = false /\ Platform.collidesUp p = false) /\
  (Platform.markedForDestroy p = true ->
   Platform.sprite p = None /\ Platform.blinkTween p = false) /\
  (Platform.sprite p = None -> Platform.markedForDestroy p = true).

(** ** The hero's platform ability *)

(** The part of [Hero] that summons platforms.  A platform is kept with a
    number that stands for its identity ([===]); [cooldownTimer] is the
    scene time at which the pending cooldown call is due, if any.  The
    hero's other fields, its sprite among them, are passed in as [h]. *)
Module Summoner.

Record t := mk {
  platforms : list (nat * Platform.t);
  nextPlatform : nat;
  activePlatform : option nat;
  platformCooldown : Q;
  platformDuration : Q;
  platformWidth : Q;
  lastPlatformSummon : Q;
  canSummonPlatform : bool;
  isSpaceKeyDown : bool;
  cooldownTimer : option Q
}.

(** The height of the hero's rectangle. *)
Definition heroHeight : Q := 50.

(** The fields as [new Hero(scene, x, y)] sets them, from
    [economyConfig.platformAbility]. *)
Definition new : t :=
  {| platforms := []; nextPlatform := 0; activePlatform := None;
     platformCooldown := 5000; platformDuration := 6000; platformWidth := 70;
     lastPlatformSummon := 0; canSummonPlatform := true;
     isSpaceKeyDown := false; cooldownTimer := None |}.

Definition set_platforms (l : list (nat * Platform.t)) (s : t) : t :=
  {| platforms := l; nextPlatform := nextPlatform s;
     activePlatform := activePlatform s;
     platformCooldown := platformCooldown s;
     platformDuration := platformDuration s; platformWidth := platformWidth s;
     lastPlatformSummon := lastPlatformSummon s;
     canSummonPlatform := canSummonPlatform s;
     isSpaceKeyDown := isSpaceKeyDown s; cooldownTimer := cooldownTimer s |}.

Definition set_canSummon (v : bool) (timer : option Q) (s : t) : t :=
  {| platforms := platforms s; nextPlatform := nextPlatform s;
     activePlatform := activePlatform s;
     platformCooldown := platformCooldown s;
     platformDuration := platformDuration s; platformWidth := platformWidth s;
     lastPlatformSummon := lastPlatformSummon s;
     canSummonPlatform := v;
     isSpaceKeyDown := isSpaceKeyDown s; cooldownTimer := timer |}.

Definition set_space (v : bool) (s : t) : t :=
  {| platforms := platforms s; nextPlatform := nextPlatform s;
     activePlatform := activePlatform s;
     platformCooldown := platformCooldown s;
     platformDuration := platformDuration s; platformWidth := platformWidth s;
     lastPlatformSummon := lastPlatformSummon s;
     canSummonPlatform := canSummonPlatform s;
     isSpaceKeyDown := v; cooldownTimer := cooldownTimer s |}.

(** [summonPlatform()] at scene time [now]. *)
Definition summonPlatform (now : Q) (h : Hero.t) (s : t) : t :=
  if JS.lt (now - lastPlatformSummon s) (platformCooldown s) then s
  else
    match platforms s, activePlatform s with
    | [], None =>
        let px := x (Hero.sprite h) in
        let py := (y (Hero.sprite h) + heroHeight / 2 + 5)%Q in
        let platform :=
          Platform.setSolid true
            (Platform.new now px py (platformWidth s) (platformDuration s)) in
        {| platforms := platforms s ++ [(nextPlatform s, platform)];
           nextPlatform := S (nextPlatform s);
           activePlatform := Some (nextPlatform s);
           platformCooldown := platformCooldown s;
           platformDuration := platformDuration s;
           platformWidth := platformWidth s;
           lastPlatformSummon := lastPlatformSummon s;
           canSummonPlatform := false;
           isSpaceKeyDown := isSpaceKeyDown s;
           cooldownTimer := cooldownTimer s |}
    | _, _ => s
    end.

Definition sameId (id : nat) (current : option nat) : bool :=
  match current with
  | Some a => Nat.eqb a id
  | None => false
  end.

(** The listener [summonPlatform] puts on the platform sprite's
    [destroy] event, run at scene time [now] for platform [id]. *)
Definition onPlatformDestroyed (id : nat) (now : Q) (s : t) : t :=
  let wasActive := sameId id (activePlatform s) in
  {| platforms := List.filter (fun ip => negb (Nat.eqb (fst ip) id)) (platforms s);
     nextPlatform := nextPlatform s;
     activePlatform := if wasActive then None else activePlatform s;
     platformCooldown := platformCooldown s;
     platformDuration := platformDuration s;
     platformWidth := platformWidth s;
     lastPlatformSummon := if wasActive then now else lastPlatformSummon s;
     canSummonPlatform := canSummonPlatform s;
     isSpaceKeyDown := isSpaceKeyDown s;
     cooldownTimer :=
       if wasActive then Some (now + platformCooldown s)%Q else cooldownTimer s |}.

(** [updatePlatformCooldown()], without its indicator. *)
Definition updatePlatformCooldown (now : Q) (h : Hero.t) (s : t) : t :=
  if negb (active (Hero.sprite h)) then s
  else if canSummonPlatform s then s
  else
    let elapsed := (now - lastPlatformSummon s)%Q in
    let progress := Qmin (elapsed / platformCooldown s) 1 in
    if JS.ge progress 1 then set_canSummon true (cooldownTimer s) s else s.

(** The test of [Hero.update] for standing on a platform, [vy] being the
    hero's vertical velocity at that point. *)
Definition isOnPlatform (h : Hero.t) (vy : Q) (p : Platform.t) : bool :=
  match Platform.sprite p with
  | None => false
  | Some ps =>
      if Platform.isFadingOut p || Platform.markedForDestroy p then false
      else
        let heroBottom := (y (Hero.sprite h) + heroHeight / 2)%Q in
        let heroX := x (Hero.sprite h) in
        let platformTop := (y ps - Platform.height (Platform.options p) / 2)%Q in
        let platformLeft := (x ps - Platform.width (Platform.options p) / 2)%Q in
        let platformRight := (x ps + Platform.width (Platform.options p) / 2)%Q in
        JS.le (Qabs (heroBottom - platformTop)) 5
        && (JS.ge heroX platformLeft && JS.le heroX platformRight)
        && JS.ge vy (-10)
  end.

(** The first platform the hero stands on is made to despawn. *)
Fixpoint despawnStandingOn (h : Hero.t) (vy : Q) (l : list (nat * Platform.t))
    : list (nat * Platform.t) :=
  match l with
  | [] => []
  | (id, p) :: rest =>
      if isOnPlatform h vy p then (id, Platform.forceDespawn p) :: rest
      else (id, p) :: despawnStandingOn h vy rest
  end.

Record Keys := {
  down : bool;
  space : bool
}.

(** [Hero.update(keys)] at scene time [now], as far as platforms go:
    the cooldown, the down key on a platform, the space key. *)
Definition update (now : Q) (keys : Keys) (h : Hero.t) (vy : Q) (s : t) : t :=
  if negb (active (Hero.sprite h)) then s
  else if negb (Hero.isAlive h) then s
  else
    let s1 := updatePlatformCooldown now h s in
    let s2 :=
      if down keys
      then set_platforms (despawnStandingOn h vy (platforms s1)) s1
      else s1 in
    if space keys && negb (isSpaceKeyDown s2) then
      let s3 := set_space true s2 in
      if canSummonPlatform s3 then summonPlatform now h s3 else s3
    else if negb (space keys) then set_space false s2
    else s2.

(** The platforms' own [update] in a frame; one whose sprite is
    destroyed in it fires the listener. *)
Fixpoint updatePlatforms (now : Q) (todo : list (nat * Platform.t)) (s : t) : t :=
  match todo with
  | [] => s
  | (id, p) :: rest =>
      let p' := Platform.update now p in
      let s1 :=
        set_platforms
          (List.map (fun ip => if Nat.eqb (fst ip) id then (id, p') else ip)
             (platforms s)) s in
      let s2 :=
        match Platform.sprite p, Platform.sprite p' with
        | Some _, None => onPlatformDestroyed id now s1
        | _, _ => s1
        end in
      updatePlatforms now rest s2
  end.

(** The pending cooldown call, when it is due. *)
Definition fireCooldownTimer (now : Q) (s : t) : t :=
  match cooldownTimer s with
  | Some due => if JS.ge now due then set_canSummon true None s else s
  | None => s
  end.

(** The end of the fade [forceDespawn] started on platform [id]: its
    [destroy()], and with it the listener. *)
Definition fadeEnded (id : nat) (now : Q) (s : t) : t :=
  match List.find (fun ip => Nat.eqb (fst ip) id) (platforms s) with
  | Some (_, p) =>
      let s1 :=
        set_platforms
          (List.map (fun ip => if Nat.eqb (fst ip) id
                               then (id, Platform.destroy p) else ip)
             (platforms s)) s in
      match Platform.sprite p with
      | Some _ => onPlatformDestroyed id now s1
      | None => s1
      end
  | None => s
  end.

(** [GameScene.applyUpgradeEffect] for the three platform upgrades: the
    new values come from the base configuration. *)
Definition applyPlatformUpgrade (upgradeId : string) (s : t) : t :=
  if String.eqb upgradeId "extendedPlatforms" then
    {| platforms := platforms s; nextPlatform := nextPlatform s;
       activePlatform := activePlatform s;
       platformCooldown := platformCooldown s;
       platformDuration := inject_Z (JS.Math_floor (6000 * (15 # 10)));
       platformWidth := platformWidth s;
       lastPlatformSummon := lastPlatformSummon s;
       canSummonPlatform := canSummonPlatform s;
       isSpaceKeyDown := isSpaceKeyDown s; cooldownTimer := cooldownTimer s |}
  else if String.eqb upgradeId "quickSummoning" then
    {| platforms := platforms s; nextPlatform := nextPlatform s;
       activePlatform := activePlatform s;
       platformCooldown := inject_Z (JS.Math_floor (5000 * (75 # 100)));
       platformDuration := platformDuration s;
       platformWidth := platformWidth s;
       lastPlatformSummon := lastPlatformSummon s;
       canSummonPlatform := canSummonPlatform s;
       isSpaceKeyDown := isSpaceKeyDown s; cooldownTimer := cooldownTimer s |}
  else if String.eqb upgradeId "widePlatforms" then
    {| platforms := platforms s; nextPlatform := nextPlatform s;
       activePlatform := activePlatform s;
       platformCooldown := platformCooldown s;
       platformDuration := platformDuration s;
       platformWidth := inject_Z (JS.Math_floor (70 * (14 # 10)));
       lastPlatformSummon := lastPlatformSummon s;
       canSummonPlatform := canSummonPlatform s;
       isSpaceKeyDown := isSpaceKeyDown s; cooldownTimer := cooldownTimer s |}
  else s.

(** What can happen to the ability: a frame (the due timer, the
    platforms' updates, then the hero's), the end of a forced fade, an
    upgrade. *)
Inductive Event :=
| Tick (now : Q) (keys : Keys) (h : Hero.t) (vy : Q)
| FadeEnded (id : nat) (now : Q)
| Upgrade (upgradeId : string).

Definition step (e : Event) (s : t) : t :=
  match e with
  | Tick now keys h vy =>
      let s1 := fireCooldownTimer now s in
      let s2 := updatePlatforms now (platforms s1) s1 in
      update now keys h vy s2
  | FadeEnded id now => fadeEnded id now s
  | Upgrade upgradeId => applyPlatformUpgrade upgradeId s
  end.

Definition run (events : list Event) (s : t) : t :=
  List.fold_left (fun acc e => step e acc) events s.

(** The scene time of an event, if it has one. *)
Definition timeOf (e : Event) : option Q :=
  match e with
  | Tick now _ _ _ => Some now
  | FadeEnded _ now => Some now
  | Upgrade _ => None
  end.

(** The event happens less than [c] ms after [t] and is no upgrade. *)
Definition withinCooldown (t c : Q) (e : Event) : Prop :=
  match timeOf e with
  | Some now => (now - t < c)%Q
  | None => False
  end.

End Summoner.

(** At most one platform exists; it is the active one and it is not
    destroyed. *)
Definition onePlatform (s : Summoner.t) : Prop :=
  match Summoner.platforms s with
  | [] => Summoner.activePlatform s = None
  | [(id, p)] =>
      Summoner.activePlatform s = Some id /\
      Platform.markedForDestroy p = false /\
      platformConsistent p
  | _ => False
  end.

(** ** A troop's frame: targets, queue, march *)

Module TroopMove.

(** What a troop aims at: a troop of the scene (by a number that stands
    for its identity), the base it marches on, the hero. *)
Inductive Ref :=
| aTroop (id : nat)
| theBase
| theHero.

(** A troop with the fields that [move] keeps between frames. *)
Record t := mk {
  troop : Troop.t;
  currentTarget : option Ref;
  isAttacking : bool;
  isStopped : bool
}.

Definition set_troop (tr : Troop.t) (u : t) : t :=
  {| troop := tr; currentTarget := currentTarget u;
     isAttacking := isAttacking u; isStopped := isStopped u |}.

Definition set_isStopped (v : bool) (u : t) : t :=
  {| troop := troop u; currentTarget := currentTarget u;
     isAttacking := isAttacking u; isStopped := v |}.

(** [currentTarget = null; isAttacking = false]. *)
Definition clearTarget (u : t) : t :=
  {| troop := troop u; currentTarget := None;
     isAttacking := false; isStopped := isStopped u |}.

(** [currentTarget = target; isAttacking = true]. *)
Definition aimAt (r : Ref) (u : t) : t :=
  {| troop := troop u; currentTarget := Some r;
     isAttacking := true; isStopped := isStopped u |}.

Definition lookup (id : nat) (allTroops : list (nat * t)) : option t :=
  option_map snd (List.find (fun it => Nat.eqb (fst it) id) allTroops).

(** The object behind a reference.  A troop that has left the scene's
    list has a destroyed sprite; it resolves to [None]. *)
Definition resolve (r : Ref) (allTroops : list (nat * t))
    (targetBase : option Base.t) (hero : option Hero.t) : option Target :=
  match r with
  | aTroop id => option_map (fun u => ofTroop (troop u)) (lookup id allTroops)
  | theBase => option_map ofBase targetBase
  | theHero => option_map ofHero hero
  end.

(** [distance < nearestDistance], the latter starting at [Infinity]
    ([None]). *)
Definition closer (distance : Q) (nearestDistance : option Q) : bool :=
  match nearestDistance with
  | None => true
  | Some d => JS.lt distance d
  end.

(** [findNearestTarget(allTroops, targetBase)]; [self] is the number of
    this troop. *)
Definition findNearestTarget (self : nat) (this : t)
    (allTroops : list (nat * t)) (targetBase : option Base.t) : option Ref :=
  let scan :=
    List.fold_left
      (fun (acc : option Ref * option Q) (it : nat * t) =>
         if Nat.eqb (fst it) self
            || Bool.eqb (Troop.isEnemy (troop (snd it))) (Troop.isEnemy (troop this))
         then acc
         else
           let distance :=
             Qabs (x (Troop.sprite (troop (snd it))) - x (Troop.sprite (troop this))) in
           if JS.lt distance ENGAGEMENT_RANGE && closer distance (snd acc)
           then (Some (aTroop (fst it)), Some distance)
           else acc)
      allTroops (None, None) in
  match targetBase with
  | Some b =>
      let distanceToBase :=
        Qabs (x (Base.sprite b) - x (Troop.sprite (troop this))) in
      if JS.lt distanceToBase ENGAGEMENT_RANGE && closer distanceToBase (snd scan)
      then Some theBase
      else fst scan
  | None => fst scan
  end.

(** [findTargetInAttackRange(allTroops, targetBase)]. *)
Definition findTargetInAttackRange (self : nat) (this : t)
    (allTroops : list (nat * t)) (targetBase : option Base.t) : option Ref :=
  let scan :=
    List.fold_left
      (fun (acc : option Ref * option Q) (it : nat * t) =>
         if Nat.eqb (fst it) self
            || Bool.eqb (Troop.isEnemy (troop (snd it))) (Troop.isEnemy (troop this))
         then acc
         else if Troop.isTargetInAttackRange (troop this)
                   (Some (Troop.sprite (troop (snd it))))
         then
           let distance :=
             Qabs (x (Troop.sprite (troop (snd it))) - x (Troop.sprite (troop this))) in
           if closer distance (snd acc)
           then (Some (aTroop (fst it)), Some distance)
           else acc
         else acc)
      allTroops (None, None) in
  match targetBase with
  | Some b =>
      let distanceToBase :=
        Qabs (x (Base.sprite b) - x (Troop.sprite (troop this))) in
      if JS.lt distanceToBase (Troop.attackRange (troop this))
         && closer distanceToBase (snd scan)
      then Some theBase
      else fst scan
  | None => fst scan
  end.

(** [checkSameCategoryAlliesAhead(allTroops, direction)]. *)
Fixpoint checkSameCategoryAlliesAhead (self : nat) (this : t)
    (allTroops : list (nat * t)) (direction : Q) : bool :=
  match allTroops with
  | [] => false
  | (id, other) :: rest =>
      if Nat.eqb id self
         || negb (Bool.eqb (Troop.isEnemy (troop other)) (Troop.isEnemy (troop this)))
         || negb (String.eqb (Troop.category (troop other)) (Troop.category (troop this)))
      then checkSameCategoryAlliesAhead self this rest direction
      else
        let isBehind :=
          (JS.gt direction 0
           && JS.gt (x (Troop.sprite (troop other))) (x (Troop.sprite (troop this))))
          || (JS.lt direction 0
              && JS.lt (x (Troop.sprite (troop other))) (x (Troop.sprite (troop this)))) in
        if isBehind then
          let distance :=
            Qabs (x (Troop.sprite (troop other)) - x (Troop.sprite (troop this))) in
          let minSpacing := (Troop.troopWidth (troop this) * (15 # 10))%Q in
          if JS.lt distance minSpacing then true
          else checkSameCategoryAlliesAhead self this rest direction
        else checkSameCategoryAlliesAhead self this rest direction
  end.

Definition set_x (v : Q) (tr : Troop.t) : Troop.t :=
  {| Troop.category := Troop.category tr; Troop.unitType := Troop.unitType tr;
     Troop.health := Troop.health tr; Troop.speed := Troop.speed tr;
     Troop.attackRange := Troop.attackRange tr;
     Troop.attackSpeed := Troop.attackSpeed tr;
     Troop.attackDamage := Troop.attackDamage tr;
     Troop.troopWidth := Troop.troopWidth tr;
     Troop.troopHeight := Troop.troopHeight tr;
     Troop.config := Troop.config tr; Troop.targetX := Troop.targetX tr;
     Troop.isEnemy := Troop.isEnemy tr;
     Troop.lastAttackTime := Troop.lastAttackTime tr;
     Troop.sprite :=
       {| x := v; y := y (Troop.sprite tr); active := active (Troop.sprite tr) |} |}.

(** [moveInDirection(direction, delta)]. *)
Definition moveInDirection (direction delta : Q) (u : t) : t :=
  set_troop
    (set_x (x (Troop.sprite (troop u))
            + direction * (Troop.speed (troop u) * delta / 1000))%Q
       (troop u)) u.

(** [checkCurrentTarget()]. *)
Definition checkCurrentTarget (u : t) (allTroops : list (nat * t))
    (targetBase : option Base.t) (hero : option Hero.t) : t :=
  match currentTarget u with
  | None => clearTarget u
  | Some r =>
      match resolve r allTroops targetBase hero with
      | None => clearTarget u
      | Some tg =>
          if negb (active (Target.sprite tg)) then clearTarget u
          else
            let byRange :=
              if Troop.isTargetInAttackRange (troop u) (Some (Target.sprite tg))
              then u else clearTarget u in
            let byDistance :=
              if JS.gt (Qabs (x (Troop.sprite (troop u)) - x (Target.sprite tg)))
                   (Troop.attackRange (troop u))
              then clearTarget u else u in
            match tg with
            | ofHero _ => byRange
            | ofTroop tr =>
                if JS.truthyS (Troop.category tr) then byRange else byDistance
            | ofBase _ => byDistance
            end
      end
  end.

(** What one call of [move] leaves: the troop itself, the target
    [attack] was called on, as the call left it, the projectile made and
    the scene calls. *)
Record Outcome := {
  self : t;
  target : option (Ref * Target);
  shot : option SubProjectile.t;
  calls : list SceneCall
}.

Definition still (u : t) : Outcome :=
  {| self := u; target := None; shot := None; calls := [] |}.

(** [attack(target, delta)] at scene time [now]: [Combat.attack], and
    the two fields it resets for a target that is gone. *)
Definition attack (now : Q) (u : t) (r : Ref) (tg : option Target) : Outcome :=
  match tg with
  | None => still (clearTarget u)
  | Some tg =>
      let '(tr', tg', projectile, log) := Combat.attack now (troop u) tg in
      let u' :=
        if Z.leb (Target.health tg) 0 || negb (active (Target.sprite tg))
        then clearTarget u else set_troop tr' u in
      {| self := u'; target := Some (r, tg'); shot := projectile; calls := log |}
  end.

(** The test [move] and [checkAndAttackFromQueue] make before they look
    at the hero. *)
Definition heroInReach (u : t) (hero : option Hero.t) : bool :=
  match hero with
  | Some h =>
      Troop.isEnemy (troop u) && Hero.isAlive h && active (Hero.sprite h)
      && Troop.isTargetInAttackRange (troop u) (Some (Hero.sprite h))
  | None => false
  end.

(** [checkAndAttackFromQueue(allTroops, targetBase, hero)]. *)
Definition checkAndAttackFromQueue (now : Q) (self : nat) (u : t)
    (allTroops : list (nat * t)) (targetBase : option Base.t)
    (hero : option Hero.t) : Outcome :=
  if heroInReach u hero then
    attack now (aimAt theHero u) theHero (resolve theHero allTroops targetBase hero)
  else
    match findTargetInAttackRange self u allTroops targetBase with
    | Some r => attack now (aimAt r u) r (resolve r allTroops targetBase hero)
    | None => if isAttacking u then still (clearTarget u) else still u
    end.

(** [move(delta, allTroops, targetBase, hero)] at scene time [now]. *)
Definition move (delta now : Q) (self : nat) (u : t)
    (allTroops : list (nat * t)) (targetBase : option Base.t)
    (hero : option Hero.t) : Outcome :=
  if negb (active (Troop.sprite (troop u))) then still u
  else
    let u := checkCurrentTarget u allTroops targetBase hero in
    match isAttacking u, currentTarget u with
    | true, Some r => attack now u r (resolve r allTroops targetBase hero)
    | _, _ =>
        if match currentTarget u with None => heroInReach u hero | Some _ => false end
        then
          attack now (aimAt theHero (set_isStopped true u)) theHero
            (resolve theHero allTroops targetBase hero)
        else
          let direction : Q :=
            if JS.gt (Troop.targetX (troop u)) (x (Troop.sprite (troop u)))
            then 1%Q else (-1)%Q in
          let u := set_isStopped false u in
          match findNearestTarget self u allTroops targetBase with
          | Some r =>
              attack now (aimAt r (set_isStopped true u)) r
                (resolve r allTroops targetBase hero)
          | None =>
              let u :=
                set_isStopped
                  (checkSameCategoryAlliesAhead self u allTroops direction) u in
              if isStopped u
              then checkAndAttackFromQueue now self u allTroops targetBase hero
              else still (moveInDirection direction delta u)
          end
    end.

End TroopMove.

(** ** The scene's troops, gold and upgrades *)

(** The part of [GameScene] that spawns troops and applies the upgrades
    bought with gold, with the game manager it talks to.  The hero comes
    with the fields of its platform ability. *)
Module Field.

Record t := mk {
  manager : Ledger.t;
  gameActive : bool;
  playerBase : option Base.t;
  enemyBase : option Base.t;
  hero : option (Hero.t * Summoner.t);
  troops : list (nat * TroopMove.t);
  nextTroop : nat
}.

Definition set_manager (l : Ledger.t) (f : t) : t :=
  {| manager := l; gameActive := gameActive f; playerBase := playerBase f;
     enemyBase := enemyBase f; hero := hero f; troops := troops f;
     nextTroop := nextTroop f |}.

(** The fields a [new Troop] starts with. *)
Definition newTroop (px py : Q) (category : string) (tx : Q) (enemy : bool)
    (customConfig : TroopConfig.Partial) : TroopMove.t :=
  {| TroopMove.troop := Troop.new px py category tx enemy customConfig;
     TroopMove.currentTarget := None;
     TroopMove.isAttacking := false;
     TroopMove.isStopped := false |}.

Definition push (u : TroopMove.t) (f : t) : t :=
  {| manager := manager f; gameActive := gameActive f;
     playerBase := playerBase f; enemyBase := enemyBase f; hero := hero f;
     troops := troops f ++ [(nextTroop f, u)];
     nextTroop := S (nextTroop f) |}.

(** [spawnAllyTroop(category, customConfig)]. *)
Definition spawnAllyTroop (category : string) (customConfig : TroopConfig.Partial)
    (f : t) : t :=
  match playerBase f, enemyBase f with
  | Some pb, Some eb =>
      push (newTroop (x (Base.sprite pb)) (y (Base.sprite pb)) category
              (x (Base.sprite eb)) false customConfig) f
  | _, _ => f
  end.

(** [spawnEnemyTroop(category, customConfig)]. *)
Definition spawnEnemyTroop (category : string) (customConfig : TroopConfig.Partial)
    (f : t) : t :=
  match playerBase f, enemyBase f with
  | Some pb, Some eb =>
      push (newTroop (x (Base.sprite eb)) (y (Base.sprite eb)) category
              (x (Base.sprite pb)) true customConfig) f
  | _, _ => f
  end.

(** [spawnAllyTroopWithGold(category, type)].  The custom configuration
    of a longbowman is [{ type: 'Longbowman' }], an entry that no code
    reads.  For a cost that is not a number the comparison
    [gold >= cost] of [spendGold] is false, and the order is refused. *)
Definition spawnAllyTroopWithGold (category : string) (type : option string)
    (f : t) : t :=
  if match type with Some ty => String.eqb ty "Longbowman" | None => false end
  then
    if negb (Ledger.isFeatureUnlocked "longbowTraining" (manager f)) then f
    else
      let cost := 75 in
      let (ok, g) := GameManager.spendGold cost (Ledger.manager (manager f)) in
      if ok
      then spawnAllyTroop category TroopConfig.empty
             (set_manager (Ledger.set_manager g (manager f)) f)
      else f
  else
    match GameManager.getUnitCost category with
    | Some cost =>
        let (ok, g) := GameManager.spendGold cost (Ledger.manager (manager f)) in
        if ok
        then spawnAllyTroop category TroopConfig.empty
               (set_manager (Ledger.set_manager g (manager f)) f)
        else f
    | None => f
    end.

(** [generatePassiveIncome()]. *)
Definition generatePassiveIncome (f : t) : t :=
  if negb (gameActive f) then f
  else
    let baseAmount := 20 in
    set_manager
      (Ledger.set_manager
         (GameManager.addGold baseAmount "passive" (Ledger.manager (manager f)))
         (manager f)) f.

(** [applyUpgradeEffect(upgradeId)]. *)
Definition applyUpgradeEffect (upgradeId : string) (f : t) : t :=
  match Ledger.baseUpgradeCost upgradeId with
  | None => f
  | Some _ =>
      if String.eqb upgradeId "reinforcedWalls" then
        match playerBase f with
        | Some pb =>
            if Z.eqb (Base.health pb) 0 then f
            else
              let healthBonus :=
                JS.Math_floor (inject_Z (Base.maxHealth pb) * (25 # 100)) in
              {| manager := manager f; gameActive := gameActive f;
                 playerBase :=
                   Some {| Base.isPlayerBase := Base.isPlayerBase pb;
                           Base.health := Base.health pb + healthBonus;
                           Base.maxHealth := Base.maxHealth pb + healthBonus;
                           Base.sprite := Base.sprite pb |};
                 enemyBase := enemyBase f; hero := hero f; troops := troops f;
                 nextTroop := nextTroop f |}
        | None => f
        end
      else if String.eqb upgradeId "extendedPlatforms"
              || String.eqb upgradeId "quickSummoning"
              || String.eqb upgradeId "widePlatforms" then
        match hero f with
        | Some (h, ability) =>
            {| manager := manager f; gameActive := gameActive f;
               playerBase := playerBase f; enemyBase := enemyBase f;
               hero := Some (h, Summoner.applyPlatformUpgrade upgradeId ability);
               troops := troops f; nextTroop := nextTroop f |}
        | None => f
        end
      else f
  end.

(** [purchaseBaseUpgrade(upgradeId)]. *)
Definition purchaseBaseUpgrade (upgradeId : string) (f : t) : t :=
  let (ok, l) := Ledger.purchaseUpgrade upgradeId (manager f) in
  if ok then applyUpgradeEffect upgradeId (set_manager l f) else f.

(** What the player does on the field. *)
Inductive Call :=
| SpawnAlly (category : string) (type : option string)
| SpawnEnemy (category : string)
| PassiveIncome
| PurchaseBaseUpgrade (upgradeId : string).

Definition step (c : Call) (f : t) : t :=
  match c with
  | SpawnAlly category type => spawnAllyTroopWithGold category type f
  | SpawnEnemy category => spawnEnemyTroop category TroopConfig.empty f
  | PassiveIncome => generatePassiveIncome f
  | PurchaseBaseUpgrade upgradeId => purchaseBaseUpgrade upgradeId f
  end.

Definition run (calls : list Call) (f : t) : t :=
  List.fold_left (fun acc c => step c acc) calls f.

(** The field as [create()] sets it up for the manager [l]. *)
Definition create (l : Ledger.t) : t :=
  {| manager := l; gameActive := true;
     playerBase := Some (fst (createBases l));
     enemyBase := Some (snd (createBases l));
     hero := Some (Hero.new 200 400, Summoner.new);
     troops := []; nextTroop := 0 |}.

End Field.

(** ** The troops' turn in a frame *)

(** [GameScene.updateTroops] and what else changes the troops of a scene.
    The objects [Troop.move] has changed are put back by number; a troop
    is never its own target in a scene built by the scene's own calls. *)
Module Battle.

Definition set_troops (l : list (nat * TroopMove.t)) (f : Field.t) : Field.t :=
  {| Field.manager := Field.manager f; Field.gameActive := Field.gameActive f;
     Field.playerBase := Field.playerBase f; Field.enemyBase := Field.enemyBase f;
     Field.hero := Field.hero f; Field.troops := l;
     Field.nextTroop := Field.nextTroop f |}.

Definition set_playerBase (b : option Base.t) (f : Field.t) : Field.t :=
  {| Field.manager := Field.manager f; Field.gameActive := Field.gameActive f;
     Field.playerBase := b; Field.enemyBase := Field.enemyBase f;
     Field.hero := Field.hero f; Field.troops := Field.troops f;
     Field.nextTroop := Field.nextTroop f |}.

Definition set_enemyBase (b : option Base.t) (f : Field.t) : Field.t :=
  {| Field.manager := Field.manager f; Field.gameActive := Field.gameActive f;
     Field.playerBase := Field.playerBase f; Field.enemyBase := b;
     Field.hero := Field.hero f; Field.troops := Field.troops f;
     Field.nextTroop := Field.nextTroop f |}.

Definition set_hero (h : option (Hero.t * Summoner.t)) (f : Field.t) : Field.t :=
  {| Field.manager := Field.manager f; Field.gameActive := Field.gameActive f;
     Field.playerBase := Field.playerBase f; Field.enemyBase := Field.enemyBase f;
     Field.hero := h; Field.troops := Field.troops f;
     Field.nextTroop := Field.nextTroop f |}.

(** The troop numbered [id] becomes [g] of itself. *)
Definition replaceTroop (id : nat) (g : TroopMove.t -> TroopMove.t)
    (l : list (nat * TroopMove.t)) : list (nat * TroopMove.t) :=
  List.map (fun it => if Nat.eqb (fst it) id then (fst it, g (snd it)) else it) l.

(** [splice(i, 1)]. *)
Definition removeAt (i : nat) (l : list (nat * TroopMove.t))
    : list (nat * TroopMove.t) :=
  List.firstn i l ++ List.skipn (S i) l.

(** A call into the scene, on the field: [Game.handle] on its manager
    and its [gameActive].  The balances of a field are numbers: when the
    handler has made one of them something else, the field keeps the
    last numbers, and what is said of its balances from then on is said
    of those. *)
Definition handle (c : SceneCall) (f : Field.t) : Field.t :=
  match
    Game.handle c
      (GameScene.set_gameActive (Field.gameActive f) GameScene.initial,
       Ledger.manager (Field.manager f))
  with
  | Some (scene, gm) =>
      {| Field.manager := Ledger.set_manager gm (Field.manager f);
         Field.gameActive := GameScene.gameActive scene;
         Field.playerBase := Field.playerBase f;
         Field.enemyBase := Field.enemyBase f;
         Field.hero := Field.hero f; Field.troops := Field.troops f;
         Field.nextTroop := Field.nextTroop f |}
  | None => f
  end.

(** What a call of [move] by troop [me] has changed, as the scene sees it
    afterwards: the troop, its target, and what the scene's handlers did. *)
Definition settle (me : nat) (enemy : bool) (o : TroopMove.Outcome)
    (f : Field.t) : Field.t :=
  let f1 :=
    set_troops (replaceTroop me (fun _ => TroopMove.self o) (Field.troops f)) f in
  let f2 :=
    match TroopMove.target o with
    | Some (TroopMove.aTroop id, ofTroop tr) =>
        set_troops (replaceTroop id (TroopMove.set_troop tr) (Field.troops f1)) f1
    | Some (TroopMove.theBase, ofBase b) =>
        if enemy then set_playerBase (Some b) f1 else set_enemyBase (Some b) f1
    | Some (TroopMove.theHero, ofHero h) =>
        set_hero
          (match Field.hero f1 with
           | Some (_, ability) => Some (h, ability)
           | None => None
           end) f1
    | _ => f1
    end in
  List.fold_left (fun acc c => handle c acc) (TroopMove.calls o) f2.

(** The loop of [updateTroops], from index [i - 1] down to 0, with the
    projectiles shot so far. *)
Fixpoint loop (i : nat) (delta now : Q) (st : Field.t * list SubProjectile.t)
    : Field.t * list SubProjectile.t :=
  match i with
  | O => st
  | S j =>
      match List.nth_error (Field.troops (fst st)) j with
      | None => loop j delta now st
      | Some (id, u) =>
          if negb (active (Troop.sprite (TroopMove.troop u)))
          then
            loop j delta now
              (set_troops (removeAt j (Field.troops (fst st))) (fst st), snd st)
          else
            let enemy := Troop.isEnemy (TroopMove.troop u) in
            let targetBase :=
              if enemy then Field.playerBase (fst st)
              else Field.enemyBase (fst st) in
            let o :=
              TroopMove.move delta now id u (Field.troops (fst st)) targetBase
                (option_map fst (Field.hero (fst st))) in
            loop j delta now
              (settle id enemy o (fst st),
               snd st ++ match TroopMove.shot o with
                         | Some p => [p]
                         | None => []
                         end)
      end
  end.

(** [updateTroops(delta)] at scene time [now]. *)
Definition updateTroops (delta now : Q) (f : Field.t)
    : Field.t * list SubProjectile.t :=
  match Field.playerBase f, Field.enemyBase f with
  | Some _, Some _ => loop (List.length (Field.troops f)) delta now (f, [])
  | _, _ => (f, [])
  end.

(** What happens on the field: an order of the player, the troops' turn
    in a frame of [update] (skipped once the game is not active), a hit
    on a troop by an arrow or a projectile, a hit on a base, and what the
    physics and the hero's own code make of a troop's sprite and of the
    hero. *)
Inductive Event :=
| Order (c : Field.Call)
| Frame (delta now : Q)
| TroopHit (id : nat) (damage : Q)
| BaseHit (player : bool) (damage : Q)
| TroopAt (id : nat) (px py : Q)
| HeroIs (h : Hero.t).

Definition placeAt (px py : Q) (u : TroopMove.t) : TroopMove.t :=
  let tr := TroopMove.troop u in
  TroopMove.set_troop
    {| Troop.category := Troop.category tr; Troop.unitType := Troop.unitType tr;
       Troop.health := Troop.health tr; Troop.speed := Troop.speed tr;
       Troop.attackRange := Troop.attackRange tr;
       Troop.attackSpeed := Troop.attackSpeed tr;
       Troop.attackDamage := Troop.attackDamage tr;
       Troop.troopWidth := Troop.troopWidth tr;
       Troop.troopHeight := Troop.troopHeight tr;
       Troop.config := Troop.config tr; Troop.targetX := Troop.targetX tr;
       Troop.isEnemy := Troop.isEnemy tr;
       Troop.lastAttackTime := Troop.lastAttackTime tr;
       Troop.sprite := {| x := px; y := py; active := active (Troop.sprite tr) |} |}
    u.

Definition step (e : Event) (f : Field.t) : Field.t :=
  match e with
  | Order c => Field.step c f
  | Frame delta now =>
      if Field.gameActive f then fst (updateTroops delta now f) else f
  | TroopHit id damage =>
      match TroopMove.lookup id (Field.troops f) with
      | Some u =>
          let (tr, log) := Troop.takeDamage damage (TroopMove.troop u) in
          List.fold_left (fun acc c => handle c acc) log
            (set_troops
               (replaceTroop id (TroopMove.set_troop tr) (Field.troops f)) f)
      | None => f
      end
  | BaseHit player damage =>
      match (if player then Field.playerBase f else Field.enemyBase f) with
      | Some b =>
          let (b', log) := Base.takeDamage damage b in
          List.fold_left (fun acc c => handle c acc) log
            (if player then set_playerBase (Some b') f
             else set_enemyBase (Some b') f)
      | None => f
      end
  | TroopAt id px py =>
      set_troops (replaceTroop id (placeAt px py) (Field.troops f)) f
  | HeroIs h =>
      set_hero
        (match Field.hero f with
         | Some (_, ability) => Some (h, ability)
         | None => None
         end) f
  end.

Definition run (events : list Event) (f : Field.t) : Field.t :=
  List.fold_left (fun acc e => step e acc) events f.

End Battle.

(** The horizontal distance from a troop to a sprite. *)
Definition distanceTo (this : TroopMove.t) (s : Sprite) : Q :=
  Qabs (x s - x (Troop.sprite (TroopMove.troop this))).

(** An entry of the troop list that is another troop, of the other side. *)
Definition opposing (self : nat) (this : TroopMove.t) (it : nat * TroopMove.t)
    : Prop :=
  fst it <> self /\
  Troop.isEnemy (TroopMove.troop (snd it)) <> Troop.isEnemy (TroopMove.troop this).

(** An entry that is another troop of the same side and category. *)
Definition sameRank (self : nat) (this : TroopMove.t) (it : nat * TroopMove.t)
    : Prop :=
  fst it <> self /\
  Troop.isEnemy (TroopMove.troop (snd it)) = Troop.isEnemy (TroopMove.troop this) /\
  Troop.category (TroopMove.troop (snd it)) = Troop.category (TroopMove.troop this).

(** A target a troop may rightly have: a troop of the other side, the
    base it marches on, or, for an enemy troop, the hero. *)
Definition rightful (self : nat) (this : TroopMove.t)
    (allTroops : list (nat * TroopMove.t)) (r : TroopMove.Ref) : Prop :=
  match r with
  | TroopMove.aTroop id =>
      forall other, In (id, other) allTroops -> opposing self this (id, other)
  | TroopMove.theBase => True
  | TroopMove.theHero => Troop.isEnemy (TroopMove.troop this) = true
  end.

(** What a scan for the nearest entry passing [ok] holds after the
    entries [seen]: nothing, if none of them passes; else one that passes
    and its distance, no passing entry being nearer. *)
Definition scanned (ok : nat * TroopMove.t -> bool) (dist : nat * TroopMove.t -> Q)
    (seen : list (nat * TroopMove.t)) (acc : option TroopMove.Ref * option Q)
    : Prop :=
  match acc with
  | (None, None) => forall it, In it seen -> ok it = false
  | (Some (TroopMove.aTroop id), Some d) =>
      (exists it, In it seen /\ fst it = id /\ ok it = true /\ dist it = d) /\
      (forall it, In it seen -> ok it = true -> (d <= dist it)%Q)
  | _ => False
  end.

(** A target after an attack is the object it was, and a troop keeps
    its side. *)
Definition sameKind (before after : Target) : Prop :=
  match before, after with
  | ofTroop a, ofTroop b => Troop.isEnemy b = Troop.isEnemy a
  | ofBase _, ofBase _ => True
  | ofHero _, ofHero _ => True
  | _, _ => False
  end.

(** Where the target of a troop's frame comes from: it held it before,
    it is the hero in the reach of an enemy troop, or one of the two
    scans found it. *)
Definition targetOrigin (me : nat) (u : TroopMove.t)
    (allTroops : list (nat * TroopMove.t)) (targetBase : option Base.t)
    (hero : option Hero.t) (r : TroopMove.Ref) : Prop :=
  TroopMove.currentTarget u = Some r \/
  (r = TroopMove.theHero /\ TroopMove.heroInReach u hero = true) \/
  TroopMove.findNearestTarget me u allTroops targetBase = Some r \/
  TroopMove.findTargetInAttackRange me u allTroops targetBase = Some r.

(** What a troop's frame leaves: the troop on its side, a held target
    of known origin, and a target attacked that is of known origin and the
    object the scene has under that reference. *)
Definition knownOutcome (me : nat) (u : TroopMove.t)
    (allTroops : list (nat * TroopMove.t)) (targetBase : option Base.t)
    (hero : option Hero.t) (o : TroopMove.Outcome) : Prop :=
  Troop.isEnemy (TroopMove.troop (TroopMove.self o))
  = Troop.isEnemy (TroopMove.troop u) /\
  (forall r, TroopMove.currentTarget (TroopMove.self o) = Some r ->
     targetOrigin me u allTroops targetBase hero r) /\
  (forall r tg', TroopMove.target o = Some (r, tg') ->
     targetOrigin me u allTroops targetBase hero r /\
     exists tg, TroopMove.resolve r allTroops targetBase hero = Some tg /\
       sameKind tg tg').

(** What holds of the troops of every field the scene gets into: they
    are distinct, numbered below the next number [n], and each one's
    target, if it has one, is rightful and no number of the future. *)
Definition troopsInv (l : list (nat * TroopMove.t)) (n : nat) : Prop :=
  NoDup (List.map fst l) /\
  forall id u, In (id, u) l ->
    (id < n)%nat /\
    forall r, TroopMove.currentTarget u = Some r ->
      rightful id u l r /\
      match r with
      | TroopMove.aTroop id' => (id' < n)%nat
      | _ => True
      end.

Definition fieldInv (f : Field.t) : Prop :=
  troopsInv (Field.troops f) (Field.nextTroop f).

(** The field [f'] is no worse for the player's books than [f]: no
    gold, XP, upgrade or feature is lost, no troop has appeared, and a
    game that is over has stayed over. *)
Definition noLoss (f f' : Field.t) : Prop :=
  GameManager.gold (Ledger.manager (Field.manager f))
  <= GameManager.gold (Ledger.manager (Field.manager f')) /\
  GameManager.xp (Ledger.manager (Field.manager f))
  <= GameManager.xp (Ledger.manager (Field.manager f')) /\
  GameManager.currentRound (Ledger.manager (Field.manager f'))
  = GameManager.currentRound (Ledger.manager (Field.manager f)) /\
  GameManager.difficulty (Ledger.manager (Field.manager f'))
  = GameManager.difficulty (Ledger.manager (Field.manager f)) /\
  Ledger.purchasedUpgrades (Field.manager f')
  = Ledger.purchasedUpgrades (Field.manager f) /\
  Ledger.roundUpgrades (Field.manager f') = Ledger.roundUpgrades (Field.manager f) /\
  Ledger.enemyUpgrades (Field.manager f') = Ledger.enemyUpgrades (Field.manager f) /\
  Ledger.unlockedFeatures (Field.manager f')
  = Ledger.unlockedFeatures (Field.manager f) /\
  Field.nextTroop f' = Field.nextTroop f /\
  (List.length (Field.troops f') <= List.length (Field.troops f))%nat /\
  (Field.gameActive f' = true -> Field.gameActive f = true).

(** The categories with a cost and an XP reward of their own.  They are
    the categories of the enemy troops the scene spawns. *)
Definition rewarded (category : string) : Prop :=
  category = "Light"%string \/ category = "Ranged"%string \/
  category = "Heavy"%string.

(** The troop behind a target has kept its category and its side. *)
Definition sameTroop (before after : Target) : Prop :=
  match before, after with
  | ofTroop a, ofTroop b =>
      Troop.category b = Troop.category a /\ Troop.isEnemy b = Troop.isEnemy a
  | ofBase _, ofBase _ => True
  | ofHero _, ofHero _ => True
  | _, _ => False
  end.

(** A call made when [tg] is damaged: a kill is rewarded for [tg] only,
    and only if it is an enemy troop. *)
Definition callFor (tg : Target) (c : SceneCall) : Prop :=
  match c with
  | awardGoldForKill category =>
      exists tr, tg = ofTroop tr /\ Troop.isEnemy tr = true /\
        Troop.category tr = category
  | _ => True
  end.

(** A call into the scene whose handler leaves the balances numbers. *)
Definition paid (c : SceneCall) : Prop :=
  match c with
  | awardGoldForKill category => rewarded category
  | _ => True
  end.

(** Every enemy troop of the list is of a rewarded category. *)
Definition enemiesRewarded (l : list (nat * TroopMove.t)) : Prop :=
  forall id u, In (id, u) l ->
    Troop.isEnemy (TroopMove.troop u) = true ->
    rewarded (Troop.category (TroopMove.troop u)).

(** An event as the program's callers make it: enemy troops are spawned
    in the rewarded categories only. *)
Definition spawnsRewarded (e : Battle.Event) : Prop :=
  match e with
  | Battle.Order (Field.SpawnEnemy category) => rewarded category
  | _ => True
  end.

(** What every reachable state of the ability satisfies. *)
Definition abilityInv (s : Summoner.t) : Prop :=
  (0 < Summoner.platformCooldown s)%Q /\ onePlatform s.

(** ** Theorems *)

Section Economy.
Import GameManager.

Lemma resourceMultiplier_nonneg (g : t) :
  (0 <= resourceMultiplier (getDifficultyParameters g))%Q.
Proof.
  unfold getDifficultyParameters.
  destruct (difficulty g) as [d|]; [|discriminate].
  destruct (String.eqb d "hard"); [discriminate|].
  destruct (String.eqb d "insane"); discriminate.
Qed.

Lemma addGold_keeps_nonneg (amount : Z) (source : string) (g : t) :
  0 <= amount -> 0 <= gold g -> 0 <= gold (addGold amount source g).
Proof.
  intros Ha Hg. unfold addGold. cbn [gold set_gold].
  destruct (String.eqb source "passive"); [|lia].
  assert (0 <= JS.Math_floor (inject_Z amount * resourceMultiplier (getDifficultyParameters g))%Q).
  { unfold JS.Math_floor. change 0 with (Qfloor 0).
    apply Qfloor_resp_le. apply Qmult_le_0_compat.
    - change 0%Q with (inject_Z 0). now rewrite <- Zle_Qle.
    - apply resourceMultiplier_nonneg. }
  lia.
Qed.

Lemma spendGold_keeps_nonneg (amount : Z) (g : t) :
  0 <= gold g -> 0 <= gold (snd (spendGold amount g)).
Proof.
  intros Hg. unfold spendGold.
  destruct (Z.geb_spec (gold g) amount); cbn; lia.
Qed.

Lemma step_keeps_nonneg (c : Call) (g : t) :
  addsNonNegative c -> 0 <= gold g -> 0 <= gold (step c g).
Proof.
  destruct c as [amount source | amount]; cbn [step addsNonNegative].
  - apply addGold_keeps_nonneg.
  - intros _. apply spendGold_keeps_nonneg.
Qed.

Lemma run_keeps_nonneg (calls : list Call) :
  Forall addsNonNegative calls ->
  forall g, 0 <= gold g -> 0 <= gold (run calls g).
Proof.
  induction 1 as [|c calls Hc _ IH]; intros g Hg; cbn; [exact Hg|].
  apply IH. now apply step_keeps_nonneg.
Qed.

(** C4. [spendGold] is atomic: with [gold < amount] it answers [false]
    and changes nothing; with [gold >= amount] it answers [true] and
    takes exactly [amount] off the balance, touching nothing else; and
    from a non-negative balance, after every prefix of every sequence of
    spend and add calls (the amounts added being non-negative), the
    balance is non-negative. *)
Theorem spendGold_atomic_and_gold_never_negative (g : t) (amount : Z) :
  (gold g < amount -> spendGold amount g = (false, g)) /\
  (amount <= gold g ->
     spendGold amount g = (true, set_gold (gold g - amount) g) /\
     gold (snd (spendGold amount g)) = gold g - amount) /\
  (0 <= gold g ->
     forall calls, Forall addsNonNegative calls ->
     forall done rest, calls = done ++ rest -> 0 <= gold (run done g)).
Proof.
  split; [|split].
  - intros Hlt. unfold spendGold.
    destruct (Z.geb_spec (gold g) amount); [lia | reflexivity].
  - intros Hge. unfold spendGold.
    destruct (Z.geb_spec (gold g) amount); [|lia]. now split.
  - intros Hg calls Hall done rest ->.
    apply Forall_app in Hall as [Hdone _].
    now apply run_keeps_nonneg.
Qed.

Lemma spendGold_atomic_and_gold_never_negative_witness :
  spendGold 200 initial = (false, initial) /\
  gold (snd (spendGold 20 initial)) = 80 /\
  0 <= gold (run [Spend 20; Add 20 "passive"; Spend 500; Add 10 "enemy kill"]
                 (setDifficulty "hard" initial)).
Proof.
  split; [|split].
  - apply (proj1 (spendGold_atomic_and_gold_never_negative initial 200)).
    vm_compute. reflexivity.
  - apply (proj1 (proj2 (spendGold_atomic_and_gold_never_negative initial 20))).
    vm_compute. discriminate.
  - apply (proj2 (proj2 (spendGold_atomic_and_gold_never_negative
                           (setDifficulty "hard" initial) 0))
             ltac:(vm_compute; discriminate)
             [Spend 20; Add 20 "passive"; Spend 500; Add 10 "enemy kill"]
             ltac:(repeat constructor; cbn; lia)
             _ [] (eq_sym (app_nil_r _))).
Defined.

End Economy.

(** *** Comparisons and rounding *)

Lemma JS_le_iff (a b : Q) : JS.le a b = true <-> (a <= b)%Q.
Proof. unfold JS.le. apply Qle_bool_iff. Qed.

Lemma JS_lt_iff (a b : Q) : JS.lt a b = true <-> (a < b)%Q.
Proof.
  unfold JS.lt. rewrite negb_true_iff, <- not_true_iff_false, Qle_bool_iff.
  split; [apply Qnot_le_lt | apply Qlt_not_le].
Qed.

Lemma JS_lt_false_iff (a b : Q) : JS.lt a b = false <-> (b <= a)%Q.
Proof. unfold JS.lt. rewrite negb_false_iff. apply Qle_bool_iff. Qed.

Lemma JS_le_false_iff (a b : Q) : JS.le a b = false <-> (b < a)%Q.
Proof.
  unfold JS.le. rewrite <- not_true_iff_false, Qle_bool_iff.
  split; [apply Qnot_le_lt | apply Qlt_not_le].
Qed.

Lemma JS_ge_iff (a b : Q) : JS.ge a b = true <-> (b <= a)%Q.
Proof. unfold JS.ge. apply JS_le_iff. Qed.

Lemma JS_gt_iff (a b : Q) : JS.gt a b = true <-> (b < a)%Q.
Proof. unfold JS.gt. apply JS_lt_iff. Qed.


Lemma falsy_false (v : Q) : ~ (v == 0)%Q -> JS.falsy v = false.
Proof.
  intros H. unfold JS.falsy. apply not_true_iff_false.
  now rewrite Qeq_bool_iff.
Qed.

Lemma orQ_some (v d : Q) : ~ (v == 0)%Q -> JS.orQ (Some v) d = v.
Proof. intros H. cbn. now rewrite falsy_false. Qed.

Lemma Math_round_Z (z : Z) : JS.Math_round (inject_Z z) = z.
Proof.
  unfold JS.Math_round, Qfloor, inject_Z, Qplus. cbn.
  assert (H := Z.div_mod (z * 2 + 1) 2 ltac:(lia)).
  assert (H2 := Z.mod_pos_bound (z * 2 + 1) 2 ltac:(lia)).
  lia.
Qed.

(** With [H : 0 < amount], settles the guard [amount <= 0] of the
    [takeDamage] methods. *)
Ltac valid_amount H :=
  replace (JS.le _ 0) with false
    by (symmetry; apply JS_le_false_iff; exact H).

Lemma Math_round_ext (a b : Q) : (a == b)%Q -> JS.Math_round a = JS.Math_round b.
Proof. intros H. unfold JS.Math_round. now rewrite H. Qed.

(** *** Rounding to doubles *)

Lemma nearestEven_comp (a b : Q) :
  (a == b)%Q -> JS.nearestEven a = JS.nearestEven b.
Proof.
  intros H. unfold JS.nearestEven. cbv zeta.
  rewrite (Qfloor_comp _ _ H).
  replace (a - inject_Z (Qfloor b) ?= 1 # 2)%Q
    with (b - inject_Z (Qfloor b) ?= 1 # 2)%Q; [reflexivity|].
  apply Qcompare_comp; [|reflexivity].
  unfold Qminus. apply Qplus_comp; [now symmetry | reflexivity].
Qed.

Lemma nearestEven_Z (z : Z) : JS.nearestEven (inject_Z z) = z.
Proof.
  unfold JS.nearestEven. rewrite Qfloor_Z.
  replace (inject_Z z - inject_Z z ?= 1 # 2)%Q with Lt; [reflexivity|].
  symmetry. apply Qlt_alt.
  apply (Qplus_lt_l _ _ (inject_Z z)). ring_simplify.
  rewrite <- (Qplus_0_r (inject_Z z)) at 1. apply Qplus_lt_r. reflexivity.
Qed.

Lemma nearestEven_bounds (v : Q) (m : Z) :
  (inject_Z (- m) <= v)%Q -> (v <= inject_Z m)%Q ->
  - m <= JS.nearestEven v <= m.
Proof.
  intros Hlo Hhi.
  assert (Hf1 : (inject_Z (Qfloor v) <= v)%Q) by apply Qfloor_le.
  assert (Hlo' : - m <= Qfloor v).
  { rewrite <- (Qfloor_Z (- m)). now apply Qfloor_resp_le. }
  assert (Hhi' : Qfloor v <= m).
  { rewrite Zle_Qle. lra. }
  assert (Hup : (1 # 2 <= v - inject_Z (Qfloor v))%Q -> Qfloor v + 1 <= m).
  { intros H. assert (Hlt : (inject_Z (Qfloor v) < inject_Z m)%Q) by lra.
    rewrite <- Zlt_Qlt in Hlt. lia. }
  unfold JS.nearestEven.
  destruct (v - inject_Z (Qfloor v) ?= 1 # 2)%Q eqn:E.
  - apply Qeq_alt in E. destruct (Z.even _); [lia|].
    assert (Qfloor v + 1 <= m) by (apply Hup; lra). lia.
  - lia.
  - apply Qgt_alt in E. assert (Qfloor v + 1 <= m) by (apply Hup; lra). lia.
Qed.

Lemma spacing_pos (n : Q) : 0 < JS.spacing n.
Proof. unfold JS.spacing. apply Z.pow_pos_nonneg; lia. Qed.

Lemma spacing_comp (a b : Q) : (a == b)%Q -> JS.spacing a = JS.spacing b.
Proof.
  intros H. unfold JS.spacing.
  now rewrite (Qfloor_comp _ _ (Qabs_wd _ _ H)).
Qed.

Lemma units_comp (a b : Q) : (a == b)%Q -> JS.units a = JS.units b.
Proof.
  intros H. unfold JS.units.
  assert (H' : (a * inject_Z JS.tiny == b * inject_Z JS.tiny)%Q)
    by (apply Qmult_comp; [exact H | reflexivity]).
  rewrite (spacing_comp _ _ H').
  f_equal. apply nearestEven_comp.
  apply Qmult_comp; [exact H' | reflexivity].
Qed.

(** Equal rationals have the same double, in one and the same form. *)
Lemma double_comp (a b : Q) : (a == b)%Q -> JS.double a = JS.double b.
Proof. intros H. unfold JS.double. now rewrite (units_comp _ _ H). Qed.

(** The significand of a double fits 53 bits. *)
Lemma significand_bounds (n : Q) :
  - 2 ^ 53 <= JS.nearestEven (n / inject_Z (JS.spacing n)) <= 2 ^ 53.
Proof.
  pose proof (spacing_pos n) as Hu.
  assert (HuQ : (0 < inject_Z (JS.spacing n))%Q).
  { change 0%Q with (inject_Z 0). now rewrite <- Zlt_Qlt. }
  assert (Habs : (Qabs n <= inject_Z (2 ^ 53 * JS.spacing n))%Q).
  { assert (HF : 0 <= Qfloor (Qabs n)).
    { rewrite <- (Qfloor_Z 0). apply Qfloor_resp_le. apply Qabs_nonneg. }
    assert (Hlt : (Qabs n < inject_Z (Qfloor (Qabs n) + 1))%Q) by apply Qlt_floor.
    apply Qlt_le_weak. eapply Qlt_le_trans; [exact Hlt|].
    rewrite <- Zle_Qle. unfold JS.spacing.
    rewrite <- Z.pow_add_r by lia.
    destruct (Z.eq_dec (Qfloor (Qabs n)) 0) as [E | E].
    - rewrite E. cbn [Z.log2 Z.sub Z.opp Z.add].
      change (Z.max 0 (- 52)) with 0.
      change (0 + 1) with 1. apply (Z.pow_le_mono_r 2 0 (53 + 0)); lia.
    - pose proof (Z.log2_spec (Qfloor (Qabs n)) ltac:(lia)) as [_ Hs].
      pose proof (Z.log2_nonneg (Qfloor (Qabs n))).
      assert (2 ^ Z.succ (Z.log2 (Qfloor (Qabs n)))
              <= 2 ^ (53 + Z.max 0 (Z.log2 (Qfloor (Qabs n)) - 52)))
        by (apply Z.pow_le_mono_r; lia).
      lia. }
  rewrite inject_Z_mult in Habs.
  apply Qabs_Qle_condition in Habs. destruct Habs as [Hlo Hhi].
  apply nearestEven_bounds.
  - apply Qle_shift_div_l; [exact HuQ|].
    rewrite inject_Z_opp. lra.
  - apply Qle_shift_div_r; [exact HuQ|]. exact Hhi.
Qed.

(** A 53-bit significand times a power of two is a multiple of the
    spacing of the doubles around it. *)
Lemma spacing_divides (r k : Z) :
  - 2 ^ 53 <= r <= 2 ^ 53 -> 0 <= k ->
  exists z, r * 2 ^ k = z * JS.spacing (inject_Z (r * 2 ^ k)).
Proof.
  intros Hr Hk. unfold JS.spacing.
  change (Qabs (inject_Z (r * 2 ^ k))) with (inject_Z (Z.abs (r * 2 ^ k))).
  rewrite Qfloor_Z.
  assert (Hp : 0 < 2 ^ k) by (apply Z.pow_pos_nonneg; lia).
  rewrite Z.abs_mul, (Z.abs_eq (2 ^ k)) by lia.
  destruct (Z.eq_dec r 0) as [-> | Hr0].
  { exists 0. reflexivity. }
  destruct (Z.eq_dec (Z.abs r) (2 ^ 53)) as [E | E].
  - rewrite E, <- Z.pow_add_r, Z.log2_pow2 by lia.
    replace (Z.max 0 (53 + k - 52)) with (k + 1) by lia.
    rewrite Z.pow_add_r by lia.
    exists (r / 2).
    assert (r = 2 ^ 53 \/ r = - 2 ^ 53) as [-> | ->] by lia.
    + change (2 ^ 53 / 2) with (2 ^ 52). change (2 ^ 53) with (2 ^ 52 * 2).
      change (2 ^ 1) with 2. ring.
    + change (- 2 ^ 53 / 2) with (- 2 ^ 52). change (2 ^ 53) with (2 ^ 52 * 2).
      change (2 ^ 1) with 2. ring.
  - assert (Hlt : Z.abs r * 2 ^ k < 2 ^ (53 + k)).
    { rewrite Z.pow_add_r by lia. apply Z.mul_lt_mono_pos_r; lia. }
    apply Z.log2_lt_pow2 in Hlt; [|lia].
    set (L := Z.log2 (Z.abs r * 2 ^ k)) in *.
    exists (r * 2 ^ (k - Z.max 0 (L - 52))).
    rewrite <- Z.mul_assoc, <- Z.pow_add_r by lia.
    do 2 f_equal. lia.
Qed.

Lemma units_idem (v : Q) :
  JS.units (inject_Z (JS.units v) / inject_Z JS.tiny) = JS.units v.
Proof.
  set (N := JS.units v).
  assert (HN : exists r k, N = r * 2 ^ k /\ - 2 ^ 53 <= r <= 2 ^ 53 /\ 0 <= k).
  { exists (JS.nearestEven
              ((v * inject_Z JS.tiny)
               / inject_Z (JS.spacing (v * inject_Z JS.tiny)))),
      (Z.max 0 (Z.log2 (Qfloor (Qabs (v * inject_Z JS.tiny))) - 52)).
    split; [reflexivity|]. split; [apply significand_bounds | lia]. }
  destruct HN as (r & k & HN & Hr & Hk).
  unfold JS.units at 1.
  assert (Hn : (inject_Z N / inject_Z JS.tiny * inject_Z JS.tiny == inject_Z N)%Q).
  { field. intros H. assert (Ht : (0 < inject_Z JS.tiny)%Q) by reflexivity. lra. }
  rewrite (spacing_comp _ _ Hn).
  destruct (spacing_divides r k Hr Hk) as (z & Hz). rewrite <- HN in Hz.
  pose proof (spacing_pos (inject_Z N)) as Hu.
  rewrite (nearestEven_comp _ (inject_Z z)); [now rewrite nearestEven_Z|].
  rewrite Hn. rewrite Hz at 1. rewrite inject_Z_mult. field.
  intros H. unfold Qeq in H. cbn in H. lia.
Qed.

(** Rounding a double gives the double back. *)
Lemma double_idem (v : Q) : JS.double (JS.double v) = JS.double v.
Proof.
  unfold JS.double at 1 3. f_equal. f_equal. f_equal.
  unfold JS.double.
  rewrite (units_comp _ (inject_Z (JS.units v) / inject_Z JS.tiny)).
  - apply units_idem.
  - apply Qred_correct.
Qed.

Lemma double_isDouble (v : Q) : JS.isDouble (JS.double v).
Proof. unfold JS.isDouble. now rewrite double_idem. Qed.

Lemma mul_comp (a a' b b' : Q) :
  (a == a')%Q -> (b == b')%Q -> JS.mul a b = JS.mul a' b'.
Proof. intros Ha Hb. apply double_comp. now rewrite Ha, Hb. Qed.

(** Multiplying a double by 1 changes nothing. *)
Lemma mul_1_r (v : Q) : JS.isDouble v -> (JS.mul v 1 == v)%Q.
Proof.
  intros Hv. unfold JS.mul.
  rewrite (double_comp (v * 1) v) by ring. exact Hv.
Qed.

Lemma mul_double_1_r (v : Q) : JS.mul (JS.double v) 1 = JS.double v.
Proof.
  unfold JS.mul.
  rewrite (double_comp (JS.double v * 1) (JS.double v)) by ring.
  apply double_idem.
Qed.

(** Rounding does not pass a power of two: below [2^k] in magnitude, so
    is the double. *)
Lemma double_bound (v : Q) (k : Z) :
  0 <= k -> (Qabs v <= inject_Z (2 ^ k))%Q ->
  (Qabs (JS.double v) <= inject_Z (2 ^ k))%Q.
Proof.
  intros Hk Hv.
  assert (Ht : (0 < inject_Z JS.tiny)%Q) by reflexivity.
  set (n := (v * inject_Z JS.tiny)%Q).
  assert (Hn : (Qabs n <= inject_Z (2 ^ (k + 1074)))%Q).
  { unfold n.
    rewrite Qabs_Qmult, (Qabs_pos (inject_Z JS.tiny)) by now apply Qlt_le_weak.
    rewrite Z.pow_add_r, inject_Z_mult by lia.
    apply Qmult_le_compat_r; [exact Hv | now apply Qlt_le_weak]. }
  pose proof (spacing_pos n) as Hu.
  assert (HF : 0 <= Qfloor (Qabs n)).
  { rewrite <- (Qfloor_Z 0). apply Qfloor_resp_le. apply Qabs_nonneg. }
  assert (HFK : Qfloor (Qabs n) <= 2 ^ (k + 1074)).
  { rewrite <- (Qfloor_Z (2 ^ (k + 1074))). now apply Qfloor_resp_le. }
  assert (HL : Z.log2 (Qfloor (Qabs n)) <= k + 1074).
  { rewrite <- (Z.log2_pow2 (k + 1074)) by lia. now apply Z.log2_le_mono. }
  set (e := Z.max 0 (Z.log2 (Qfloor (Qabs n)) - 52)).
  assert (He : 0 <= e <= k + 1074) by lia.
  assert (Hsp : JS.spacing n = 2 ^ e) by reflexivity.
  assert (Hsplit : 2 ^ (k + 1074) = 2 ^ (k + 1074 - e) * JS.spacing n).
  { rewrite Hsp, <- Z.pow_add_r by lia. f_equal. lia. }
  assert (HuQ : (0 < inject_Z (JS.spacing n))%Q).
  { change 0%Q with (inject_Z 0). now rewrite <- Zlt_Qlt. }
  rewrite Hsplit, inject_Z_mult in Hn.
  apply Qabs_Qle_condition in Hn. destruct Hn as [Hlo Hhi].
  assert (Hr : - 2 ^ (k + 1074 - e)
               <= JS.nearestEven (n / inject_Z (JS.spacing n))
               <= 2 ^ (k + 1074 - e)).
  { apply nearestEven_bounds.
    - apply Qle_shift_div_l; [exact HuQ|]. rewrite inject_Z_opp. lra.
    - apply Qle_shift_div_r; [exact HuQ|]. exact Hhi. }
  unfold JS.double. rewrite Qred_correct.
  change (JS.units v) with (JS.nearestEven (n / inject_Z (JS.spacing n)) * JS.spacing n).
  set (r := JS.nearestEven (n / inject_Z (JS.spacing n))) in *.
  assert (HN : - 2 ^ (k + 1074) <= r * JS.spacing n <= 2 ^ (k + 1074)) by nia.
  apply Qabs_Qle_condition. 
  assert (HT : (inject_Z (2 ^ (k + 1074)) == inject_Z (2 ^ k) * inject_Z JS.tiny)%Q).
  { rewrite <- inject_Z_mult. unfold JS.tiny. now rewrite Z.pow_add_r by lia. }
  destruct HN as [HN1 HN2]. rewrite Zle_Qle in HN1, HN2.
  rewrite inject_Z_opp in HN1. rewrite HT in HN1, HN2.
  split.
  - apply Qle_shift_div_l; [exact Ht|]. lra.
  - apply Qle_shift_div_r; [exact Ht|]. exact HN2.
Qed.

Lemma mul_bound (a b : Q) (i j : Z) :
  0 <= i -> 0 <= j ->
  (Qabs a <= inject_Z (2 ^ i))%Q -> (Qabs b <= inject_Z (2 ^ j))%Q ->
  (Qabs (JS.mul a b) <= inject_Z (2 ^ (i + j)))%Q.
Proof.
  intros Hi Hj Ha Hb. apply double_bound; [lia|].
  rewrite Qabs_Qmult, Z.pow_add_r, inject_Z_mult by lia.
  pose proof (Qabs_nonneg a). pose proof (Qabs_nonneg b).
  assert (Hpos : (0 <= inject_Z (2 ^ i))%Q) by lra.
  apply Qle_trans with (Qabs a * inject_Z (2 ^ j))%Q.
  - rewrite !(Qmult_comm (Qabs a)). apply Qmult_le_compat_r; assumption.
  - apply Qmult_le_compat_r; [assumption | lra].
Qed.

Lemma div_bound (a b : Q) (i : Z) :
  0 <= i -> (1 <= b)%Q -> (Qabs a <= inject_Z (2 ^ i))%Q ->
  (Qabs (JS.div a b) <= inject_Z (2 ^ i))%Q.
Proof.
  intros Hi Hb Ha. apply double_bound; [exact Hi|].
  unfold Qdiv. rewrite Qabs_Qmult.
  assert (Hinv : (0 <= Qabs (/ b))%Q /\ (Qabs (/ b) <= 1)%Q).
  { assert (Hpos : (0 < b)%Q) by lra.
    assert (Hi0 : (0 < / b)%Q) by now apply Qinv_lt_0_compat.
    rewrite Qabs_pos by lra. split; [lra|].
    apply Qle_shift_inv_r; [exact Hpos | lra]. }
  destruct Hinv as [H0 H1]. pose proof (Qabs_nonneg a) as Ha0.
  apply Qle_trans with (Qabs a * 1)%Q; [|lra].
  rewrite !(Qmult_comm (Qabs a)). now apply Qmult_le_compat_r.
Qed.

Lemma Math_round_bound (v : Q) (m : Z) :
  (Qabs v <= inject_Z m)%Q -> Z.abs (Qfloor (v + (1 # 2))) <= m.
Proof.
  intros Hv. apply Qabs_Qle_condition in Hv. destruct Hv as [Hlo Hhi].
  assert (H1 : - m <= Qfloor (v + (1 # 2))).
  { rewrite <- (Qfloor_Z (- m)). apply Qfloor_resp_le.
    rewrite inject_Z_opp. lra. }
  assert (H2 : Qfloor (v + (1 # 2)) <= m).
  { assert (Hf : (inject_Z (Qfloor (v + (1 # 2))) <= v + (1 # 2))%Q)
      by apply Qfloor_le.
    assert (Hlt : (inject_Z (Qfloor (v + (1 # 2))) < inject_Z (m + 1))%Q).
    { rewrite inject_Z_plus. change (inject_Z 1) with 1%Q. lra. }
    rewrite <- Zlt_Qlt in Hlt. lia. }
  lia.
Qed.

Lemma Math_round_in_range (v : Q) (m : Z) :
  (Qabs v <= inject_Z m)%Q -> Z.abs (JS.Math_round v) <= m.
Proof. apply Math_round_bound. Qed.

Lemma orQ_moderate (v d : Q) :
  JS.moderate v -> JS.moderate d -> JS.moderate (JS.orQ (Some v) d).
Proof. intros Hv Hd. cbn. now destruct (JS.falsy v). Qed.

Section HeroShots.
Import Hero.

Lemma shootWithPower_arrow (now : Z) (power : Q) (h : t) (scene : GameScene.t) :
  exists a,
    shootWithPower now power h scene = (GameScene.addArrowToScene a scene, Some a) /\
    GameScene.arrows (GameScene.addArrowToScene a scene) = GameScene.arrows scene ++ [a] /\
    Arrow.hasHit a = false /\
    ArrowSprite.damage (Arrow.sprite a) = Arrow.damage a /\
    Arrow.damage a = Arrow.calculateDamage (Arrow.options a) /\
    Arrow.isMaxPower (Arrow.options a) = JS.ge power 99 /\
    Arrow.powerLevel (Arrow.options a) = JS.orQ (Some power) 100 /\
    Arrow.baseDamage (Arrow.options a) = JS.orQ (Some (baseDamage h)) 10 /\
    Arrow.damageMultiplier (Arrow.options a) = JS.orQ (Some (damageMultiplier h)) 1.
Proof.
  eexists. split; [reflexivity|].
  unfold Arrow.createFromShot, Arrow.new, GameScene.addArrowToScene.
  cbv zeta.
  cbn [Arrow.sprite Arrow.options Arrow.damage Arrow.hasHit ArrowSprite.active
       ArrowSprite.damage Arrow.isMaxPower Arrow.powerLevel Arrow.baseDamage
       Arrow.damageMultiplier ShotOptions.isMaxPower ShotOptions.powerLevel
       ShotOptions.baseDamage ShotOptions.damageMultiplier JS.orB].
  repeat split. now destruct (JS.ge power 99).
Qed.

(** [Arrow.calculateDamage] is the specification's formula whenever the
    arrow is flagged max-power exactly from power level 99 on. *)
Lemma calculateDamage_as_specified (o : Arrow.Options) :
  Arrow.isMaxPower o = ShotSpec.isMaxPowerShot (Arrow.powerLevel o) ->
  Arrow.calculateDamage o
  = ShotSpec.damage (Arrow.baseDamage o) (Arrow.powerLevel o)
      (Arrow.damageMultiplier o).
Proof.
  intros Hmax.
  unfold Arrow.calculateDamage, ShotSpec.damage, ShotSpec.maxPowerBonus.
  cbv zeta. rewrite Hmax.
  change (if JS.lt (Arrow.powerLevel o) 50
          then JS.div (Arrow.powerLevel o) 50 else 1%Q)
    with (ShotSpec.powerScaling (Arrow.powerLevel o)).
  destruct (ShotSpec.isMaxPowerShot (Arrow.powerLevel o)); [reflexivity|].
  unfold JS.mul at 2 5. now rewrite mul_double_1_r.
Qed.

(** Between 50 and 99 the formula is [round(baseDamage * multiplier)]. *)
Lemma ShotSpec_damage_mid (bd power dm : Q) :
  JS.isDouble bd -> (50 <= power)%Q -> (power < 99)%Q ->
  ShotSpec.damage bd power dm = JS.Math_round (JS.mul bd dm).
Proof.
  intros Hbd Hlo Hhi.
  unfold ShotSpec.damage, ShotSpec.maxPowerBonus, ShotSpec.isMaxPowerShot,
    ShotSpec.powerScaling.
  replace (JS.lt power 50) with false
    by (symmetry; now apply JS_lt_false_iff).
  replace (JS.ge power 99) with false
    by (symmetry; unfold JS.ge; now apply JS_le_false_iff).
  unfold JS.mul at 3. rewrite mul_double_1_r.
  f_equal. apply mul_comp; [|reflexivity].
  rewrite (double_comp (bd * 1) bd) by ring. exact Hbd.
Qed.

(** No product of [Arrow.calculateDamage] comes near the largest double
    when its three factors are of moderate size: the rounding of the
    embedding is then the program's at every step. *)
Lemma calculateDamage_in_range (o : Arrow.Options) :
  JS.moderate (Arrow.baseDamage o) -> JS.moderate (Arrow.powerLevel o) ->
  JS.moderate (Arrow.damageMultiplier o) ->
  let powerScaling :=
    if JS.lt (Arrow.powerLevel o) 50
    then JS.div (Arrow.powerLevel o) 50 else 1%Q in
  let scaled := JS.mul (Arrow.baseDamage o) powerScaling in
  let boosted :=
    if Arrow.isMaxPower o then JS.mul scaled (JS.double (14 # 10)) else scaled in
  let damage := JS.mul boosted (Arrow.damageMultiplier o) in
  (Qabs powerScaling <= inject_Z (2 ^ 300))%Q /\
  (Qabs scaled <= inject_Z (2 ^ 600))%Q /\
  (Qabs boosted <= inject_Z (2 ^ 601))%Q /\
  (Qabs damage <= inject_Z (2 ^ 901))%Q /\
  Arrow.calculateDamage o = JS.Math_round damage /\
  Z.abs (Arrow.calculateDamage o) <= 2 ^ 901.
Proof.
  intros Hbd Hpl Hdm. cbv zeta.
  set (powerScaling :=
         if JS.lt (Arrow.powerLevel o) 50
         then JS.div (Arrow.powerLevel o) 50 else 1%Q).
  assert (H1 : (Qabs powerScaling <= inject_Z (2 ^ 300))%Q).
  { unfold powerScaling. destruct (JS.lt _ 50).
    - apply div_bound; [lia | discriminate | exact Hpl].
    - vm_compute. discriminate. }
  set (scaled := JS.mul (Arrow.baseDamage o) powerScaling).
  assert (H2 : (Qabs scaled <= inject_Z (2 ^ 600))%Q).
  { apply (mul_bound _ _ 300 300); [lia | lia | exact Hbd | exact H1]. }
  set (boosted :=
         if Arrow.isMaxPower o
         then JS.mul scaled (JS.double (14 # 10)) else scaled).
  assert (H3 : (Qabs boosted <= inject_Z (2 ^ 601))%Q).
  { unfold boosted. destruct (Arrow.isMaxPower o).
    - apply (mul_bound _ _ 600 1); [lia | lia | exact H2|].
      vm_compute. discriminate.
    - eapply Qle_trans; [exact H2|]. rewrite <- Zle_Qle.
      apply Z.pow_le_mono_r; lia. }
  set (damage := JS.mul boosted (Arrow.damageMultiplier o)).
  assert (H4 : (Qabs damage <= inject_Z (2 ^ 901))%Q).
  { apply (mul_bound _ _ 601 300); [lia | lia | exact H3 | exact Hdm]. }
  repeat split; try assumption.
  change (Arrow.calculateDamage o) with (JS.Math_round damage).
  now apply Math_round_in_range.
Qed.

Lemma shootWithPower_damage (now : Z) (power : Q) (h : t) (scene : GameScene.t) :
  JS.isDouble (baseDamage h) ->
  JS.moderate (baseDamage h) -> JS.moderate (damageMultiplier h) ->
  ~ (power == 0)%Q -> JS.moderate power ->
  exists scene' a,
    shootWithPower now power h scene = (scene', Some a) /\
    shotDamageAsSpecified h power a /\
    Z.abs (Arrow.damage a) <= 2 ^ 901.
Proof.
  intros Hdouble Hbd Hdm Hp Hpower.
  destruct (shootWithPower_arrow now power h scene)
    as (a & Hshot & _ & _ & Hsprite & Hdmg & Hmax & Hpow & Hbase & Hmult).
  assert (Hrange : Z.abs (Arrow.damage a) <= 2 ^ 901).
  { rewrite Hdmg. apply calculateDamage_in_range.
    - rewrite Hbase. apply orQ_moderate; [exact Hbd | vm_compute; discriminate].
    - rewrite Hpow. apply orQ_moderate; [exact Hpower | vm_compute; discriminate].
    - rewrite Hmult. apply orQ_moderate; [exact Hdm | vm_compute; discriminate]. }
  rewrite orQ_some in Hpow by assumption.
  assert (Hown :
    Arrow.damage a
    = ShotSpec.damage (Arrow.baseDamage (Arrow.options a)) power
        (Arrow.damageMultiplier (Arrow.options a))).
  { rewrite Hdmg, <- Hpow. apply calculateDamage_as_specified.
    now rewrite Hmax, Hpow. }
  exists (GameScene.addArrowToScene a scene), a.
  split; [exact Hshot|]. split; [|exact Hrange].
  split; [exact Hown|]. split; [exact Hsprite|].
  intros Hb Hm.
  rewrite orQ_some in Hbase, Hmult by assumption.
  rewrite Hbase, Hmult in Hown.
  split; [exact Hown|].
  intros Hlo Hhi. rewrite Hown. now apply ShotSpec_damage_mid.
Qed.

(** C1. Every arrow the hero's shot path creates stores, on the arrow
    and on its sprite, the damage
    [round(baseDamage * powerScaling * maxPowerBonus * damageMultiplier)],
    the scaling being [powerLevel/50] below 50 and 1 from 50 on and the
    bonus 1.4 exactly from power 99 on; between 50 and 99 this is
    [round(baseDamage * damageMultiplier)].  The products and the
    quotient are those of the program, rounded to doubles one after the
    other: at base damage 15 and power 38.33333333333333 the damage is
    12, where exact arithmetic would give 11.  This holds for
    [shootWithPower] at any non-zero power, hence for every arrow of
    [releaseArrow] (power at least 34) and of [shoot] (power 70); base
    damage and multiplier are the hero's whenever these are not zero.
    The hero's base damage is a double, and base damage, multiplier and
    power are of a size at which no product leaves the doubles (in the
    program they are 15, 1 and at most 100): the damage stored is then
    far below the largest double. *)
Theorem hero_shot_damage_formula (now : Z) (h : t) (scene : GameScene.t) :
  JS.isDouble (baseDamage h) ->
  JS.moderate (baseDamage h) -> JS.moderate (damageMultiplier h) ->
  (forall power, ~ (power == 0)%Q -> JS.moderate power ->
     exists scene' a,
       shootWithPower now power h scene = (scene', Some a) /\
       shotDamageAsSpecified h power a /\
       Z.abs (Arrow.damage a) <= 2 ^ 901) /\
  (forall h' scene' a,
     JS.moderate (powerLevel h) ->
     releaseArrow now h scene = (h', scene', Some a) ->
     shotDamageAsSpecified h (powerLevel h) a /\
     Z.abs (Arrow.damage a) <= 2 ^ 901) /\
  (forall h' scene' a,
     shoot now h scene = (h', scene', Some a) ->
     shotDamageAsSpecified h 70 a /\
     Z.abs (Arrow.damage a) <= 2 ^ 901).
Proof.
  intros Hdouble Hbd Hdm.
  split; [|split].
  - intros power Hp Hpower. now apply shootWithPower_damage.
  - intros h' scene' a Hpower. unfold releaseArrow.
    destruct (isCharging h); cbn [negb]; [|discriminate].
    destruct (JS.lt (powerLevel h) 34) eqn:Hlt; [discriminate|].
    apply JS_lt_false_iff in Hlt.
    destruct (shootWithPower_damage now (powerLevel h) (set_isCharging false h) scene)
      as (sc & b & Hshot & Hspec); try assumption.
    { intros H0. rewrite H0 in Hlt. now apply Hlt. }
    rewrite Hshot. intros [= _ _ <-]. exact Hspec.
  - intros h' scene' a. unfold shoot.
    destruct (active (sprite h)); cbn [negb]; [|discriminate].
    destruct (Z.ltb _ _); [discriminate|].
    destruct (shootWithPower_damage now 70 (set_lastShot now h) scene)
      as (sc & b & Hshot & Hspec); try assumption;
      [discriminate | vm_compute; discriminate |].
    rewrite Hshot. intros [= _ _ <-]. exact Hspec.
Qed.

Lemma hero_shot_damage_formula_witness :
  exists scene' a,
    shootWithPower 0 (2697468526810453 # 70368744177664) (new 100 500)
      GameScene.initial = (scene', Some a) /\
    Arrow.damage a = 12.
Proof.
  assert (Hdouble : JS.isDouble (baseDamage (new 100 500))) by reflexivity.
  assert (Hbase : JS.moderate (baseDamage (new 100 500)))
    by (vm_compute; discriminate).
  assert (Hmult : JS.moderate (damageMultiplier (new 100 500)))
    by (vm_compute; discriminate).
  destruct (proj1 (hero_shot_damage_formula 0 (new 100 500) GameScene.initial
                     Hdouble Hbase Hmult)
              (2697468526810453 # 70368744177664))
    as (scene' & a & Hshot & (_ & _ & Hhero) & _);
    [discriminate | vm_compute; discriminate |].
  exists scene', a. split; [exact Hshot|].
  destruct Hhero as [Hdmg _]; [discriminate | discriminate |].
  rewrite Hdmg. vm_compute. reflexivity.
Defined.

(** C6. Releasing a charge below power 34 creates no arrow: the answer
    is [null], the scene's arrows are untouched and charging has ended.
    Releasing at 34 or more creates exactly one arrow, appended to the
    scene's arrows, carrying that power level and flagged max-power
    exactly when the power level is at least 99. *)
Theorem releaseArrow_threshold (now : Z) (h : t) (scene : GameScene.t) :
  isCharging h = true ->
  isCharging (fst (fst (releaseArrow now h scene))) = false /\
  ((powerLevel h < 34)%Q ->
     releaseArrow now h scene = (set_isCharging false h, scene, None)) /\
  ((34 <= powerLevel h)%Q ->
     exists a,
       releaseArrow now h scene =
         (set_isCharging false h,
          GameScene.set_arrows (GameScene.arrows scene ++ [a]) scene, Some a) /\
       Arrow.powerLevel (Arrow.options a) = powerLevel h /\
       (Arrow.isMaxPower (Arrow.options a) = true <-> (99 <= powerLevel h)%Q) /\
       ArrowSprite.isMaxPower (Arrow.sprite a) = Arrow.isMaxPower (Arrow.options a)).
Proof.
  intros Hc. unfold releaseArrow. rewrite Hc. cbn [negb].
  destruct (JS.lt (powerLevel h) 34) eqn:Hlt.
  - apply JS_lt_iff in Hlt. split; [reflexivity|]. split; [reflexivity|].
    intros Hge. exfalso. lra.
  - apply JS_lt_false_iff in Hlt.
    destruct (shootWithPower_arrow now (powerLevel h) (set_isCharging false h) scene)
      as (a & Hshot & _ & _ & _ & _ & Hmax & Hpow & _).
    rewrite Hshot. cbn [fst].
    split; [reflexivity|]. split; [intros Hlo; exfalso; lra|].
    intros _. exists a.
    assert (Hactive : ArrowSprite.active (Arrow.sprite a) = true).
    { unfold shootWithPower in Hshot. injection Hshot as _ <-. reflexivity. }
    unfold GameScene.addArrowToScene. rewrite Hactive.
    split; [reflexivity|].
    split.
    + rewrite Hpow. cbn [powerLevel set_isCharging].
      apply orQ_some. intros H0. rewrite H0 in Hlt. now apply Hlt.
    + split.
      * rewrite Hmax. cbn [powerLevel set_isCharging]. apply JS_ge_iff.
      * unfold shootWithPower in Hshot. injection Hshot as _ <-. reflexivity.
Qed.

Lemma releaseArrow_threshold_witness :
  (exists a,
     releaseArrow 0 (mk 200 200 true 300 0 15 1 true 34 (Build_Sprite 100 500 true))
       GameScene.initial =
       (mk 200 200 true 300 0 15 1 false 34 (Build_Sprite 100 500 true),
        GameScene.set_arrows [a] GameScene.initial, Some a)) /\
  releaseArrow 0 (mk 200 200 true 300 0 15 1 true (3399 # 100) (Build_Sprite 100 500 true))
    GameScene.initial =
    (mk 200 200 true 300 0 15 1 false (3399 # 100) (Build_Sprite 100 500 true),
     GameScene.initial, None).
Proof.
  split.
  - destruct (releaseArrow_threshold 0
                (mk 200 200 true 300 0 15 1 true 34 (Build_Sprite 100 500 true))
                GameScene.initial eq_refl) as (_ & _ & Hfire).
    destruct Hfire as (a & Hrel & _); [cbn; discriminate|].
    exists a. exact Hrel.
  - apply (proj1 (proj2 (releaseArrow_threshold 0
                (mk 200 200 true 300 0 15 1 true (3399 # 100) (Build_Sprite 100 500 true))
                GameScene.initial eq_refl))).
    reflexivity.
Defined.

(** C9. [Arrow.createFromShot] replaces falsy options by defaults: a
    power level of 0 is stored as 100, a base damage of 0 as 10 and a
    damage multiplier of 0 as 1, whatever the other options are; the
    damage is then the one of the default, so a shot with all three at
    zero deals 10 (14 if flagged max-power), not 0. *)
Theorem createFromShot_falsy_options_take_defaults
    (px py : Q) (now : Z) (sm : option Q) (mp : option bool) (bd pl dm : option Q) :
  let shot power base mult :=
    Arrow.createFromShot px py now (ShotOptions.mk sm mp base power mult) in
  Arrow.powerLevel (Arrow.options (shot (Some 0%Q) bd dm)) = 100%Q /\
  Arrow.baseDamage (Arrow.options (shot pl (Some 0%Q) dm)) = 10%Q /\
  Arrow.damageMultiplier (Arrow.options (shot pl bd (Some 0%Q))) = 1%Q /\
  Arrow.damage (shot (Some 0%Q) bd dm) = Arrow.damage (shot (Some 100%Q) bd dm) /\
  Arrow.damage (shot pl (Some 0%Q) dm) = Arrow.damage (shot pl (Some 10%Q) dm) /\
  Arrow.damage (shot pl bd (Some 0%Q)) = Arrow.damage (shot pl bd (Some 1%Q)) /\
  Arrow.damage (shot (Some 0%Q) (Some 0%Q) (Some 0%Q)) =
    (if JS.orB mp false then 14 else 10).
Proof.
  cbv zeta. repeat split; try reflexivity.
  destruct mp as [[|]|]; vm_compute; reflexivity.
Qed.

End HeroShots.

Section Troops.
Import Troop.

Lemma DAMAGE_MULTIPLIERS_table (a tg : MatchupSpec.Category) :
  DAMAGE_MULTIPLIERS (MatchupSpec.name a) (MatchupSpec.name tg)
  = Some (JS.double (MatchupSpec.multiplier a tg)).
Proof. destruct a, tg; vm_compute; reflexivity. Qed.

Lemma multiplier_not_falsy (a tg : MatchupSpec.Category) :
  JS.falsy (JS.double (MatchupSpec.multiplier a tg)) = false.
Proof. destruct a, tg; vm_compute; reflexivity. Qed.

Lemma multiplier_in_range (a tg : MatchupSpec.Category) :
  (Qabs (JS.double (MatchupSpec.multiplier a tg)) <= inject_Z (2 ^ 1))%Q.
Proof. destruct a, tg; vm_compute; discriminate. Qed.

Lemma calculateDamage_matchup (a tg : MatchupSpec.Category) (tr : t) :
  category tr = MatchupSpec.name a ->
  calculateDamage tr (Some (MatchupSpec.name tg))
  = JS.Math_round
      (JS.mul (attackDamage tr) (JS.double (MatchupSpec.multiplier a tg))).
Proof.
  intros Hcat. unfold calculateDamage.
  rewrite Hcat, DAMAGE_MULTIPLIERS_table, multiplier_not_falsy.
  now destruct tg.
Qed.

(** C7. For every pair of troop categories the damage of an attack is
    [round(attackDamage * multiplier)], the multiplier being 1.0 within a
    category, 1.5 for Ranged on Light and Heavy on Ranged, 0.7 for Light
    on Heavy, 1.3 for Heavy on Light, 1.2 for Light on Ranged and 0.8 for
    Ranged on Heavy.  The product is the program's: the multiplier is
    the double of its decimal fraction and the product is rounded to a
    double before [Math.round] sees it, so that a Light troop of attack
    damage 45 deals 31 to a Heavy one, where exact arithmetic would give
    32.  A due melee attack on a live troop applies exactly that damage
    through the victim's [takeDamage]; a due ranged attack hands it to
    the projectile it shoots.  The attack damage is of a size at which
    the product does not leave the doubles: the damage is then far below
    the largest double. *)
Theorem category_matchup_damage
    (a tg : MatchupSpec.Category) (tr victim : t) (now : Q) :
  category tr = MatchupSpec.name a ->
  category victim = MatchupSpec.name tg ->
  JS.moderate (attackDamage tr) ->
  let dmg :=
    JS.Math_round
      (JS.mul (attackDamage tr) (JS.double (MatchupSpec.multiplier a tg))) in
  calculateDamage tr (Some (category victim)) = dmg /\
  (0 < health victim -> active (sprite victim) = true ->
   (attackSpeed tr <= now - lastAttackTime tr)%Q ->
   match a with
   | MatchupSpec.Ranged =>
       exists p,
         Combat.attack now tr (ofTroop victim)
         = (set_lastAttackTime now tr, ofTroop victim, Some p, []) /\
         SubProjectile.damage p = dmg
   | _ =>
       Combat.attack now tr (ofTroop victim)
       = (set_lastAttackTime now tr,
          ofTroop (fst (takeDamage (inject_Z dmg) victim)),
          None,
          snd (takeDamage (inject_Z dmg) victim))
   end) /\
  Z.abs dmg <= 2 ^ 301.
Proof.
  intros Hcat Hvic Hmoderate dmg.
  assert (Hdmg : calculateDamage tr (Some (category victim)) = dmg).
  { rewrite Hvic. now apply calculateDamage_matchup. }
  split; [exact Hdmg|]. split.
  2:{ apply Math_round_in_range.
      apply (mul_bound _ _ 300 1); [lia | lia | exact Hmoderate|].
      apply multiplier_in_range. }
  intros Hlive Hactive Hdue.
  unfold Combat.attack. cbn [Target.health Target.sprite Target.category].
  replace (health victim <=? 0) with false by (symmetry; apply Z.leb_gt; lia).
  rewrite Hactive. cbn [negb orb].
  replace (JS.ge (now - lastAttackTime tr) (attackSpeed tr)) with true
    by (symmetry; now apply JS_ge_iff).
  rewrite Hdmg. cbn [category set_lastAttackTime]. rewrite Hcat.
  destruct a; cbn [MatchupSpec.name String.eqb Ascii.eqb Bool.eqb].
  - cbn [Target.takeDamage]. now destruct (takeDamage (inject_Z dmg) victim).
  - cbn [Target.takeDamage]. now destruct (takeDamage (inject_Z dmg) victim).
  - unfold Combat.createRangedAttack. cbn [Target.sprite].
    rewrite Hactive. cbn [negb]. eexists. split; reflexivity.
Qed.

Lemma category_matchup_damage_witness :
  calculateDamage (new 400 500 "Ranged" 2000 false TroopConfig.empty) (Some "Light"%string) = 23 /\
  calculateDamage (new 400 500 "Heavy" 2000 false TroopConfig.empty) (Some "Ranged"%string) = 30 /\
  calculateDamage (new 400 500 "Light" 2000 false TroopConfig.empty) (Some "Heavy"%string) = 7 /\
  calculateDamage
    (new 400 500 "Light" 2000 false
       (TroopConfig.Build_Partial None None None None None (Some 45%Q) None None
          None None))
    (Some "Heavy"%string) = 31.
Proof.
  split; [|split; [|split]].
  - apply (proj1 (category_matchup_damage MatchupSpec.Ranged MatchupSpec.Light
                    (new 400 500 "Ranged" 2000 false TroopConfig.empty)
                    (new 500 500 "Light" 0 true TroopConfig.empty) 0
                    eq_refl eq_refl ltac:(vm_compute; discriminate))).
  - apply (proj1 (category_matchup_damage MatchupSpec.Heavy MatchupSpec.Ranged
                    (new 400 500 "Heavy" 2000 false TroopConfig.empty)
                    (new 500 500 "Ranged" 0 true TroopConfig.empty) 0
                    eq_refl eq_refl ltac:(vm_compute; discriminate))).
  - apply (proj1 (category_matchup_damage MatchupSpec.Light MatchupSpec.Heavy
                    (new 400 500 "Light" 2000 false TroopConfig.empty)
                    (new 500 500 "Heavy" 0 true TroopConfig.empty) 0
                    eq_refl eq_refl ltac:(vm_compute; discriminate))).
  - apply (proj1 (category_matchup_damage MatchupSpec.Light MatchupSpec.Heavy
                    (new 400 500 "Light" 2000 false
                       (TroopConfig.Build_Partial None None None None None
                          (Some 45%Q) None None None None))
                    (new 500 500 "Heavy" 0 true TroopConfig.empty) 0
                    eq_refl eq_refl ltac:(vm_compute; discriminate))).
Defined.




End Troops.

Section Damage.

Lemma fired_award_self (c : string) : fired (awardGoldForKill c) [awardGoldForKill c] = 1%nat.
Proof. unfold fired. cbn. now rewrite String.eqb_refl. Qed.

Lemma Troop_takeDamage_valid (damage : Q) (tr : Troop.t) :
  (0 < damage)%Q ->
  Troop.takeDamage damage tr
  = let tr' := Troop.set_health (Troop.health tr - JS.Math_round damage) tr in
    if Z.leb (Troop.health tr') 0
    then (Troop.destroy tr',
          if Troop.isEnemy tr' then [awardGoldForKill (Troop.category tr')] else [])
    else (tr', []).
Proof.
  intros Hpos. unfold Troop.takeDamage. valid_amount Hpos. reflexivity.
Qed.

Lemma Base_takeDamage_valid (amount : Q) (b : Base.t) :
  (0 < amount)%Q ->
  Base.takeDamage amount b
  = let b' := Base.set_health (Z.max 0 (Base.health b - JS.Math_round amount)) b in
    if Z.leb (Base.health b') 0 then (b', Base.onDestroyed b') else (b', []).
Proof.
  intros Hpos. unfold Base.takeDamage. valid_amount Hpos. reflexivity.
Qed.

Lemma Base_takeDamage_health (amount : Q) (b : Base.t) :
  (0 < amount)%Q ->
  Base.health (fst (Base.takeDamage amount b))
  = Z.max 0 (Base.health b - JS.Math_round amount).
Proof.
  intros Hpos. rewrite Base_takeDamage_valid by assumption. cbv zeta.
  now destruct (Z.leb _ _).
Qed.

Lemma Hero_takeDamage_health (amount : Q) (h : Hero.t) :
  (0 < amount)%Q -> Hero.isAlive h = true ->
  Hero.health (Hero.takeDamage amount h)
  = Z.max 0 (Hero.health h - JS.Math_round amount).
Proof.
  intros Hpos Halive. unfold Hero.takeDamage. rewrite Halive.
  valid_amount Hpos.
  cbn [negb orb].
  destruct (Z.leb_spec (Z.max 0 (Hero.health h - JS.Math_round amount)) 0);
    cbn [Hero.health Hero.set_health]; lia.
Qed.

(** C10. A troop's health is not clamped at zero: a valid hit subtracts
    the rounded damage as it is, so a troop can be destroyed with a
    strictly negative health, whereas a base and a living hero keep
    [max(0, health - round(amount))].  The hit destroys the troop
    exactly when the new health is at most 0, and credits the kill reward
    exactly when, besides, the troop is an enemy. *)
Theorem troop_health_is_not_clamped (damage : Q) (tr : Troop.t) :
  (0 < damage)%Q ->
  active (Troop.sprite tr) = true ->
  let hit := Troop.takeDamage damage tr in
  Troop.health (fst hit) = Troop.health tr - JS.Math_round damage /\
  (active (Troop.sprite (fst hit)) = false <-> Troop.health (fst hit) <= 0) /\
  (fired (awardGoldForKill (Troop.category tr)) (snd hit) = 1%nat <->
     Troop.isEnemy tr = true /\ Troop.health (fst hit) <= 0) /\
  (forall b, Base.health (fst (Base.takeDamage damage b))
             = Z.max 0 (Base.health b - JS.Math_round damage)) /\
  (forall h, Hero.isAlive h = true ->
             Hero.health (Hero.takeDamage damage h)
             = Z.max 0 (Hero.health h - JS.Math_round damage)) /\
  (exists victim amount,
     Troop.health (fst (Troop.takeDamage amount victim)) < 0 /\
     active (Troop.sprite (fst (Troop.takeDamage amount victim))) = false).
Proof.
  intros Hpos Hactive hit. subst hit.
  rewrite Troop_takeDamage_valid by assumption. cbv zeta.
  cbn [Troop.health Troop.set_health Troop.isEnemy Troop.category].
  destruct (Z.leb_spec (Troop.health tr - JS.Math_round damage) 0) as [Hdead | Hlive];
    cbn [fst snd Troop.health Troop.destroy Troop.set_health Troop.sprite].
  - rewrite Hactive. cbn [active Sprite_destroy].
    split; [reflexivity|]. split; [tauto|]. split.
    + destruct (Troop.isEnemy tr).
      * rewrite fired_award_self. tauto.
      * unfold fired. cbn [List.filter List.length].
        split; [discriminate | intros [? _]; discriminate].
    + split; [intros b; now apply Base_takeDamage_health|].
      split; [intros h; now apply Hero_takeDamage_health|].
      exists (Troop.new 500 500 "Light" 0 true TroopConfig.empty), 60%Q.
      split; reflexivity.
  - rewrite Hactive.
    split; [reflexivity|].
    split; [split; [discriminate | intros; exfalso; lia]|]. split.
    + unfold fired. cbn [List.filter List.length].
      split; [discriminate | intros [_ ?]; exfalso; lia].
    + split; [intros b; now apply Base_takeDamage_health|].
      split; [intros h; now apply Hero_takeDamage_health|].
      exists (Troop.new 500 500 "Light" 0 true TroopConfig.empty), 60%Q.
      split; reflexivity.
Qed.

Lemma troop_health_is_not_clamped_witness :
  Troop.health
    (fst (Troop.takeDamage 60 (Troop.new 500 500 "Light" 0 true TroopConfig.empty)))
  = 50 - JS.Math_round 60.
Proof.
  apply (proj1 (troop_health_is_not_clamped 60
                  (Troop.new 500 500 "Light" 0 true TroopConfig.empty)
                  ltac:(reflexivity) eq_refl)).
Defined.

Lemma Math_round_pos_nonneg (v : Q) : (0 < v)%Q -> 0 <= JS.Math_round v.
Proof.
  intros Hv. unfold JS.Math_round. change 0 with (Qfloor 0).
  apply Qfloor_resp_le. lra.
Qed.

Lemma Base_takeDamage_at_zero_fires_again (amount : Q) (b : Base.t) :
  (0 < amount)%Q -> Base.health b = 0 ->
  Base.takeDamage amount b = (b, Base.onDestroyed b).
Proof.
  intros Hpos Hzero.
  pose proof (Math_round_pos_nonneg amount Hpos) as Hround.
  rewrite Base_takeDamage_valid by assumption. cbv zeta.
  rewrite Hzero.
  replace (Z.max 0 (0 - JS.Math_round amount)) with 0 by lia.
  destruct b as [side hp mx sp]. cbn in *. now subst hp.
Qed.

Lemma Base_takeDamage_health_nonneg (amount : Q) (b : Base.t) :
  0 <= Base.health b -> 0 <= Base.health (fst (Base.takeDamage amount b)).
Proof.
  intros Hb. unfold Base.takeDamage.
  destruct (JS.le amount 0); [exact Hb|].
  destruct (Z.leb _ _); cbn; lia.
Qed.

(** C2 (destruction fires once), where the code departs from the
    specification. An enemy base with 10 health takes two hits of 15:
    the first brings its health to 0 and calls [onEnemyBaseDestroyed];
    the second leaves the health at 0 and calls [onEnemyBaseDestroyed]
    again, so the scene awards the base-destruction XP twice. *)
Theorem base_destruction_fires_on_every_later_hit :
  let b := Base.mk false 10 300 (Build_Sprite 1900 490 true) in
  let first := Base.takeDamage 15 b in
  let second := Base.takeDamage 15 (fst first) in
  Base.health (fst first) = 0 /\
  snd first = [onEnemyBaseDestroyed] /\
  Base.health (fst second) = 0 /\
  snd second = [onEnemyBaseDestroyed] /\
  fired onEnemyBaseDestroyed (snd (Base.takeDamages [15%Q; 15%Q] b)) = 2%nat /\
  option_map (fun st => GameManager.xp (snd st))
    (Game.handleAll (snd (Base.takeDamages [15%Q; 15%Q] b))
       (GameScene.initial, GameManager.initial)) = Some 200.
Proof.
  cbv zeta.
  assert (H1 : Base.takeDamage 15 (Base.mk false 10 300 (Build_Sprite 1900 490 true))
               = (Base.mk false 0 300 (Build_Sprite 1900 490 true),
                  [onEnemyBaseDestroyed])) by reflexivity.
  assert (H2 : Base.takeDamage 15 (Base.mk false 0 300 (Build_Sprite 1900 490 true))
               = (Base.mk false 0 300 (Build_Sprite 1900 490 true),
                  [onEnemyBaseDestroyed]))
    by (apply Base_takeDamage_at_zero_fires_again; reflexivity).
  rewrite H1. cbn [fst snd]. rewrite H2. cbn [fst snd Base.health].
  repeat split; reflexivity.
Qed.

(** A base's health stays between 0 and its maximum under any sequence
    of [takeDamage] calls. *)
Theorem base_health_stays_in_range (amounts : list Q) (b : Base.t) :
  0 <= Base.health b <= Base.maxHealth b ->
  0 <= Base.health (fst (Base.takeDamages amounts b))
    <= Base.maxHealth (fst (Base.takeDamages amounts b)).
Proof.
  revert b. induction amounts as [|amount rest IH]; intros b Hb; [exact Hb|].
  cbn [Base.takeDamages].
  destruct (Base.takeDamage amount b) as [b1 log1] eqn:E1.
  specialize (IH b1).
  destruct (Base.takeDamages rest b1) as [b2 log2]. cbn [fst] in *.
  apply IH. clear IH.
  unfold Base.takeDamage in E1.
  destruct (JS.le amount 0) eqn:Hle.
  - injection E1 as <- _. exact Hb.
  - apply JS_le_false_iff, Math_round_pos_nonneg in Hle.
    destruct (Z.leb _ _); injection E1 as <- _;
      cbn [Base.health Base.maxHealth Base.set_health]; lia.
Qed.

Lemma base_health_stays_in_range_witness :
  0 <= Base.health
         (fst (Base.takeDamages [120%Q; (-5)%Q; 250%Q; 40%Q]
                 (Base.mk true 300 300 (Build_Sprite 100 490 true))))
    <= 300.
Proof.
  apply (base_health_stays_in_range [120%Q; (-5)%Q; 250%Q; 40%Q]
           (Base.mk true 300 300 (Build_Sprite 100 490 true))).
  cbn. lia.
Defined.

(** A dead hero takes no damage: [Hero.takeDamage] is guarded by
    [isAlive], and a hit that brings the health to 0 clears [isAlive]. *)
Theorem hero_death_is_guarded (amount later : Q) (h : Hero.t) :
  (Hero.isAlive h = false -> Hero.takeDamage amount h = h) /\
  (Hero.isAlive h = true -> (0 < amount)%Q ->
   Hero.health h - JS.Math_round amount <= 0 ->
   Hero.isAlive (Hero.takeDamage amount h) = false /\
   Hero.takeDamage later (Hero.takeDamage amount h) = Hero.takeDamage amount h).
Proof.
  split.
  - intros Hdead. unfold Hero.takeDamage. rewrite Hdead.
    now rewrite orb_true_r.
  - intros Halive Hpos Hkill.
    assert (Hnow : Hero.takeDamage amount h = Hero.set_health 0 false h).
    { unfold Hero.takeDamage. rewrite Halive. valid_amount Hpos.
      cbn [negb orb].
      replace (Z.max 0 (Hero.health h - JS.Math_round amount) <=? 0) with true;
        [reflexivity|].
      symmetry. apply Z.leb_le. lia. }
    rewrite Hnow. split; [reflexivity|].
    unfold Hero.takeDamage. cbn [Hero.isAlive Hero.set_health negb].
    now rewrite orb_true_r.
Qed.

Lemma hero_death_is_guarded_witness :
  Hero.takeDamage 30 (Hero.takeDamage 250 (Hero.new 100 500))
  = Hero.takeDamage 250 (Hero.new 100 500).
Proof.
  apply (proj2 (hero_death_is_guarded 250 30 (Hero.new 100 500)) eq_refl).
  - reflexivity.
  - discriminate.
Defined.

End Damage.

Section Overlaps.

Lemma hitEnemy_after_hit (a : Arrow.t) (enemy : option Troop.t) :
  Arrow.hasHit a = true -> Arrow.hitEnemy a enemy = (a, enemy, []).
Proof. intros H. unfold Arrow.hitEnemy. now rewrite H. Qed.

Lemma hitBase_after_hit (a : Arrow.t) (base : option Base.t) :
  Arrow.hasHit a = true -> Arrow.hitBase a base = (a, base, []).
Proof. intros H. unfold Arrow.hitBase. now rewrite H. Qed.

Lemma hitEnemy_marks (a : Arrow.t) (enemy : option Troop.t) :
  Arrow.hasHit (fst (fst (Arrow.hitEnemy a enemy))) = true.
Proof.
  unfold Arrow.hitEnemy. destruct (Arrow.hasHit a) eqn:H; [exact H|].
  destruct enemy as [troop|]; [|reflexivity].
  now destruct (Troop.takeDamage _ troop).
Qed.

Lemma hitBase_marks (a : Arrow.t) (base : option Base.t) :
  Arrow.hasHit (fst (fst (Arrow.hitBase a base))) = true.
Proof.
  unfold Arrow.hitBase. destruct (Arrow.hasHit a) eqn:H; [exact H|].
  destruct base as [b|]; [|reflexivity].
  now destruct (Base.takeDamage _ b).
Qed.

Lemma hitEnemy_first (a : Arrow.t) (troop : Troop.t) :
  Arrow.hasHit a = false ->
  Arrow.hitEnemy a (Some troop)
  = (Arrow.set_hasHit true a,
     Some (fst (Troop.takeDamage (inject_Z (JS.orZ (Arrow.damage a) 10)) troop)),
     snd (Troop.takeDamage (inject_Z (JS.orZ (Arrow.damage a) 10)) troop)).
Proof.
  intros H. unfold Arrow.hitEnemy. rewrite H.
  cbn [Arrow.damage Arrow.set_hasHit].
  now destruct (Troop.takeDamage _ troop).
Qed.

Lemma hitBase_first (a : Arrow.t) (b : Base.t) :
  Arrow.hasHit a = false ->
  Arrow.hitBase a (Some b)
  = (Arrow.set_hasHit true a,
     Some (fst (Base.takeDamage (inject_Z (JS.orZ (Arrow.damage a) 10)) b)),
     snd (Base.takeDamage (inject_Z (JS.orZ (Arrow.damage a) 10)) b)).
Proof.
  intros H. unfold Arrow.hitBase. rewrite H.
  cbn [Arrow.damage Arrow.set_hasHit].
  now destruct (Base.takeDamage _ b).
Qed.

(** C3 as the specification states it, tried on a ranged troop's
    projectile: an ally Ranged troop shoots an enemy Light troop of 50
    health; the damage it hands to its projectile is 23; the overlap
    callback delivered twice takes 23 twice, leaving 4. *)
Lemma ranged_overlap_delivered_twice_damages_twice :
  let shooter := Troop.new 400 500 "Ranged" 2000 false TroopConfig.empty in
  let victim := Troop.new 500 500 "Light" 0 true TroopConfig.empty in
  exists p,
    Combat.createRangedAttack shooter (ofTroop victim)
      (Troop.calculateDamage shooter (Target.category (ofTroop victim))) = Some p /\
    SubProjectile.damage p = 23 /\
    Target.health (ofTroop victim) = 50 /\
    let first := Combat.onOverlap p (ofTroop victim) in
    let second := Combat.onOverlap (fst (fst first)) (snd (fst first)) in
    Target.health (snd (fst first)) = 27 /\
    Target.health (snd (fst second)) = 4.
Proof.
  cbv zeta. eexists. split; [reflexivity|].
  split; [reflexivity|]. split; [reflexivity|].
  split; reflexivity.
Qed.

(** C3, as the code has it. A hero arrow resolves once: after any
    delivery of an overlap with a troop or with a base the arrow is
    marked, and every later delivery, to either handler, changes nothing
    and calls nothing; the first delivery against a troop is one
    [takeDamage] of the arrow's damage (10 when that is 0), so with a
    positive damage the troop's health drops by exactly that much however
    often the overlap is delivered again; the first delivery against a
    base is one [takeDamage] of the same damage on the base, whose health
    drops by that much, to 0 at the lowest, and is the same after the
    second delivery, which calls nothing.  A ranged troop's projectile
    has no such mark: each delivery of its overlap callback is one
    [takeDamage] of its damage on the target, and leaves the projectile
    destroyed. *)
Theorem overlap_resolution
    (a : Arrow.t) (enemy : option Troop.t) (base : option Base.t)
    (p : SubProjectile.t) (tg : Target) :
  (let first := Arrow.hitEnemy a enemy in
   Arrow.hitEnemy (fst (fst first)) (snd (fst first))
   = (fst (fst first), snd (fst first), []) /\
   Arrow.hitBase (fst (fst first)) base = (fst (fst first), base, [])) /\
  (let first := Arrow.hitBase a base in
   Arrow.hitBase (fst (fst first)) (snd (fst first))
   = (fst (fst first), snd (fst first), []) /\
   Arrow.hitEnemy (fst (fst first)) enemy = (fst (fst first), enemy, [])) /\
  (forall troop,
     Arrow.hasHit a = false -> 0 < JS.orZ (Arrow.damage a) 10 ->
     let first := Arrow.hitEnemy a (Some troop) in
     let second := Arrow.hitEnemy (fst (fst first)) (snd (fst first)) in
     option_map Troop.health (snd (fst first))
     = Some (Troop.health troop - JS.orZ (Arrow.damage a) 10) /\
     option_map Troop.health (snd (fst second))
     = Some (Troop.health troop - JS.orZ (Arrow.damage a) 10)) /\
  (forall b,
     Arrow.hasHit a = false -> 0 < JS.orZ (Arrow.damage a) 10 ->
     let first := Arrow.hitBase a (Some b) in
     let second := Arrow.hitBase (fst (fst first)) (snd (fst first)) in
     first
     = (Arrow.set_hasHit true a,
        Some (fst (Base.takeDamage (inject_Z (JS.orZ (Arrow.damage a) 10)) b)),
        snd (Base.takeDamage (inject_Z (JS.orZ (Arrow.damage a) 10)) b)) /\
     option_map Base.health (snd (fst first))
     = Some (Z.max 0 (Base.health b - JS.orZ (Arrow.damage a) 10)) /\
     option_map Base.health (snd (fst second))
     = Some (Z.max 0 (Base.health b - JS.orZ (Arrow.damage a) 10)) /\
     snd second = []) /\
  Combat.onOverlap p tg
  = (SubProjectile.destroy p,
     fst (Target.takeDamage (inject_Z (SubProjectile.damage p)) tg),
     snd (Target.takeDamage (inject_Z (SubProjectile.damage p)) tg)) /\
  active (SubProjectile.sprite (fst (fst (Combat.onOverlap p tg)))) = false.
Proof.
  split; [|split; [|split; [|split; [|split]]]].
  - cbv zeta. split.
    + apply hitEnemy_after_hit, hitEnemy_marks.
    + apply hitBase_after_hit, hitEnemy_marks.
  - cbv zeta. split.
    + apply hitBase_after_hit, hitBase_marks.
    + apply hitEnemy_after_hit, hitBase_marks.
  - intros troop Hfresh Hpos. cbv zeta.
    rewrite hitEnemy_first by assumption. cbn [fst snd].
    rewrite hitEnemy_after_hit by reflexivity. cbn [fst snd option_map].
    rewrite Troop_takeDamage_valid, Math_round_Z.
    + cbv zeta. cbn [Troop.health Troop.set_health].
      now destruct (Z.leb _ _).
    + change 0%Q with (inject_Z 0). now rewrite <- Zlt_Qlt.
  - intros b Hfresh Hpos. cbv zeta.
    assert (HposQ : (0 < inject_Z (JS.orZ (Arrow.damage a) 10))%Q).
    { change 0%Q with (inject_Z 0). now rewrite <- Zlt_Qlt. }
    rewrite hitBase_first by assumption. cbn [fst snd].
    rewrite hitBase_after_hit by reflexivity. cbn [fst snd option_map].
    rewrite Base_takeDamage_health, Math_round_Z by exact HposQ.
    now repeat split.
  - unfold Combat.onOverlap. now destruct (Target.takeDamage _ tg).
  - unfold Combat.onOverlap. now destruct (Target.takeDamage _ tg).
Qed.

Lemma overlap_resolution_witness :
  let a := Arrow.new 100 500 0 Arrow.defaults in
  let troop := Troop.new 500 500 "Light" 0 true TroopConfig.empty in
  let first := Arrow.hitEnemy a (Some troop) in
  let second := Arrow.hitEnemy (fst (fst first)) (snd (fst first)) in
  let base := Base.mk false 300 300 (Build_Sprite 1900 490 true) in
  let firstBase := Arrow.hitBase a (Some base) in
  let secondBase := Arrow.hitBase (fst (fst firstBase)) (snd (fst firstBase)) in
  option_map Troop.health (snd (fst second)) = Some (50 - 10) /\
  option_map Base.health (snd (fst secondBase)) = Some (Z.max 0 (300 - 10)).
Proof.
  cbv zeta. split.
  - apply (proj1 (proj2 (proj2 (overlap_resolution
             (Arrow.new 100 500 0 Arrow.defaults) None None
             (SubProjectile.mk (Build_Sprite 0 0 true) "arrow" 15)
             (ofBase (Base.mk false 300 300 (Build_Sprite 1900 490 true))))))
           (Troop.new 500 500 "Light" 0 true TroopConfig.empty)
           eq_refl eq_refl).
  - apply (proj1 (proj2 (proj2 (proj2 (overlap_resolution
             (Arrow.new 100 500 0 Arrow.defaults) None None
             (SubProjectile.mk (Build_Sprite 0 0 true) "arrow" 15)
             (ofBase (Base.mk false 300 300 (Build_Sprite 1900 490 true)))))))
           (Base.mk false 300 300 (Build_Sprite 1900 490 true))
           eq_refl eq_refl).
Defined.

End Overlaps.

Section Expiry.
Import GameScene.

Lemma outOfBounds_iff (wb : Bounds) (sp : ArrowSprite.t) :
  JS.lt (ArrowSprite.x sp) (- margin) ||
  JS.lt (ArrowSprite.y sp) (- margin) ||
  JS.gt (ArrowSprite.x sp) (width wb + margin) ||
  JS.gt (ArrowSprite.y sp) (height wb + margin) = true
  <-> outOfBounds wb sp.
Proof.
  unfold outOfBounds.
  rewrite !orb_true_iff, !JS_lt_iff, !JS_gt_iff. tauto.
Qed.

Lemma cleanupVerdict_out (now : Z) (wb : Bounds) (sp : ArrowSprite.t) :
  ArrowSprite.active sp = true -> outOfBounds wb sp ->
  cleanupVerdict now wb sp = DestroyAndDrop.
Proof.
  intros Hact Hout. unfold cleanupVerdict. rewrite Hact. cbn [negb].
  apply outOfBounds_iff in Hout. now rewrite Hout.
Qed.

Lemma cleanupVerdict_keep (now : Z) (wb : Bounds) (sp : ArrowSprite.t) :
  cleanupVerdict now wb sp = Keep ->
  ArrowSprite.active sp = true /\ ~ outOfBounds wb sp.
Proof.
  unfold cleanupVerdict.
  destruct (ArrowSprite.active sp); cbn [negb]; [|discriminate].
  destruct (_ || _) eqn:Hout; [discriminate|].
  intros _. split; [reflexivity|].
  rewrite <- outOfBounds_iff, Hout. discriminate.
Qed.

(** C5 as the specification states it, tried on a tick after the game
    has ended: an arrow that has hit nothing, one second old, 750 px
    beyond the left edge of the world and still active is neither
    destroyed nor dropped by [update]. *)
Lemma expiry_check_skipped_when_game_inactive :
  let a := Arrow.new (-800) 300 0 Arrow.defaults in
  let s := mk false (worldBounds initial) [a] in
  Arrow.hasHit a = false /\
  ArrowSprite.active (Arrow.sprite a) = true /\
  outOfBounds (worldBounds s) (Arrow.sprite a) /\
  update 1000 s = (s, []).
Proof.
  cbv zeta. split; [reflexivity|]. split; [reflexivity|].
  split; [|reflexivity].
  left. reflexivity.
Qed.

(** C5, as the code has it. On every tick on which the game is active,
    every tracked arrow whose sprite is still active and lies outside the
    world bounds by more than 50 px is destroyed and dropped from the
    list, whether or not it has hit anything; the arrows that stay are
    tracked arrows with an active sprite within those bounds, and the
    ones destroyed are left inactive. *)
Theorem cleanup_on_active_ticks (now : Z) (s : t) :
  gameActive s = true ->
  let s' := fst (update now s) in
  let destroyed := snd (update now s) in
  (forall a, In a (arrows s) ->
     ArrowSprite.active (Arrow.sprite a) = true ->
     outOfBounds (worldBounds s) (Arrow.sprite a) ->
     ~ In a (arrows s') /\ In (Arrow.destroy a) destroyed) /\
  (forall a, In a (arrows s') ->
     In a (arrows s) /\ ArrowSprite.active (Arrow.sprite a) = true /\
     ~ outOfBounds (worldBounds s) (Arrow.sprite a)) /\
  (forall d, In d destroyed -> ArrowSprite.active (Arrow.sprite d) = false) /\
  (forall a hit,
     cleanupVerdict now (worldBounds s) (Arrow.sprite (Arrow.set_hasHit hit a))
     = cleanupVerdict now (worldBounds s) (Arrow.sprite a)).
Proof.
  intros Hactive. unfold update. rewrite Hactive. cbn [negb].
  unfold cleanupArrows. cbv zeta. cbn [fst snd arrows set_arrows].
  split; [|split; [|split]].
  - intros a Hin Hact Hout.
    pose proof (cleanupVerdict_out now (worldBounds s) _ Hact Hout) as Hv.
    split.
    + rewrite filter_In, Hv. intros [_ Hk]. discriminate.
    + apply in_map, filter_In. now rewrite Hv.
  - intros a Hin. apply filter_In in Hin as [Hin Hk].
    split; [exact Hin|].
    apply (cleanupVerdict_keep now).
    now destruct (cleanupVerdict now (worldBounds s) (Arrow.sprite a)).
  - intros d Hd. apply in_map_iff in Hd as (a & <- & _).
    unfold Arrow.destroy. cbn [Arrow.sprite].
    now destruct (ArrowSprite.active (Arrow.sprite a)) eqn:E.
  - reflexivity.
Qed.

Lemma cleanup_on_active_ticks_witness :
  let a := Arrow.new (-800) 300 0 Arrow.defaults in
  let s := mk true (worldBounds initial) [a] in
  ~ In a (arrows (fst (update 1000 s))) /\
  In (Arrow.destroy a) (snd (update 1000 s)).
Proof.
  cbv zeta.
  apply (proj1 (cleanup_on_active_ticks 1000
                  (mk true (worldBounds initial) [Arrow.new (-800) 300 0 Arrow.defaults])
                  eq_refl)).
  - left. reflexivity.
  - reflexivity.
  - left. reflexivity.
Defined.

(** For an arrow as its constructor builds it, the verdict of
    [cleanupArrows] never depends on the clock: the sprite has no
    [creationTime], so the age test never holds, and an arrow within
    bounds is kept at any time.  The arrows of [createFromShot] carry the
    default lifetime of 5000 ms. *)
Theorem cleanup_ignores_the_clock
    (now : Z) (wb : Bounds) (px py : Q) (created : Z) (o : Arrow.Options)
    (so : ShotOptions.t) :
  cleanupVerdict now wb (Arrow.sprite (Arrow.new px py created o))
  = (if JS.lt px (- margin) || JS.lt py (- margin) ||
        JS.gt px (width wb + margin) || JS.gt py (height wb + margin)
     then DestroyAndDrop else Keep) /\
  ArrowSprite.creationTime (Arrow.sprite (Arrow.createFromShot px py created so)) = None /\
  Arrow.lifetime (Arrow.options (Arrow.createFromShot px py created so)) = 5000.
Proof.
  split; [|split; reflexivity].
  unfold cleanupVerdict. cbn [Arrow.new Arrow.sprite ArrowSprite.active
    ArrowSprite.x ArrowSprite.y ArrowSprite.creationTime negb].
  now destruct (_ || _).
Qed.

End Expiry.

Section Upgrades.
Import Ledger.

Lemma includes_In (id : string) (keys : list string) :
  includes id keys = true <-> In id keys.
Proof.
  unfold includes. rewrite existsb_exists. split.
  - intros (k & Hin & Heq). apply String.eqb_eq in Heq. now subst.
  - intros Hin. exists id. split; [exact Hin | apply String.eqb_refl].
Qed.

Lemma includes_false (id : string) (keys : list string) :
  includes id keys = false <-> ~ In id keys.
Proof. rewrite <- includes_In. now destruct (includes id keys). Qed.

Lemma setTrue_In (id k : string) (keys : list string) :
  In k (setTrue id keys) <-> k = id \/ In k keys.
Proof.
  unfold setTrue. destruct (includes id keys) eqn:E.
  - apply includes_In in E. split; [tauto|]. intros [-> | H]; assumption.
  - rewrite in_app_iff. cbn. split; intros H; intuition congruence.
Qed.

Lemma push_NoDup (id : string) (keys : list string) :
  NoDup keys -> ~ In id keys -> NoDup (keys ++ [id]).
Proof.
  intros Hnd Hnot. apply NoDup_app; [exact Hnd | |].
  - constructor; [intros [] | constructor].
  - intros k Hk [<- | []]. contradiction.
Qed.

(** Lets a goal about [purchaseUpgrade] or [canPurchaseUpgrade] follow
    the tests the two methods share. *)
Ltac upgrade_cases upgradeId l :=
  unfold purchaseUpgrade, canPurchaseUpgrade, GameManager.spendGold;
  destruct (baseUpgradeCost upgradeId) as [cost|] eqn:Hcost;
  [ destruct (includes upgradeId (purchasedUpgrades l)) eqn:Hbought;
    [ | destruct (String.eqb upgradeId "longbowTraining"
                  && negb (includes "longbowTraining" (unlockedFeatures l)))
          eqn:Hlocked;
        [ | destruct (Z.geb (GameManager.gold (manager l)) cost) eqn:Hgold ] ]
  | ].

(** [purchaseUpgrade] and [canPurchaseUpgrade] agree: the purchase
    succeeds exactly when the check says it can; a refused purchase
    changes nothing, an accepted one takes the upgrade's cost off the gold,
    records the upgrade and touches nothing else. *)
Theorem purchaseUpgrade_agrees_with_canPurchaseUpgrade (upgradeId : string) (l : t) :
  fst (purchaseUpgrade upgradeId l) = canPurchaseUpgrade upgradeId l /\
  (canPurchaseUpgrade upgradeId l = false -> snd (purchaseUpgrade upgradeId l) = l) /\
  (canPurchaseUpgrade upgradeId l = true ->
   exists cost,
     baseUpgradeCost upgradeId = Some cost /\
     cost <= GameManager.gold (manager l) /\
     GameManager.gold (manager (snd (purchaseUpgrade upgradeId l)))
     = GameManager.gold (manager l) - cost /\
     GameManager.xp (manager (snd (purchaseUpgrade upgradeId l)))
     = GameManager.xp (manager l) /\
     purchasedUpgrades (snd (purchaseUpgrade upgradeId l))
     = purchasedUpgrades l ++ [upgradeId] /\
     roundUpgrades (snd (purchaseUpgrade upgradeId l)) = roundUpgrades l /\
     enemyUpgrades (snd (purchaseUpgrade upgradeId l)) = enemyUpgrades l /\
     unlockedFeatures (snd (purchaseUpgrade upgradeId l)) = unlockedFeatures l).
Proof.
  upgrade_cases upgradeId l; cbn [fst snd];
    (split; [reflexivity|]); (split; [reflexivity || discriminate|]);
    try discriminate.
  intros _. exists cost. split; [reflexivity|].
  split; [apply Z.geb_le in Hgold; lia|].
  cbn [manager purchasedUpgrades roundUpgrades enemyUpgrades unlockedFeatures
       GameManager.gold GameManager.xp GameManager.set_gold].
  unfold setTrue. rewrite Hbought. repeat split.
Qed.

Lemma purchaseUpgrade_agrees_with_canPurchaseUpgrade_witness :
  exists cost,
    baseUpgradeCost "reinforcedWalls" = Some cost /\
    GameManager.gold
      (manager (snd (purchaseUpgrade "reinforcedWalls"
                       (set_manager (GameManager.set_gold 450 GameManager.initial) initial))))
    = 450 - cost.
Proof.
  destruct (proj2 (proj2 (purchaseUpgrade_agrees_with_canPurchaseUpgrade
                            "reinforcedWalls"
                            (set_manager (GameManager.set_gold 450 GameManager.initial) initial)))
              eq_refl) as (cost & Hc & _ & Hg & _).
  exists cost. split; [exact Hc | exact Hg].
Defined.

Lemma step_keeps_purchased (c : Call) (l : t) (id : string) :
  In id (purchasedUpgrades l) -> In id (purchasedUpgrades (step c l)).
Proof.
  intros Hin. destruct c; cbn [step set_manager purchasedUpgrades advanceRound];
    try exact Hin.
  - unfold spendXP. now destruct (Z.geb _ _).
  - upgrade_cases upgradeId l; cbn [snd purchasedUpgrades]; try exact Hin.
    apply setTrue_In. now right.
  - unfold purchaseRoundUpgrade, spendXP, applyRoundUpgradeEffect.
    destruct (includes upgradeId (roundUpgrades l)); [exact Hin|].
    destruct (Z.geb _ _); [|exact Hin]. cbn [snd].
    destruct (negb _); [exact Hin|].
    now destruct (String.eqb upgradeId "unlockLongbowTraining").
  - unfold addEnemyUpgrade. now destruct (includes _ _).
Qed.

Lemma run_keeps_purchased (calls : list Call) (l : t) (id : string) :
  In id (purchasedUpgrades l) -> In id (purchasedUpgrades (run calls l)).
Proof.
  revert l. induction calls as [|c calls IH]; intros l Hin; [exact Hin|].
  cbn. apply IH. now apply step_keeps_purchased.
Qed.

Lemma purchaseUpgrade_records (upgradeId : string) (l : t) :
  fst (purchaseUpgrade upgradeId l) = true ->
  In upgradeId (purchasedUpgrades (snd (purchaseUpgrade upgradeId l))).
Proof.
  upgrade_cases upgradeId l; cbn [fst snd purchasedUpgrades]; try discriminate.
  intros _. apply setTrue_In. now left.
Qed.

(** An upgrade is bought at most once: after a successful purchase, and
    whatever calls of the manager follow, purchasing the same upgrade
    again is refused and changes nothing. *)
Theorem upgrade_is_bought_at_most_once
    (upgradeId : string) (l : t) (calls : list Call) :
  fst (purchaseUpgrade upgradeId l) = true ->
  let later := run calls (snd (purchaseUpgrade upgradeId l)) in
  purchaseUpgrade upgradeId later = (false, later).
Proof.
  intros Hok later.
  assert (Hin : In upgradeId (purchasedUpgrades later)).
  { apply run_keeps_purchased. now apply purchaseUpgrade_records. }
  apply includes_In in Hin.
  unfold purchaseUpgrade. rewrite Hin.
  now destruct (baseUpgradeCost upgradeId).
Qed.

Lemma upgrade_is_bought_at_most_once_witness :
  let l := set_manager (GameManager.set_gold 1000 GameManager.initial) initial in
  let later := run [AddGold 500 "enemy kill"; AdvanceRound]
                 (snd (purchaseUpgrade "improvedArrows" l)) in
  purchaseUpgrade "improvedArrows" later = (false, later).
Proof.
  cbv zeta.
  apply (upgrade_is_bought_at_most_once "improvedArrows"
           (set_manager (GameManager.set_gold 1000 GameManager.initial) initial)
           [AddGold 500 "enemy kill"; AdvanceRound]).
  reflexivity.
Defined.

Lemma step_keeps_longbowRecords (c : Call) (l : t) :
  longbowRecordsAgree l -> longbowRecordsAgree (step c l).
Proof.
  intros [Hp Hu]. destruct c;
    cbn [step set_manager advanceRound]; try (split; assumption).
  - unfold spendXP. destruct (Z.geb _ _); split; assumption.
  - upgrade_cases upgradeId l; cbn [snd]; try (split; assumption).
    split; cbn [purchasedUpgrades unlockedFeatures roundUpgrades]; [|exact Hu].
    rewrite setTrue_In. intros [Heq | Hin]; [|now apply Hp].
    rewrite <- Heq in Hlocked. rewrite String.eqb_refl in Hlocked.
    cbn [andb] in Hlocked. apply negb_false_iff, includes_In in Hlocked.
    exact Hlocked.
  - unfold purchaseRoundUpgrade, spendXP, applyRoundUpgradeEffect, isRoundUpgrade.
    destruct (includes upgradeId (roundUpgrades l)); [split; assumption|].
    destruct (Z.geb _ _); [|split; assumption]. cbn [snd].
    destruct (String.eqb_spec upgradeId "unlockLongbowTraining") as [-> | Hne];
      cbn [negb]; split;
      cbn [purchasedUpgrades unlockedFeatures roundUpgrades set_manager].
    + rewrite setTrue_In. auto.
    + intros _. apply in_app_iff. right. now left.
    + exact Hp.
    + intros H. apply in_app_iff. left. now apply Hu.
  - unfold addEnemyUpgrade. destruct (includes _ _); split; assumption.
Qed.

(** Longbow training is gated by the round upgrade: after any sequence of
    calls from a new game, the gold upgrade [longbowTraining] is purchased
    only if the feature is unlocked, and the feature is unlocked only if
    the round upgrade [unlockLongbowTraining] was purchased; in
    particular, with the feature locked the gold purchase is refused
    whatever the gold. *)
Theorem longbowTraining_needs_the_round_upgrade (calls : list Call) (l : t) :
  longbowRecordsAgree (run calls initial) /\
  (isFeatureUnlocked "longbowTraining" l = false ->
   purchaseUpgrade "longbowTraining" l = (false, l)).
Proof.
  split.
  - assert (H : forall l0, longbowRecordsAgree l0 -> longbowRecordsAgree (run calls l0)).
    { induction calls as [|c calls IH]; intros l0 H0; [exact H0|].
      cbn. apply IH. now apply step_keeps_longbowRecords. }
    apply H. split; intros [].
  - unfold isFeatureUnlocked, purchaseUpgrade. intros Hlocked.
    rewrite Hlocked. cbn.
    now destruct (includes "longbowTraining" (purchasedUpgrades l)).
Qed.

Lemma longbowTraining_needs_the_round_upgrade_witness :
  purchaseUpgrade "longbowTraining"
    (set_manager (GameManager.set_gold 5000 GameManager.initial) initial)
  = (false, set_manager (GameManager.set_gold 5000 GameManager.initial) initial).
Proof.
  apply (proj2 (longbowTraining_needs_the_round_upgrade []
                  (set_manager (GameManager.set_gold 5000 GameManager.initial) initial))).
  reflexivity.
Defined.

Lemma step_keeps_lists_NoDup (c : Call) (l : t) :
  NoDup (roundUpgrades l) /\ NoDup (enemyUpgrades l) ->
  NoDup (roundUpgrades (step c l)) /\ NoDup (enemyUpgrades (step c l)).
Proof.
  intros [Hr He]. destruct c;
    cbn [step set_manager advanceRound roundUpgrades enemyUpgrades];
    try (split; assumption).
  - unfold spendXP. destruct (Z.geb _ _); split; assumption.
  - upgrade_cases upgradeId l; cbn [snd roundUpgrades enemyUpgrades];
      split; assumption.
  - unfold purchaseRoundUpgrade, spendXP, applyRoundUpgradeEffect.
    destruct (includes upgradeId (roundUpgrades l)) eqn:Hinc; [split; assumption|].
    apply includes_false in Hinc.
    destruct (Z.geb _ _); [|split; assumption]. cbn [snd].
    destruct (negb _); [|destruct (String.eqb upgradeId "unlockLongbowTraining")];
      cbn [roundUpgrades enemyUpgrades set_manager];
      (split; [now apply push_NoDup | exact He]).
  - unfold addEnemyUpgrade.
    destruct (includes upgradeId (enemyUpgrades l)) eqn:Hinc; [split; assumption|].
    apply includes_false in Hinc. cbn [roundUpgrades enemyUpgrades].
    split; [exact Hr | now apply push_NoDup].
Qed.

(** The lists of round upgrades and of enemy upgrades never hold an
    upgrade twice, whatever calls are made from a new game, so a round
    upgrade is charged at most once and an enemy upgrade is applied at
    most once. *)
Theorem upgrade_lists_hold_no_duplicates (calls : list Call) :
  NoDup (roundUpgrades (run calls initial)) /\
  NoDup (enemyUpgrades (run calls initial)).
Proof.
  assert (H : forall l, NoDup (roundUpgrades l) /\ NoDup (enemyUpgrades l) ->
                        NoDup (roundUpgrades (run calls l)) /\
                        NoDup (enemyUpgrades (run calls l))).
  { induction calls as [|c calls IH]; intros l Hl; [exact Hl|].
    cbn. apply IH. now apply step_keeps_lists_NoDup. }
  apply H. split; constructor.
Qed.

Lemma step_keeps_balances (c : Call) (l : t) :
  addsNonNegative c ->
  0 <= GameManager.gold (manager l) /\ 0 <= GameManager.xp (manager l) ->
  0 <= GameManager.gold (manager (step c l)) /\
  0 <= GameManager.xp (manager (step c l)).
Proof.
  intros Hc [Hg Hx]. destruct c; cbn [step set_manager manager advanceRound
    GameManager.gold GameManager.xp GameManager.addXP GameManager.setDifficulty
    addsNonNegative] in *.
  - split; [now apply addGold_keeps_nonneg|].
    unfold GameManager.addGold. exact Hx.
  - split; [now apply spendGold_keeps_nonneg|].
    unfold GameManager.spendGold. now destruct (Z.geb _ _).
  - split; [exact Hg | lia].
  - unfold spendXP. destruct (Z.geb_spec (GameManager.xp (manager l)) amount);
      cbn [snd manager set_manager GameManager.gold GameManager.xp];
      split; lia.
  - upgrade_cases upgradeId l; cbn [snd manager GameManager.gold GameManager.xp
      GameManager.set_gold]; try (split; assumption).
    apply Z.geb_le in Hgold. split; lia.
  - unfold purchaseRoundUpgrade, spendXP, applyRoundUpgradeEffect.
    destruct (includes upgradeId (roundUpgrades l)); [split; assumption|].
    destruct (Z.geb_spec (GameManager.xp (manager l)) cost); [|split; assumption].
    cbn [snd].
    destruct (negb _); [|destruct (String.eqb upgradeId "unlockLongbowTraining")];
      cbn [manager set_manager GameManager.gold GameManager.xp]; split; lia.
  - unfold addEnemyUpgrade. destruct (includes _ _); split; assumption.
  - split; assumption.
  - split; assumption.
Qed.

(** Neither balance goes negative: from non-negative gold and XP, after
    every prefix of every sequence of calls of the manager (purchases of
    upgrades and round upgrades included, the amounts added being
    non-negative), gold and XP are non-negative. *)
Theorem balances_never_negative (l : t) (calls done rest : list Call) :
  0 <= GameManager.gold (manager l) ->
  0 <= GameManager.xp (manager l) ->
  Forall addsNonNegative calls ->
  calls = done ++ rest ->
  0 <= GameManager.gold (manager (run done l)) /\
  0 <= GameManager.xp (manager (run done l)).
Proof.
  intros Hg Hx Hall ->. apply Forall_app in Hall as [Hdone _].
  clear rest. revert l Hg Hx.
  induction Hdone as [|c done Hc _ IH]; intros l Hg Hx; [now split|].
  cbn. destruct (step_keeps_balances c l Hc (conj Hg Hx)) as [Hg' Hx'].
  now apply IH.
Qed.

Lemma balances_never_negative_witness :
  0 <= GameManager.gold
         (manager (run [PurchaseUpgrade "reinforcedWalls"; AddXP 100;
                        PurchaseRoundUpgrade "unlockLongbowTraining" 200;
                        SpendGold 20]
                     initial)) /\
  0 <= GameManager.xp
         (manager (run [PurchaseUpgrade "reinforcedWalls"; AddXP 100;
                        PurchaseRoundUpgrade "unlockLongbowTraining" 200;
                        SpendGold 20]
                     initial)).
Proof.
  apply (balances_never_negative initial
           [PurchaseUpgrade "reinforcedWalls"; AddXP 100;
            PurchaseRoundUpgrade "unlockLongbowTraining" 200; SpendGold 20]
           _ []).
  - cbn. lia.
  - cbn. lia.
  - repeat constructor. cbn. lia.
  - symmetry. apply app_nil_r.
Defined.

(** A round upgrade is paid in XP at the price the caller names: the
    purchase succeeds exactly when the upgrade is not yet on the list and
    the XP covers the cost; it then takes the cost off the XP and appends
    the upgrade, and unlocks longbow training only for
    [unlockLongbowTraining] -- any other name is charged and recorded
    without effect.  A second purchase of the same upgrade is refused. *)
Theorem purchaseRoundUpgrade_charges_once (upgradeId : string) (cost : Z) (l : t) :
  let bought := purchaseRoundUpgrade upgradeId cost l in
  (fst bought = true <->
   ~ In upgradeId (roundUpgrades l) /\ cost <= GameManager.xp (manager l)) /\
  (fst bought = false -> snd bought = l) /\
  (fst bought = true ->
   GameManager.xp (manager (snd bought)) = GameManager.xp (manager l) - cost /\
   GameManager.gold (manager (snd bought)) = GameManager.gold (manager l) /\
   roundUpgrades (snd bought) = roundUpgrades l ++ [upgradeId] /\
   (upgradeId <> "unlockLongbowTraining"%string ->
    unlockedFeatures (snd bought) = unlockedFeatures l) /\
   (upgradeId = "unlockLongbowTraining"%string ->
    isFeatureUnlocked "longbowTraining" (snd bought) = true) /\
   forall again, purchaseRoundUpgrade upgradeId again (snd bought)
                 = (false, snd bought)).
Proof.
  cbv zeta. unfold purchaseRoundUpgrade, spendXP.
  destruct (includes upgradeId (roundUpgrades l)) eqn:Hinc.
  - apply includes_In in Hinc. cbn [fst snd].
    split; [split; [discriminate | tauto]|]. split; [reflexivity | discriminate].
  - apply includes_false in Hinc.
    destruct (Z.geb_spec (GameManager.xp (manager l)) cost) as [Hxp | Hxp];
      cbn [fst snd].
    + split; [split; [intros _; split; [exact Hinc | lia] | reflexivity]|].
      split; [discriminate|]. intros _.
      assert (Hagain : includes upgradeId (roundUpgrades l ++ [upgradeId]) = true)
        by (apply includes_In, in_app_iff; right; now left).
      unfold applyRoundUpgradeEffect, isRoundUpgrade.
      destruct (String.eqb_spec upgradeId "unlockLongbowTraining") as [Heq | Hne];
        cbn [negb manager set_manager roundUpgrades unlockedFeatures
             GameManager.gold GameManager.xp purchasedUpgrades enemyUpgrades];
        (split; [reflexivity|]); (split; [reflexivity|]); (split; [reflexivity|]).
      * split; [intros Hne; now elim Hne|]. split.
        -- intros _. unfold isFeatureUnlocked. cbn [unlockedFeatures].
           apply includes_In, setTrue_In. now left.
        -- intros again. now rewrite Hagain.
      * split; [reflexivity|]. split; [intros Heq; now elim Hne|].
        intros again. now rewrite Hagain.
    + split; [split; [discriminate | intros [_ H]; lia]|].
      split; [reflexivity | discriminate].
Qed.

Lemma purchaseRoundUpgrade_charges_once_witness :
  GameManager.xp
    (manager (snd (purchaseRoundUpgrade "unlockLongbowTraining" 200
                     (set_manager (GameManager.addXP 250 GameManager.initial) initial))))
  = 250 - 200.
Proof.
  apply (proj2 (proj2 (purchaseRoundUpgrade_charges_once "unlockLongbowTraining" 200
                         (set_manager (GameManager.addXP 250 GameManager.initial) initial)))
           eq_refl).
Defined.

End Upgrades.

Section Income.
Import GameManager.

Lemma resourceMultiplier_cases (g : t) :
  resourceMultiplier (getDifficultyParameters g) = 1%Q \/
  resourceMultiplier (getDifficultyParameters g) = (8 # 10)%Q \/
  resourceMultiplier (getDifficultyParameters g) = (6 # 10)%Q.
Proof.
  unfold getDifficultyParameters.
  destruct (difficulty g) as [d|]; [|now left].
  destruct (String.eqb d "hard"); [right; now left|].
  destruct (String.eqb d "insane"); [right; now right | now left].
Qed.

(** What the lookup of a unit's cost finds, name by name. *)
Lemma unitCosts_cases (unitType : string) :
  (unitType = "Light"%string /\ unitCosts unitType = JS.own 20) \/
  (unitType = "Ranged"%string /\ unitCosts unitType = JS.own 35) \/
  (unitType = "Heavy"%string /\ unitCosts unitType = JS.own 50) \/
  (In unitType JS.Object_prototype /\ unitCosts unitType = JS.inherited) \/
  (~ In unitType JS.Object_prototype /\ unitCosts unitType = JS.undefined).
Proof.
  unfold unitCosts, JS.member.
  destruct (String.eqb unitType "Light") eqn:E1;
    [apply String.eqb_eq in E1; now left|].
  destruct (String.eqb unitType "Ranged") eqn:E2;
    [apply String.eqb_eq in E2; right; now left|].
  destruct (String.eqb unitType "Heavy") eqn:E3;
    [apply String.eqb_eq in E3; right; right; now left|].
  destruct (existsb (String.eqb unitType) JS.Object_prototype) eqn:E.
  - right; right; right; left. split; [|reflexivity].
    apply existsb_exists in E. destruct E as (k & Hin & Hk).
    apply String.eqb_eq in Hk. now subst k.
  - right; right; right; right. split; [|reflexivity].
    intros Hin. apply not_true_iff_false in E. apply E.
    apply existsb_exists. exists unitType. split; [exact Hin|].
    apply String.eqb_refl.
Qed.

(** Kill rewards.  For a unit type named like a member of
    [Object.prototype] the cost found is that member and the reward is
    [NaN].  For every other unit type the reward is a number, at least 1
    gold -- also when the type has no cost entry -- and never more than
    the unit's cost (1 when there is none), and a harder difficulty
    never lowers it. *)
Theorem kill_reward_bounds (unitType : string) (g : t) :
  (In unitType JS.Object_prototype ->
   getUnitCost unitType = None /\ calculateKillReward unitType g = None) /\
  (~ In unitType JS.Object_prototype ->
   exists cost reward normal hard insane,
     getUnitCost unitType = Some cost /\
     calculateKillReward unitType g = Some reward /\
     1 <= reward <= Z.max 1 cost /\
     calculateKillReward unitType (setDifficulty "normal" g) = Some normal /\
     calculateKillReward unitType (setDifficulty "hard" g) = Some hard /\
     calculateKillReward unitType (setDifficulty "insane" g) = Some insane /\
     normal <= hard <= insane).
Proof.
  assert (Hstock : forall c, 0 <= c <= 50 ->
            unitCosts unitType = JS.own c \/
            (c = 0 /\ unitCosts unitType = JS.undefined) ->
            (c = 0 \/ c = 20 \/ c = 35 \/ c = 50) ->
            exists cost reward normal hard insane,
              getUnitCost unitType = Some cost /\
              calculateKillReward unitType g = Some reward /\
              1 <= reward <= Z.max 1 cost /\
              calculateKillReward unitType (setDifficulty "normal" g)
              = Some normal /\
              calculateKillReward unitType (setDifficulty "hard" g) = Some hard /\
              calculateKillReward unitType (setDifficulty "insane" g)
              = Some insane /\
              normal <= hard <= insane).
  { intros c Hc Hfound Hvalues.
    unfold getUnitCost, calculateKillReward.
    assert (Hcost :
      match unitCosts unitType with
      | JS.own c0 => Some (JS.orZ c0 0)
      | JS.inherited => None
      | JS.undefined => Some 0
      end = Some c).
    { destruct Hfound as [-> | [-> ->]]; [|reflexivity].
      unfold JS.orZ. destruct (Z.eqb_spec c 0) as [-> | _]; reflexivity. }
    rewrite Hcost. cbv zeta.
    cbn [getDifficultyParameters setDifficulty difficulty String.eqb Ascii.eqb
         Bool.eqb resourceMultiplier defaultParameters].
    do 5 eexists.
    split; [reflexivity|]. split; [reflexivity|].
    split; [|split; [reflexivity|split; [reflexivity|split; [reflexivity|]]]].
    - destruct (resourceMultiplier_cases g) as [-> | [-> | ->]];
        destruct Hvalues as [-> | [-> | [-> | ->]]];
        vm_compute; split; discriminate.
    - destruct Hvalues as [-> | [-> | [-> | ->]]];
        vm_compute; split; discriminate. }
  destruct (unitCosts_cases unitType)
    as [[-> E] | [[-> E] | [[-> E] | [[Hin E] | [Hout E]]]]].
  - split; [intros Hin; cbn in Hin; intuition discriminate|].
    intros _. apply (Hstock 20); [lia | now left | tauto].
  - split; [intros Hin; cbn in Hin; intuition discriminate|].
    intros _. apply (Hstock 35); [lia | now left | tauto].
  - split; [intros Hin; cbn in Hin; intuition discriminate|].
    intros _. apply (Hstock 50); [lia | now left | tauto].
  - split; [|intros Hout; now destruct (Hout Hin)].
    intros _. unfold getUnitCost, calculateKillReward. now rewrite E.
  - split; [intros Hin; now destruct (Hout Hin)|].
    intros _. apply (Hstock 0); [lia | now right | tauto].
Qed.

Lemma floor_scaled_bounds (amount : Z) (m : Q) :
  0 <= amount -> (0 <= m)%Q -> (m <= 1)%Q ->
  0 <= JS.Math_floor (inject_Z amount * m)%Q <= amount.
Proof.
  intros Ha Hm0 Hm1. unfold JS.Math_floor.
  assert (Hq : (0 <= inject_Z amount)%Q)
    by (change 0%Q with (inject_Z 0); now rewrite <- Zle_Qle).
  split.
  - change 0 with (Qfloor 0). apply Qfloor_resp_le.
    now apply Qmult_le_0_compat.
  - rewrite <- (Qfloor_Z amount) at 2. apply Qfloor_resp_le.
    rewrite <- (Qmult_1_r (inject_Z amount)) at 2.
    rewrite (Qmult_comm (inject_Z amount) m), (Qmult_comm (inject_Z amount) 1).
    now apply Qmult_le_compat_r.
Qed.

(** Passive income is scaled by the difficulty and rounded down: it adds
    between 0 and the amount, all of it on normal difficulty; gold from
    any other source is added in full.  Nothing else changes. *)
Theorem passive_income_is_scaled_not_other_gold
    (amount : Z) (source : string) (g : t) :
  xp (addGold amount source g) = xp g /\
  currentRound (addGold amount source g) = currentRound g /\
  difficulty (addGold amount source g) = difficulty g /\
  (source <> "passive"%string -> gold (addGold amount source g) = gold g + amount) /\
  (0 <= amount ->
   gold g <= gold (addGold amount "passive" g) <= gold g + amount) /\
  (resourceMultiplier (getDifficultyParameters g) = 1%Q ->
   gold (addGold amount "passive" g) = gold g + amount).
Proof.
  repeat split; try reflexivity.
  - intros Hne. unfold addGold. cbn [gold set_gold].
    destruct (String.eqb_spec source "passive"); [contradiction | reflexivity].
  - unfold addGold. cbn [gold set_gold String.eqb Ascii.eqb Bool.eqb].
    assert (Hm := resourceMultiplier_cases g).
    pose proof (floor_scaled_bounds amount
                  (resourceMultiplier (getDifficultyParameters g)) H) as Hb.
    destruct Hm as [E | [E | E]]; rewrite E in *;
      specialize (Hb ltac:(discriminate) ltac:(discriminate)); lia.
  - unfold addGold. cbn [gold set_gold String.eqb Ascii.eqb Bool.eqb].
    assert (Hm := resourceMultiplier_cases g).
    pose proof (floor_scaled_bounds amount
                  (resourceMultiplier (getDifficultyParameters g)) H) as Hb.
    destruct Hm as [E | [E | E]]; rewrite E in *;
      specialize (Hb ltac:(discriminate) ltac:(discriminate)); lia.
  - intros Hone. unfold addGold. cbn [gold set_gold String.eqb Ascii.eqb Bool.eqb].
    rewrite Hone. unfold JS.Math_floor.
    rewrite (Qfloor_comp _ (inject_Z amount)) by ring.
    now rewrite Qfloor_Z.
Qed.

Lemma passive_income_is_scaled_not_other_gold_witness :
  gold initial <= gold (addGold 20 "passive" (setDifficulty "insane" initial))
  <= gold initial + 20.
Proof.
  apply (proj1 (proj2 (proj2 (proj2 (proj2
           (passive_income_is_scaled_not_other_gold 20 "passive"
              (setDifficulty "insane" initial))))))).
  lia.
Defined.

End Income.

Section BetweenRounds.
Import UpgradeScene.

Lemma getEnemyUpgradeEffects_boost (l : Ledger.t) :
  Ledger.getEnemyUpgradeEffects l
  = if Ledger.includes "enemyBaseHealthBoost" (Ledger.enemyUpgrades l)
    then [("enemyBaseHealthBoost"%string, 12 # 10)] else [].
Proof.
  unfold Ledger.getEnemyUpgradeEffects.
  set (f := fun effects upgradeId =>
              match Ledger.enemyUpgradeConfig upgradeId with
              | Some (key, value) => Ledger.assign key value effects
              | None => effects
              end).
  assert (Hon : forall ids,
            fold_left f ids [("enemyBaseHealthBoost"%string, 12 # 10)]
            = [("enemyBaseHealthBoost"%string, 12 # 10)]).
  { induction ids as [|id ids IH]; [reflexivity|]. cbn [fold_left].
    unfold f at 2, Ledger.enemyUpgradeConfig.
    destruct (String.eqb id "enemyBaseHealthBoost"); exact IH. }
  induction (Ledger.enemyUpgrades l) as [|id ids IH]; [reflexivity|].
  cbn [fold_left Ledger.includes existsb].
  unfold f at 2, Ledger.enemyUpgradeConfig.
  rewrite (String.eqb_sym "enemyBaseHealthBoost" id).
  destruct (String.eqb id "enemyBaseHealthBoost"); cbn [orb Ledger.assign].
  - apply Hon.
  - exact IH.
Qed.

(** Each round starts with a player base of 300 health, whatever was
    purchased before, and an enemy base of 300 health, or 360 once the
    enemy upgrade [enemyBaseHealthBoost] is on the list (other or repeated
    entries make no difference). *)
Theorem bases_of_a_round (l : Ledger.t) :
  Base.health (fst (createBases l)) = 300 /\
  Base.maxHealth (fst (createBases l)) = 300 /\
  Base.isPlayerBase (fst (createBases l)) = true /\
  Base.isPlayerBase (snd (createBases l)) = false /\
  Base.health (snd (createBases l)) = Base.maxHealth (snd (createBases l)) /\
  Base.health (snd (createBases l))
  = (if Ledger.includes "enemyBaseHealthBoost" (Ledger.enemyUpgrades l)
     then 360 else 300).
Proof.
  unfold createBases. rewrite getEnemyUpgradeEffects_boost.
  destruct (Ledger.includes _ _); repeat split.
Qed.

Lemma step_without_xp (c : Call) (sc : t) (l : Ledger.t) :
  selectedPlayerUpgrade sc = None ->
  GameManager.currentRound (Ledger.manager l) = 1 ->
  GameManager.xp (Ledger.manager l) < 200 ->
  exists sc' l',
    step c (sc, l) = (sc', l', false) /\
    selectedPlayerUpgrade sc' = None /\
    Ledger.manager l' = Ledger.manager l /\
    Ledger.roundUpgrades l' = Ledger.roundUpgrades l /\
    Ledger.unlockedFeatures l' = Ledger.unlockedFeatures l.
Proof.
  intros Hsel Hround Hxp. destruct c as [id | id |]; cbn [step].
  - unfold selectPlayerUpgrade, getPlayerUpgradesForCurrentRound, findOffer.
    rewrite Hround. cbn [Z.eqb Pos.eqb find fst].
    destruct (String.eqb "unlockLongbowTraining" id).
    + replace (GameManager.xp (Ledger.manager l) <? 200) with true
        by (symmetry; now apply Z.ltb_lt).
      now exists sc, l.
    + now exists sc, l.
  - unfold selectEnemyUpgrade. destruct (existsb _ _).
    + eexists _, _. split; [reflexivity|]. cbn [selectedPlayerUpgrade].
      unfold Ledger.addEnemyUpgrade. now destruct (Ledger.includes _ _).
    + now exists sc, l.
  - unfold startNextRound. rewrite Hsel. cbn [chosen negb orb].
    now exists sc, l.
Qed.

(** Short of XP there is no way on: in the upgrade scene of round 1, with
    no player upgrade selected yet and less than the 200 XP the only
    offer costs, no sequence of calls of [selectPlayerUpgrade],
    [selectEnemyUpgrade] and [startNextRound] starts the next round,
    selects a player upgrade, or changes round, gold, XP, round upgrades
    or features. *)
Theorem short_of_xp_the_round_never_advances
    (calls : list Call) (sc : t) (l : Ledger.t) :
  selectedPlayerUpgrade sc = None ->
  GameManager.currentRound (Ledger.manager l) = 1 ->
  GameManager.xp (Ledger.manager l) < 200 ->
  let result := run step calls (sc, l) in
  snd result = false /\
  selectedPlayerUpgrade (fst (fst result)) = None /\
  Ledger.manager (snd (fst result)) = Ledger.manager l /\
  Ledger.roundUpgrades (snd (fst result)) = Ledger.roundUpgrades l /\
  Ledger.unlockedFeatures (snd (fst result)) = Ledger.unlockedFeatures l.
Proof.
  revert sc l. induction calls as [|c calls IH]; intros sc l Hsel Hround Hxp.
  - cbn. repeat split; assumption.
  - cbn [run].
    destruct (step_without_xp c sc l Hsel Hround Hxp)
      as (sc' & l' & -> & Hsel' & Hm & Hr & Hu).
    specialize (IH sc' l' Hsel'). rewrite Hm, Hr, Hu in IH.
    apply IH; assumption.
Qed.

Lemma short_of_xp_the_round_never_advances_witness :
  snd (run step [SelectPlayer "unlockLongbowTraining";
                 SelectEnemy "enemyBaseHealthBoost"; Start]
         (new, Ledger.set_manager
                 (GameManager.addXP 100 GameManager.initial) Ledger.initial))
  = false.
Proof.
  apply (short_of_xp_the_round_never_advances
           [SelectPlayer "unlockLongbowTraining";
            SelectEnemy "enemyBaseHealthBoost"; Start]
           new
           (Ledger.set_manager (GameManager.addXP 100 GameManager.initial)
              Ledger.initial)).
  - reflexivity.
  - reflexivity.
  - cbn. lia.
Defined.

(** After round 1 the scene offers nothing: once [create()] has run in a
    round other than 1, no sequence of clicks changes anything or starts
    the next round -- the start button stays disabled, since only a
    selected enemy upgrade enables it. *)
Theorem after_round_one_no_click_starts_a_round
    (calls : list Call) (sc : t) (l : Ledger.t) :
  GameManager.currentRound (Ledger.manager l) <> 1 ->
  run click calls (create sc, l) = (create sc, l, false).
Proof.
  intros Hround. apply Z.eqb_neq in Hround.
  induction calls as [|c calls IH]; [reflexivity|].
  cbn [run].
  assert (Hc : click c (create sc, l) = (create sc, l, false)).
  { destruct c as [id | id |]; cbn [click step fst create enemySectionEnabled
      startEnabled]; try reflexivity.
    unfold selectPlayerUpgrade, getPlayerUpgradesForCurrentRound, findOffer.
    now rewrite Hround. }
  rewrite Hc. exact IH.
Qed.

Lemma after_round_one_no_click_starts_a_round_witness :
  run click [SelectPlayer "unlockLongbowTraining";
             SelectEnemy "enemyBaseHealthBoost"; Start]
    (create (mk (Some "unlockLongbowTraining"%string)
                (Some "enemyBaseHealthBoost"%string) true false),
     Ledger.advanceRound Ledger.initial)
  = (create (mk (Some "unlockLongbowTraining"%string)
                (Some "enemyBaseHealthBoost"%string) true false),
     Ledger.advanceRound Ledger.initial, false).
Proof.
  apply (after_round_one_no_click_starts_a_round
           [SelectPlayer "unlockLongbowTraining";
            SelectEnemy "enemyBaseHealthBoost"; Start]
           (mk (Some "unlockLongbowTraining"%string)
               (Some "enemyBaseHealthBoost"%string) true false)
           (Ledger.advanceRound Ledger.initial)).
  cbn. discriminate.
Defined.

Lemma selectPlayer_with_xp (sc : t) (l : Ledger.t) :
  selectedPlayerUpgrade sc = None ->
  GameManager.currentRound (Ledger.manager l) = 1 ->
  200 <= GameManager.xp (Ledger.manager l) ->
  selectPlayerUpgrade "unlockLongbowTraining" (create sc, l)
  = (mk (Some "unlockLongbowTraining"%string) (selectedEnemyUpgrade sc) true false,
     snd (Ledger.purchaseRoundUpgrade "unlockLongbowTraining" 200 l)).
Proof.
  intros Hsel Hround Hxp.
  unfold selectPlayerUpgrade, getPlayerUpgradesForCurrentRound, findOffer.
  rewrite Hround. cbn [Z.eqb Pos.eqb find fst String.eqb Ascii.eqb Bool.eqb].
  replace (GameManager.xp (Ledger.manager l) <? 200) with false
    by (symmetry; apply Z.ltb_ge; lia).
  cbn [create selectedPlayerUpgrade selectedEnemyUpgrade startEnabled].
  now rewrite Hsel.
Qed.

Lemma round_upgrade_bought (l : Ledger.t) :
  200 <= GameManager.xp (Ledger.manager l) ->
  ~ In "unlockLongbowTraining"%string (Ledger.roundUpgrades l) ->
  snd (Ledger.purchaseRoundUpgrade "unlockLongbowTraining" 200 l)
  = {| Ledger.manager :=
         {| GameManager.difficulty := GameManager.difficulty (Ledger.manager l);
            GameManager.currentRound := GameManager.currentRound (Ledger.manager l);
            GameManager.gold := GameManager.gold (Ledger.manager l);
            GameManager.xp := GameManager.xp (Ledger.manager l) - 200 |};
       Ledger.purchasedUpgrades := Ledger.purchasedUpgrades l;
       Ledger.roundUpgrades := Ledger.roundUpgrades l ++ ["unlockLongbowTraining"%string];
       Ledger.enemyUpgrades := Ledger.enemyUpgrades l;
       Ledger.unlockedFeatures :=
         Ledger.setTrue "longbowTraining" (Ledger.unlockedFeatures l) |}.
Proof.
  intros Hxp Hnew. apply includes_false in Hnew.
  unfold Ledger.purchaseRoundUpgrade, Ledger.spendXP. rewrite Hnew.
  replace (GameManager.xp (Ledger.manager l) >=? 200) with true
    by (symmetry; apply Z.geb_le; lia).
  reflexivity.
Qed.

Lemma selectEnemy_in_round_one (sc : t) (l : Ledger.t) :
  GameManager.currentRound (Ledger.manager l) = 1 ->
  selectEnemyUpgrade "enemyBaseHealthBoost" (sc, l)
  = (mk (selectedPlayerUpgrade sc) (Some "enemyBaseHealthBoost"%string)
        (enemySectionEnabled sc) true,
     Ledger.addEnemyUpgrade "enemyBaseHealthBoost" l).
Proof.
  intros Hround. unfold selectEnemyUpgrade, getEnemyUpgradesForCurrentRound.
  now rewrite Hround.
Qed.

Lemma addEnemyUpgrade_frame (upgradeId : string) (l : Ledger.t) :
  Ledger.manager (Ledger.addEnemyUpgrade upgradeId l) = Ledger.manager l /\
  Ledger.unlockedFeatures (Ledger.addEnemyUpgrade upgradeId l)
  = Ledger.unlockedFeatures l /\
  Ledger.includes upgradeId
    (Ledger.enemyUpgrades (Ledger.addEnemyUpgrade upgradeId l)) = true.
Proof.
  unfold Ledger.addEnemyUpgrade.
  destruct (Ledger.includes upgradeId (Ledger.enemyUpgrades l)) eqn:E;
    cbn [Ledger.manager Ledger.unlockedFeatures Ledger.enemyUpgrades].
  - now repeat split.
  - repeat split. apply includes_In, in_app_iff. right. now left.
Qed.

(** With the XP for it, round 1 ends as intended: entering the scene with
    no selection made, at least 200 XP and the round upgrade not yet
    bought, the clicks player upgrade, enemy upgrade, start lead to round
    2 with 200 XP less and the same gold, longbow training unlocked, and
    an enemy base of 360 health against a player base of 300. *)
Theorem round_one_upgrades_lead_to_round_two (sc : t) (l : Ledger.t) :
  selectedPlayerUpgrade sc = None ->
  GameManager.currentRound (Ledger.manager l) = 1 ->
  200 <= GameManager.xp (Ledger.manager l) ->
  ~ In "unlockLongbowTraining"%string (Ledger.roundUpgrades l) ->
  let result :=
    run click [SelectPlayer "unlockLongbowTraining";
               SelectEnemy "enemyBaseHealthBoost"; Start] (create sc, l) in
  let l' := snd (fst result) in
  snd result = true /\
  GameManager.currentRound (Ledger.manager l') = 2 /\
  GameManager.xp (Ledger.manager l') = GameManager.xp (Ledger.manager l) - 200 /\
  GameManager.gold (Ledger.manager l') = GameManager.gold (Ledger.manager l) /\
  Ledger.isFeatureUnlocked "longbowTraining" l' = true /\
  Base.health (snd (createBases l')) = 360 /\
  Base.health (fst (createBases l')) = 300.
Proof.
  intros Hsel Hround Hxp Hnew. cbv zeta.
  cbn [run click step].
  rewrite (selectPlayer_with_xp sc l Hsel Hround Hxp).
  rewrite (round_upgrade_bought l Hxp Hnew).
  cbn [fst enemySectionEnabled].
  rewrite selectEnemy_in_round_one by exact Hround.
  cbn [fst startEnabled startNextRound selectedPlayerUpgrade selectedEnemyUpgrade
       chosen JS.truthyS negb orb snd enemySectionEnabled].
  set (l1 := {| Ledger.manager := _ |}).
  destruct (addEnemyUpgrade_frame "enemyBaseHealthBoost" l1) as (Hm & Hu & He).
  unfold Ledger.advanceRound, Ledger.isFeatureUnlocked, createBases.
  rewrite getEnemyUpgradeEffects_boost.
  cbn [Ledger.manager Ledger.set_manager Ledger.unlockedFeatures
       Ledger.enemyUpgrades GameManager.currentRound GameManager.xp
       GameManager.gold].
  rewrite Hm, Hu, He. subst l1.
  cbn [Ledger.manager Ledger.unlockedFeatures GameManager.currentRound
       GameManager.xp GameManager.gold fst snd Base.health].
  rewrite Hround.
  repeat split.
  apply includes_In, setTrue_In. now left.
Qed.

Lemma round_one_upgrades_lead_to_round_two_witness :
  snd (run click [SelectPlayer "unlockLongbowTraining";
                  SelectEnemy "enemyBaseHealthBoost"; Start]
         (create new,
          Ledger.set_manager (GameManager.addXP 230 GameManager.initial)
            Ledger.initial))
  = true.
Proof.
  apply (round_one_upgrades_lead_to_round_two new
           (Ledger.set_manager (GameManager.addXP 230 GameManager.initial)
              Ledger.initial)).
  - reflexivity.
  - reflexivity.
  - cbn. lia.
  - intros [].
Defined.

End BetweenRounds.

Section Platforms.
Import Platform.

Lemma JS_ge_false_iff (a b : Q) : JS.ge a b = false <-> (a < b)%Q.
Proof. unfold JS.ge. apply JS_le_false_iff. Qed.

(** Turns the tests on times found in the goal and the context into
    inequalities. *)
Ltac time_tests :=
  repeat match goal with
  | H : JS.ge _ _ = true |- _ => apply JS_ge_iff in H
  | H : JS.ge _ _ = false |- _ => apply JS_ge_false_iff in H
  | H : JS.lt _ _ = true |- _ => apply JS_lt_iff in H
  | H : JS.lt _ _ = false |- _ => apply JS_lt_false_iff in H
  end.

Lemma startBlinking_keeps (p : t) :
  markedForDestroy (startBlinking p) = markedForDestroy p /\
  isFadingOut (startBlinking p) = isFadingOut p /\
  options (startBlinking p) = options p /\
  sprite (startBlinking p) = sprite p /\
  collidesUp (startBlinking p) = collidesUp p /\
  creationTime (startBlinking p) = creationTime p.
Proof. unfold startBlinking. destruct (isBlinking p); repeat split. Qed.

Lemma startFadeOut_sets (p : t) :
  markedForDestroy (startFadeOut p) = markedForDestroy p /\
  isFadingOut (startFadeOut p) = true /\
  sprite (startFadeOut p) = sprite p /\
  creationTime (startFadeOut p) = creationTime p /\
  duration (options (startFadeOut p)) = duration (options p) /\
  fadeOutTime (options (startFadeOut p)) = fadeOutTime (options p) /\
  blinkTime (options (startFadeOut p)) = blinkTime (options p) /\
  (isFadingOut p = false ->
   solid (options (startFadeOut p)) = false /\
   (sprite p <> None -> collidesUp (startFadeOut p) = false)).
Proof.
  unfold startFadeOut. destruct (isFadingOut p) eqn:E; repeat split;
    try assumption; try discriminate.
  cbn. intros Hs. destruct (sprite p); [reflexivity | contradiction].
Qed.

(** What one frame does to a living platform, by its age: from
    [duration] on it is destroyed, and only then; from
    [duration - fadeOutTime] on it is fading, and if the fade starts in
    this frame it stops being solid; before that its fade flag, solidity
    and sprite are as they were; and before
    [duration - blinkTime - fadeOutTime] the frame changes nothing. *)
Theorem platform_frame_by_age (now : Q) (p : t) :
  markedForDestroy p = false ->
  (0 <= fadeOutTime (options p))%Q ->
  (0 <= blinkTime (options p))%Q ->
  let age := (now - creationTime p)%Q in
  let o := options p in
  let p' := update now p in
  (markedForDestroy p' = true <-> (duration o <= age)%Q) /\
  ((duration o - fadeOutTime o <= age)%Q ->
   isFadingOut p' = true /\
   (isFadingOut p = false -> solid (options p') = false)) /\
  ((age < duration o - fadeOutTime o)%Q ->
   isFadingOut p' = isFadingOut p /\
   solid (options p') = solid o /\
   collidesUp p' = collidesUp p /\
   sprite p' = sprite p) /\
  ((age < duration o - blinkTime o - fadeOutTime o)%Q -> p' = p).
Proof.
  intros Halive Hfade Hblink. cbv zeta. unfold update. rewrite Halive.
  set (age := (now - creationTime p)%Q) in *.
  set (o := options p) in *.
  set (p1 := if negb (isBlinking p) && negb (isFadingOut p)
                && JS.ge age (duration o - blinkTime o - fadeOutTime o)
             then startBlinking p else p).
  assert (H1 : markedForDestroy p1 = false /\ isFadingOut p1 = isFadingOut p /\
               options p1 = o /\ sprite p1 = sprite p /\
               collidesUp p1 = collidesUp p /\
               ((age < duration o - blinkTime o - fadeOutTime o)%Q -> p1 = p)).
  { subst p1.
    destruct (JS.ge age (duration o - blinkTime o - fadeOutTime o)) eqn:Hbl;
      time_tests.
    - destruct (negb (isBlinking p) && negb (isFadingOut p)); cbn [andb].
      + destruct (startBlinking_keeps p) as (-> & -> & -> & -> & -> & _).
        repeat split; try assumption. intros. exfalso. lra.
      + repeat split; try assumption.
    - rewrite andb_false_r. repeat split; assumption. }
  destruct H1 as (Hm1 & Hf1 & Ho1 & Hs1 & Hc1 & Hid1).
  set (p2 := if negb (isFadingOut p1) && JS.ge age (duration o - fadeOutTime o)
             then startFadeOut p1 else p1).
  assert (H2 : markedForDestroy p2 = false /\
               ((duration o - fadeOutTime o <= age)%Q ->
                isFadingOut p2 = true /\
                (isFadingOut p = false -> solid (options p2) = false)) /\
               ((age < duration o - fadeOutTime o)%Q -> p2 = p1)).
  { subst p2.
    destruct (JS.ge age (duration o - fadeOutTime o)) eqn:Hfd; time_tests.
    - destruct (isFadingOut p1) eqn:Ef1; cbn [negb andb].
      + split; [exact Hm1|]. split; [|intros; exfalso; lra].
        intros _. split; [exact Ef1|]. intros Ef. congruence.
      + destruct (startFadeOut_sets p1) as (-> & -> & _ & _ & _ & _ & _ & Hsolid).
        split; [exact Hm1|]. split; [|intros; exfalso; lra].
        intros _. split; [reflexivity|]. intros _. now apply Hsolid.
    - rewrite andb_false_r. split; [exact Hm1|].
      split; [intros; exfalso; lra | reflexivity]. }
  destruct H2 as (Hm2 & Hfade2 & Hid2).
  destruct (JS.ge age (duration o)) eqn:Hend; time_tests.
  - split; [split; [intros _; exact Hend | reflexivity]|].
    split.
    { intros Hge. destruct (Hfade2 Hge) as [Hf Hs]. split; [exact Hf | exact Hs]. }
    split; intros; exfalso; lra.
  - split; [split; [rewrite Hm2; discriminate | intros; exfalso; lra]|].
    split; [exact Hfade2|].
    split.
    + intros Hlt. rewrite (Hid2 Hlt). now rewrite Hf1, Ho1, Hc1, Hs1.
    + intros Hlt. rewrite Hid2 by lra. now apply Hid1.
Qed.

Lemma platform_frame_by_age_witness :
  markedForDestroy (update 6100 (setSolid true (new 100 0 0 70 6000))) = true <->
  (duration (options (setSolid true (new 100 0 0 70 6000)))
   <= 6100 - creationTime (setSolid true (new 100 0 0 70 6000)))%Q.
Proof.
  apply (proj1 (platform_frame_by_age 6100 (setSolid true (new 100 0 0 70 6000))
                  eq_refl ltac:(discriminate) ltac:(discriminate))).
Defined.

(** Names the two intermediate platforms of [update]. *)
Ltac name_stages p p1 p2 :=
  match goal with
  | |- context [if ?c then startBlinking p else p] =>
      set (p1 := if c then startBlinking p else p)
  end;
  match goal with
  | |- context [if ?c then startFadeOut p1 else p1] =>
      set (p2 := if c then startFadeOut p1 else p1)
  end.

Lemma update_fade_flag (now : Q) (p : t) :
  isFadingOut p = true -> isFadingOut (update now p) = true.
Proof.
  intros Hf. unfold update. destruct (markedForDestroy p); [exact Hf|].
  rewrite Hf. cbn [negb andb]. rewrite andb_false_r. cbn [negb andb].
  rewrite Hf. cbn [negb andb].
  now destruct (JS.ge _ _).
Qed.

Lemma step_consistent (e : Event) (p : t) :
  platformConsistent p -> platformConsistent (step e p).
Proof.
  intros Hp. pose proof Hp as (Hfade & Hmark & Hgone).
  destruct e as [now | |]; cbn [step].
  - unfold update. destruct (markedForDestroy p) eqn:Em; [exact Hp|].
    assert (Hsp : sprite p <> None) by (intros H; apply Hgone in H; congruence).
    name_stages p p1 p2.
    assert (H1 : markedForDestroy p1 = false /\ isFadingOut p1 = isFadingOut p /\
                 options p1 = options p /\ sprite p1 = sprite p /\
                 collidesUp p1 = collidesUp p).
    { subst p2 p1. destruct (_ && _).
      - destruct (startBlinking_keeps p) as (-> & -> & -> & -> & -> & _).
        now repeat split.
      - now repeat split. }
    destruct H1 as (Hm1 & Hf1 & Ho1 & Hs1 & Hc1). clearbody p1.
    assert (H2 : markedForDestroy p2 = false /\ sprite p2 = sprite p /\
                 (isFadingOut p2 = true ->
                  solid (options p2) = false /\ collidesUp p2 = false)).
    { subst p2. destruct (isFadingOut p1) eqn:Ef1; cbn [negb andb].
      - split; [exact Hm1|]. split; [exact Hs1|]. intros _.
        rewrite Ho1, Hc1. apply Hfade. congruence.
      - destruct (JS.ge _ _).
        + destruct (startFadeOut_sets p1) as (-> & _ & -> & _ & _ & _ & _ & Hsolid).
          split; [exact Hm1|]. split; [exact Hs1|]. intros _.
          destruct (Hsolid Ef1) as [Hso Hcu]. split; [exact Hso|].
          apply Hcu. now rewrite Hs1.
        + split; [exact Hm1|]. split; [exact Hs1|]. congruence. }
    destruct H2 as (Hm2 & Hs2 & Hfade2). clearbody p2.
    destruct (JS.ge _ (duration (options p))).
    + split; [exact Hfade2|]. split; [now split|]. reflexivity.
    + split; [exact Hfade2|]. split; [congruence|]. congruence.
  - unfold forceDespawn. destruct (isFadingOut p) eqn:Ef; cbn [orb]; [exact Hp|].
    destruct (markedForDestroy p) eqn:Em; [exact Hp|].
    assert (Hsp : sprite p <> None) by (intros H; apply Hgone in H; congruence).
    split; [|split]; cbn.
    + intros _. split; [reflexivity|]. now destruct (sprite p).
    + congruence.
    + intros H. contradiction.
  - split; [|split]; cbn; [exact Hfade | now split | reflexivity].
Qed.

Lemma step_when_destroyed (e : Event) (p : t) :
  platformConsistent p -> markedForDestroy p = true -> step e p = p.
Proof.
  intros (_ & Hmark & _) Hm. destruct (Hmark Hm) as [Hs Hb].
  destruct e as [now | |]; cbn [step].
  - unfold update. now rewrite Hm.
  - unfold forceDespawn. rewrite Hm. now rewrite orb_true_r.
  - unfold destroy. destruct p; cbn in *. now subst.
Qed.

Lemma step_fade_flag (e : Event) (p : t) :
  isFadingOut p = true -> isFadingOut (step e p) = true.
Proof.
  intros Hf. destruct e as [now | |]; cbn [step].
  - now apply update_fade_flag.
  - unfold forceDespawn. now rewrite Hf.
  - exact Hf.
Qed.

Lemma run_consistent (events : list Event) (p : t) :
  platformConsistent p -> platformConsistent (run events p).
Proof.
  revert p. induction events as [|e events IH]; intros p Hp; [exact Hp|].
  cbn. apply IH. now apply step_consistent.
Qed.

Lemma summoned_consistent (now px py w d : Q) :
  platformConsistent (setSolid true (new now px py w d)).
Proof. split; [|split]; cbn; discriminate. Qed.

(** A platform's life runs one way.  For a summoned platform, whatever
    frames, forced despawns and ends of fades it goes through: once it is
    fading it keeps fading and is not solid (neither by its option nor by
    its body); once it is destroyed nothing changes it any more; and it is
    marked for destruction exactly when its sprite is gone. *)
Theorem platform_life_runs_one_way (now px py w d : Q) (events more : list Event) :
  let p := run events (setSolid true (new now px py w d)) in
  let p' := run more p in
  (isFadingOut p = true ->
   isFadingOut p' = true /\ solid (options p') = false /\ collidesUp p' = false) /\
  (markedForDestroy p = true -> p' = p) /\
  (markedForDestroy p = true <-> sprite p = None).
Proof.
  cbv zeta.
  pose proof (run_consistent events _ (summoned_consistent now px py w d)) as Hp.
  set (p := run events (setSolid true (new now px py w d))) in *.
  clearbody p.
  split; [|split].
  - intros Hf.
    assert (Hf' : isFadingOut (run more p) = true).
    { clear Hp. revert p Hf. induction more as [|e more IH]; intros p Hf;
        [exact Hf|]. cbn. apply IH. now apply step_fade_flag. }
    split; [exact Hf'|].
    now apply (run_consistent more p Hp).
  - intros Hm. revert Hp Hm. generalize p. clear p.
    induction more as [|e more IH]; intros p Hp Hm; [reflexivity|].
    cbn. rewrite (step_when_destroyed e p Hp Hm). now apply IH.
  - destruct Hp as (_ & Hmark & Hgone). split; [apply Hmark | exact Hgone].
Qed.

Lemma platform_life_runs_one_way_witness :
  let p := run [Frame 3000; ForceDespawn] (setSolid true (new 0 200 430 70 6000)) in
  isFadingOut (run [Frame 3100; Frame 3200] p) = true /\
  solid (options (run [Frame 3100; Frame 3200] p)) = false /\
  collidesUp (run [Frame 3100; Frame 3200] p) = false.
Proof.
  cbv zeta.
  apply (proj1 (platform_life_runs_one_way 0 200 430 70 6000
                  [Frame 3000; ForceDespawn] [Frame 3100; Frame 3200])).
  reflexivity.
Defined.




End Platforms.

(** ** The platform ability of the hero *)

Section PlatformAbility.

Import Summoner.

Lemma forceDespawn_keeps_mark (p : Platform.t) :
  Platform.markedForDestroy (Platform.forceDespawn p) = Platform.markedForDestroy p.
Proof. unfold Platform.forceDespawn. now destruct (_ || _). Qed.

Lemma forceDespawn_consistent (p : Platform.t) :
  platformConsistent p -> platformConsistent (Platform.forceDespawn p).
Proof. apply (step_consistent Platform.ForceDespawn). Qed.

Lemma update_consistent (now : Q) (p : Platform.t) :
  platformConsistent p -> platformConsistent (Platform.update now p).
Proof. apply (step_consistent (Platform.Frame now)). Qed.

Lemma abilityInv_new : abilityInv new.
Proof. split; [reflexivity | reflexivity]. Qed.

Lemma fireCooldownTimer_frame (now : Q) (s : t) :
  platforms (fireCooldownTimer now s) = platforms s /\
  nextPlatform (fireCooldownTimer now s) = nextPlatform s /\
  activePlatform (fireCooldownTimer now s) = activePlatform s /\
  platformCooldown (fireCooldownTimer now s) = platformCooldown s /\
  platformDuration (fireCooldownTimer now s) = platformDuration s /\
  platformWidth (fireCooldownTimer now s) = platformWidth s /\
  lastPlatformSummon (fireCooldownTimer now s) = lastPlatformSummon s /\
  isSpaceKeyDown (fireCooldownTimer now s) = isSpaceKeyDown s.
Proof.
  unfold fireCooldownTimer. destruct (cooldownTimer s); [|now repeat split].
  destruct (JS.ge now q); now repeat split.
Qed.

Lemma updatePlatformCooldown_frame (now : Q) (h : Hero.t) (s : t) :
  platforms (updatePlatformCooldown now h s) = platforms s /\
  nextPlatform (updatePlatformCooldown now h s) = nextPlatform s /\
  activePlatform (updatePlatformCooldown now h s) = activePlatform s /\
  platformCooldown (updatePlatformCooldown now h s) = platformCooldown s /\
  platformDuration (updatePlatformCooldown now h s) = platformDuration s /\
  platformWidth (updatePlatformCooldown now h s) = platformWidth s /\
  lastPlatformSummon (updatePlatformCooldown now h s) = lastPlatformSummon s /\
  isSpaceKeyDown (updatePlatformCooldown now h s) = isSpaceKeyDown s.
Proof.
  unfold updatePlatformCooldown.
  destruct (negb _); [now repeat split|].
  destruct (canSummonPlatform s); [now repeat split|].
  destruct (JS.ge _ _); now repeat split.
Qed.


Lemma despawnStandingOn_one (h : Hero.t) (vy : Q) (id : nat) (p : Platform.t) :
  despawnStandingOn h vy [(id, p)] = [(id, p)] \/
  despawnStandingOn h vy [(id, p)] = [(id, Platform.forceDespawn p)].
Proof. cbn. destruct (isOnPlatform h vy p); [now right | now left]. Qed.

Lemma despawnStandingOn_nil (h : Hero.t) (vy : Q) (l : list (nat * Platform.t)) :
  despawnStandingOn h vy l = [] -> l = [].
Proof.
  destruct l as [|[id p] rest]; [reflexivity|]. cbn.
  destruct (isOnPlatform h vy p); discriminate.
Qed.

Lemma summonPlatform_frame (now : Q) (h : Hero.t) (s : t) :
  platformCooldown (summonPlatform now h s) = platformCooldown s /\
  lastPlatformSummon (summonPlatform now h s) = lastPlatformSummon s /\
  (platforms (summonPlatform now h s) = [] -> platforms s = []) /\
  (platforms s <> [] -> summonPlatform now h s = s).
Proof.
  unfold summonPlatform. destruct (JS.lt _ _); [now repeat split|].
  destruct (platforms s) eqn:Ep;
    [|repeat split; intros; cbn in *; congruence].
  destruct (activePlatform s); repeat split; intros; cbn in *; congruence.
Qed.

Lemma summonPlatform_inv (now : Q) (h : Hero.t) (s : t) :
  abilityInv s -> abilityInv (summonPlatform now h s).
Proof.
  intros [Hc Hone]. unfold summonPlatform. destruct (JS.lt _ _); [now split|].
  destruct (platforms s) eqn:Ep; [|now split].
  destruct (activePlatform s) eqn:Ea; [now split|].
  split; [exact Hc|]. unfold onePlatform. cbn.
  repeat split; try discriminate.
Qed.

Lemma summonPlatform_refused (now : Q) (h : Hero.t) (s : t) :
  (now - lastPlatformSummon s < platformCooldown s)%Q ->
  summonPlatform now h s = s.
Proof.
  intros H. unfold summonPlatform. apply JS_lt_iff in H. now rewrite H.
Qed.

(** The hero's [update] never touches the time stamp or the cooldown,
    and never empties the list of platforms. *)
Lemma update_frame (now : Q) (keys : Keys) (h : Hero.t) (vy : Q) (s : t) :
  platformCooldown (update now keys h vy s) = platformCooldown s /\
  lastPlatformSummon (update now keys h vy s) = lastPlatformSummon s /\
  (platforms (update now keys h vy s) = [] -> platforms s = []).
Proof.
  unfold update.
  destruct (negb (active _)); [now repeat split|].
  destruct (negb (Hero.isAlive h)); [now repeat split|].
  destruct (updatePlatformCooldown_frame now h s)
    as (Hpl & _ & _ & Hpc & _ & _ & Hlast & _).
  set (s1 := updatePlatformCooldown now h s) in *. clearbody s1.
  set (s2 := if down keys then _ else s1).
  assert (H2 : platformCooldown s2 = platformCooldown s /\
               lastPlatformSummon s2 = lastPlatformSummon s /\
               (platforms s2 = [] -> platforms s = [])).
  { subst s2. destruct (down keys); cbn; repeat split; try assumption.
    - intros H. apply despawnStandingOn_nil in H. congruence.
    - congruence. }
  clearbody s2. destruct H2 as (H2c & H2l & H2p).
  destruct (space keys && negb (isSpaceKeyDown s2)).
  - destruct (canSummonPlatform (set_space true s2)).
    + destruct (summonPlatform_frame now h (set_space true s2))
        as (Hc & Hl & Hp & _).
      rewrite Hc, Hl. cbn. repeat split; try assumption.
      intros H. apply Hp in H. cbn in H. auto.
    + cbn. now repeat split.
  - destruct (negb (space keys)); cbn; now repeat split.
Qed.

Lemma update_inv (now : Q) (keys : Keys) (h : Hero.t) (vy : Q) (s : t) :
  abilityInv s -> abilityInv (update now keys h vy s).
Proof.
  intros Hs. unfold update.
  destruct (negb (active _)); [exact Hs|].
  destruct (negb (Hero.isAlive h)); [exact Hs|].
  assert (H1 : abilityInv (updatePlatformCooldown now h s)).
  { destruct (updatePlatformCooldown_frame now h s)
      as (Hpl & _ & Hap & Hpc & _).
    destruct Hs as [Hc Hone]. split; [now rewrite Hpc|].
    unfold onePlatform. now rewrite Hpl, Hap. }
  set (s1 := updatePlatformCooldown now h s) in *. clearbody s1.
  set (s2 := if down keys then _ else s1).
  assert (H2 : abilityInv s2).
  { subst s2. destruct (down keys); [|exact H1].
    destruct H1 as [Hc Hone]. split; [exact Hc|].
    unfold onePlatform in *. cbn.
    destruct (platforms s1) as [|[id p] [|]]; [exact Hone| |contradiction].
    destruct Hone as (Ha & Hm & Hcons).
    destruct (despawnStandingOn_one h vy id p) as [E | E]; rewrite E.
    - split; [exact Ha | split; [exact Hm | exact Hcons]].
    - split; [exact Ha|]. split.
      + now rewrite forceDespawn_keeps_mark.
      + now apply forceDespawn_consistent. }
  clearbody s2.
  assert (Hsp : forall v, abilityInv (set_space v s2)) by (intros v; exact H2).
  destruct (space keys && negb (isSpaceKeyDown s2)).
  - destruct (canSummonPlatform (set_space true s2)).
    + apply summonPlatform_inv, Hsp.
    + apply Hsp.
  - destruct (negb (space keys)); [apply Hsp | exact H2].
Qed.

(** The platforms' updates of a frame: the single platform either lives
    on or is destroyed, and then the frame's time is stamped. *)
Lemma updatePlatforms_inv (now : Q) (s : t) :
  abilityInv s ->
  let s' := updatePlatforms now (platforms s) s in
  abilityInv s' /\
  platformCooldown s' = platformCooldown s /\
  nextPlatform s' = nextPlatform s /\
  (platforms s = [] -> s' = s) /\
  (platforms s <> [] -> platforms s' = [] -> lastPlatformSummon s' = now).
Proof.
  intros [Hc Hone]. unfold onePlatform in Hone.
  destruct (platforms s) as [|[id p] [|]] eqn:Ep; [| |contradiction].
  - cbn. repeat split; try assumption.
    + unfold onePlatform. now rewrite Ep.
    + intros H. now elim H.
  - destruct Hone as (Ha & Hm & Hcons).
    cbn [updatePlatforms].
    pose proof (update_consistent now p Hcons) as Hcons'.
    destruct Hcons as (_ & _ & Hgone).
    destruct (Platform.sprite p) eqn:Esp;
      [|specialize (Hgone eq_refl); congruence].
    rewrite Ep. cbn [List.map fst]. rewrite Nat.eqb_refl.
    destruct (Platform.sprite (Platform.update now p)) eqn:Esp'.
    + cbn. split; [split; [exact Hc|] |].
      * unfold onePlatform. cbn. split; [exact Ha|]. split; [|exact Hcons'].
        destruct Hcons' as (_ & Hmark & _).
        destruct (Platform.markedForDestroy (Platform.update now p));
          [|reflexivity].
        destruct (Hmark eq_refl). congruence.
      * split; [reflexivity|]. split; [reflexivity|].
        split; discriminate.
    + unfold onPlatformDestroyed. cbn. rewrite Ha. cbn.
      rewrite Nat.eqb_refl. cbn. split; [split; [exact Hc | reflexivity] |].
      split; [reflexivity|]. split; [reflexivity|].
      split; [discriminate | reflexivity].
Qed.

Lemma fadeEnded_inv (id : nat) (now : Q) (s : t) :
  abilityInv s ->
  let s' := fadeEnded id now s in
  abilityInv s' /\
  platformCooldown s' = platformCooldown s /\
  nextPlatform s' = nextPlatform s /\
  (platforms s = [] -> s' = s) /\
  (platforms s <> [] -> platforms s' = [] -> lastPlatformSummon s' = now).
Proof.
  intros [Hc Hone]. pose proof Hone as Hone'. unfold onePlatform in Hone.
  unfold fadeEnded.
  destruct (platforms s) as [|[id0 p] [|]] eqn:Ep; [| |contradiction].
  - cbn. repeat split; try assumption. intros H. now elim H.
  - destruct Hone as (Ha & Hm & Hcons).
    cbn [List.find fst].
    destruct (Nat.eqb id0 id) eqn:Eid.
    + apply Nat.eqb_eq in Eid. subst id0.
      destruct Hcons as (_ & _ & Hgone).
      destruct (Platform.sprite p) eqn:Esp;
        [|specialize (Hgone eq_refl); congruence].
      unfold onPlatformDestroyed. cbn. rewrite Ha. cbn.
      rewrite !Nat.eqb_refl. cbn. split; [split; [exact Hc | reflexivity] |].
      split; [reflexivity|]. split; [reflexivity|].
      split; [discriminate | reflexivity].
    + cbn. split; [split; [exact Hc | exact Hone'] |].
      split; [reflexivity|]. split; [reflexivity|].
      split; [discriminate|]. rewrite Ep. discriminate.
Qed.

Lemma applyPlatformUpgrade_inv (upgradeId : string) (s : t) :
  abilityInv s ->
  abilityInv (applyPlatformUpgrade upgradeId s) /\
  platforms (applyPlatformUpgrade upgradeId s) = platforms s /\
  nextPlatform (applyPlatformUpgrade upgradeId s) = nextPlatform s.
Proof.
  intros Hs. pose proof Hs as [Hc Hone]. unfold applyPlatformUpgrade.
  destruct (String.eqb upgradeId "extendedPlatforms"); [now repeat split|].
  destruct (String.eqb upgradeId "quickSummoning"); [now repeat split|].
  destruct (String.eqb upgradeId "widePlatforms"); now repeat split.
Qed.

Lemma step_inv (e : Event) (s : t) : abilityInv s -> abilityInv (step e s).
Proof.
  intros Hs. destruct e as [now keys h vy | id now | upgradeId]; cbn [step].
  - apply update_inv.
    assert (H1 : abilityInv (fireCooldownTimer now s)).
    { destruct (fireCooldownTimer_frame now s) as (Hpl & _ & Hap & Hpc & _).
      destruct Hs as [Hc Hone]. split; [now rewrite Hpc|].
      unfold onePlatform. now rewrite Hpl, Hap. }
    apply (updatePlatforms_inv now _ H1).
  - apply (fadeEnded_inv id now s Hs).
  - apply (applyPlatformUpgrade_inv upgradeId s Hs).
Qed.

Lemma run_inv (events : list Event) (s : t) :
  abilityInv s -> abilityInv (run events s).
Proof.
  revert s. induction events as [|e events IH]; intros s Hs; [exact Hs|].
  cbn. apply IH. now apply step_inv.
Qed.

(** When an event ends the platform, its time is stamped as the start
    of the cooldown. *)
Lemma platform_end_is_stamped (e : Event) (now : Q) (s : t) :
  abilityInv s -> timeOf e = Some now ->
  platforms s <> [] -> platforms (step e s) = [] ->
  lastPlatformSummon (step e s) = now.
Proof.
  intros Hs Ht Hne Hnil.
  destruct e as [now' keys h vy | id now' | upgradeId]; cbn in Ht;
    [injection Ht as -> | injection Ht as -> | discriminate].
  - cbn [step] in *.
    assert (H1 : abilityInv (fireCooldownTimer now s)).
    { destruct (fireCooldownTimer_frame now s) as (Hpl & _ & Hap & Hpc & _).
      destruct Hs as [Hc Hone]. split; [now rewrite Hpc|].
      unfold onePlatform. now rewrite Hpl, Hap. }
    destruct (fireCooldownTimer_frame now s) as (Hpl & _).
    destruct (updatePlatforms_inv now _ H1) as (_ & _ & _ & _ & Hstamp).
    set (s2 := updatePlatforms now _ _) in *.
    destruct (update_frame now keys h vy s2) as (_ & Hl & Hp).
    rewrite Hl. apply Hstamp; [now rewrite Hpl | now apply Hp].
  - cbn [step] in *.
    now apply (fadeEnded_inv id now s Hs).
Qed.

(** With no platform and inside the cooldown, nothing is summoned. *)
Lemma step_within_cooldown (e : Event) (t0 c : Q) (s : t) :
  platforms s = [] -> lastPlatformSummon s = t0 -> platformCooldown s = c ->
  withinCooldown t0 c e ->
  platforms (step e s) = [] /\ lastPlatformSummon (step e s) = t0 /\
  platformCooldown (step e s) = c /\ nextPlatform (step e s) = nextPlatform s.
Proof.
  intros Hnil Hl Hc Hw.
  destruct e as [now keys h vy | id now | upgradeId]; cbn in Hw;
    [| |contradiction]; cbn [step].
  - destruct (fireCooldownTimer_frame now s)
      as (Hpl & Hnp & _ & Hpc & _ & _ & Hlast & _).
    set (s1 := fireCooldownTimer now s) in *. clearbody s1.
    rewrite Hpl, Hnil. cbn [updatePlatforms].
    rewrite <- Hnp, <- Hl, <- Hlast, <- Hc, <- Hpc, <- Hnil, <- Hpl.
    rewrite <- Hl, <- Hlast, <- Hc, <- Hpc in Hw.
    rewrite Hnil in Hpl. clear - Hpl Hw.
    unfold update.
    destruct (negb (active _)); [now repeat split|].
    destruct (negb (Hero.isAlive h)); [now repeat split|].
    destruct (updatePlatformCooldown_frame now h s1)
      as (Hpl' & Hnp' & _ & Hpc' & _ & _ & Hlast' & _).
    set (s1' := updatePlatformCooldown now h s1) in *. clearbody s1'.
    rewrite <- Hpl', <- Hnp', <- Hpc', <- Hlast'.
    rewrite <- Hpc', <- Hlast' in Hw. rewrite Hpl in Hpl'. clear - Hpl' Hw.
    assert (E2 : (if down keys
                  then set_platforms (despawnStandingOn h vy (platforms s1')) s1'
                  else s1') = s1').
    { destruct (down keys); [|reflexivity]. rewrite Hpl'. cbn.
      destruct s1'; cbn in *. now subst. }
    rewrite E2.
    destruct (space keys && negb (isSpaceKeyDown s1')).
    + destruct (canSummonPlatform (set_space true s1')).
      * rewrite summonPlatform_refused by exact Hw. now repeat split.
      * now repeat split.
    + destruct (negb (space keys)); now repeat split.
  - unfold fadeEnded. rewrite Hnil. cbn. now repeat split.
Qed.

(** The hero never has two platforms.  From the start of a scene,
    whatever frames (with any keys, positions and times), ends of forced
    fades and platform upgrades follow, there is at most one platform in
    the hero's list; it is the one [activePlatform] points to and it is
    not destroyed, and with an empty list [activePlatform] is null. *)
Theorem at_most_one_platform (events : list Event) :
  let s := run events new in
  (List.length (platforms s) <= 1)%nat /\
  (platforms s = [] <-> activePlatform s = None) /\
  (forall id p, In (id, p) (platforms s) ->
     activePlatform s = Some id /\ Platform.markedForDestroy p = false /\
     Platform.sprite p <> None).
Proof.
  cbn zeta. destruct (run_inv events new abilityInv_new) as [_ Hone].
  unfold onePlatform in Hone.
  destruct (platforms (run events new)) as [|[id p] [|]]; [| |contradiction].
  - split; [cbn; lia|]. split; [now split|]. intros id p [].
  - destruct Hone as (Ha & Hm & Hcons). split; [cbn; lia|]. split.
    + split; [discriminate|]. rewrite Ha. discriminate.
    + intros id' p' [H|[]]. injection H as <- <-.
      split; [exact Ha|]. split; [exact Hm|].
      destruct Hcons as (_ & _ & Hgone). intros E.
      apply Hgone in E. congruence.
Qed.

(** The cooldown runs from the end of the platform, not from its
    summoning.  If an event at time [t] ends the hero's platform (its
    last frame, or the end of a forced fade), then as long as only
    frames and fade ends less than the cooldown after [t] follow,
    whatever the keys, no platform is summoned. *)
Theorem no_platform_during_cooldown
    (events later : list Event) (e : Event) (t0 : Q) :
  let s := run events new in
  let s1 := step e s in
  timeOf e = Some t0 ->
  platforms s <> [] -> platforms s1 = [] ->
  Forall (withinCooldown t0 (platformCooldown s1)) later ->
  platforms (run later s1) = [] /\
  nextPlatform (run later s1) = nextPlatform s1.
Proof.
  cbn zeta. intros Ht Hne Hnil Hlater.
  pose proof (platform_end_is_stamped e t0 _
                (run_inv events new abilityInv_new) Ht Hne Hnil) as Hstamp.
  set (s1 := step e (run events new)) in *. clearbody s1.
  assert (Hgen : forall s, platforms s = [] -> lastPlatformSummon s = t0 ->
            platformCooldown s = platformCooldown s1 ->
            platforms (run later s) = [] /\
            nextPlatform (run later s) = nextPlatform s).
  { induction Hlater as [|e' later' He' _ IH]; intros s Hp Hl Hc;
      [now split|].
    change (run (e' :: later') s) with (run later' (step e' s)).
    destruct (step_within_cooldown e' t0 _ s Hp Hl Hc He')
      as (Hp' & Hl' & Hc' & Hn').
    destruct (IH _ Hp' Hl' Hc') as [IH1 IH2]. split; [exact IH1|].
    now rewrite IH2. }
  now apply Hgen.
Qed.



Lemma no_platform_during_cooldown_witness :
  let h := Hero.new 100 400 in
  let press := {| down := false; space := true |} in
  let s1 := step (Tick 11000 press h 0) (run [Tick 5000 press h 0] new) in
  platforms (run [Tick 12000 {| down := false; space := false |} h 0;
                  Tick 15999 press h 0] s1) = [].
Proof.
  cbn zeta.
  apply (no_platform_during_cooldown
           [Tick 5000 {| down := false; space := true |} (Hero.new 100 400) 0]
           [Tick 12000 {| down := false; space := false |} (Hero.new 100 400) 0;
            Tick 15999 {| down := false; space := true |} (Hero.new 100 400) 0]
           (Tick 11000 {| down := false; space := true |} (Hero.new 100 400) 0)
           11000).
  - reflexivity.
  - vm_compute. discriminate.
  - vm_compute. reflexivity.
  - repeat constructor; vm_compute; reflexivity.
Defined.

End PlatformAbility.

(** ** A troop's frame *)

Section TroopFrames.

Import TroopMove.

Lemma closer_true (d : Q) (best : option Q) :
  closer d best = true <-> (forall b, best = Some b -> (d < b)%Q).
Proof.
  destruct best as [b|]; cbn.
  - rewrite JS_lt_iff. split.
    + intros H b' E. now injection E as <-.
    + intros H. now apply H.
  - split; [intros _ b E; discriminate | reflexivity].
Qed.

Lemma closer_false (d : Q) (best : option Q) :
  closer d best = false <-> (exists b, best = Some b /\ (b <= d)%Q).
Proof.
  destruct best as [b|]; cbn.
  - rewrite JS_lt_false_iff. split.
    + intros H. now exists b.
    + intros (b' & E & H). now injection E as <-.
  - split; [discriminate | intros (b & E & _); discriminate].
Qed.

Lemma opposing_iff (self : nat) (this : t) (it : nat * t) :
  Nat.eqb (fst it) self
  || Bool.eqb (Troop.isEnemy (troop (snd it))) (Troop.isEnemy (troop this)) = false
  <-> opposing self this it.
Proof.
  unfold opposing. rewrite orb_false_iff, Nat.eqb_neq.
  destruct (Troop.isEnemy (troop (snd it))), (Troop.isEnemy (troop this)); cbn;
    intuition congruence.
Qed.

Lemma nearest_ok (self : nat) (this : t) (it : nat * t) :
  negb (Nat.eqb (fst it) self
        || Bool.eqb (Troop.isEnemy (troop (snd it))) (Troop.isEnemy (troop this)))
  && JS.lt (distanceTo this (Troop.sprite (troop (snd it)))) ENGAGEMENT_RANGE = true
  <-> opposing self this it /\
      (distanceTo this (Troop.sprite (troop (snd it))) < ENGAGEMENT_RANGE)%Q.
Proof.
  now rewrite andb_true_iff, negb_true_iff, opposing_iff, JS_lt_iff.
Qed.

Section Scan.

Variable ok : nat * t -> bool.
Variable dist : nat * t -> Q.
Variable f : option Ref * option Q -> nat * t -> option Ref * option Q.
Hypothesis f_eq : forall acc it,
  f acc it = if ok it && closer (dist it) (snd acc)
             then (Some (aTroop (fst it)), Some (dist it)) else acc.

Lemma scan_step (seen : list (nat * t)) (acc : option Ref * option Q)
    (it : nat * t) :
  scanned ok dist seen acc -> scanned ok dist (seen ++ [it]) (f acc it).
Proof.
  intros Hacc. rewrite f_eq.
  destruct (ok it) eqn:Eok; cbn [andb].
  - destruct (closer (dist it) (snd acc)) eqn:Ecl.
    + pose proof (proj1 (closer_true _ _) Ecl) as Hcl. clear Ecl.
      rename Hcl into Ecl. split.
      * exists it. rewrite in_app_iff. cbn. auto.
      * intros it' Hin Hok'. apply in_app_iff in Hin.
        destruct Hin as [Hin | [<- | []]]; [|apply Qle_refl].
        destruct acc as [[[id| |]|] [d|]]; cbn in Hacc; try contradiction.
        -- destruct Hacc as [_ Hmin]. specialize (Ecl d eq_refl).
           specialize (Hmin it' Hin Hok'). lra.
        -- rewrite (Hacc it' Hin) in Hok'. discriminate.
    + apply closer_false in Ecl. destruct Ecl as (b & Eb & Hb).
      destruct acc as [[[id| |]|] [d|]]; cbn in Hacc, Eb; try contradiction;
        try discriminate.
      injection Eb as ->. destruct Hacc as [(it0 & Hin0 & H0) Hmin]. split.
      * exists it0. rewrite in_app_iff. auto.
      * intros it' Hin Hok'. apply in_app_iff in Hin.
        destruct Hin as [Hin | [<- | []]]; [now apply Hmin | exact Hb].
  - destruct acc as [[[id| |]|] [d|]]; cbn in Hacc |- *; try contradiction.
    + destruct Hacc as [(it0 & Hin0 & H0) Hmin]. split.
      * exists it0. rewrite in_app_iff. auto.
      * intros it' Hin Hok'. apply in_app_iff in Hin.
        destruct Hin as [Hin | [<- | []]]; [now apply Hmin | congruence].
    + intros it' Hin. apply in_app_iff in Hin.
      destruct Hin as [Hin | [<- | []]]; [now apply Hacc | exact Eok].
Qed.

Lemma scan_all (l seen : list (nat * t)) (acc : option Ref * option Q) :
  scanned ok dist seen acc ->
  scanned ok dist (seen ++ l) (List.fold_left f l acc).
Proof.
  revert seen acc. induction l as [|it l IH]; intros seen acc Hacc; cbn.
  - now rewrite app_nil_r.
  - replace (seen ++ it :: l) with ((seen ++ [it]) ++ l)
      by (now rewrite <- app_assoc).
    apply IH. now apply scan_step.
Qed.

Lemma scan_from_nothing (l : list (nat * t)) :
  scanned ok dist l (List.fold_left f l (None, None)).
Proof. apply (scan_all l [] (None, None)). intros it []. Qed.

(** The answer of a scan followed by the look at the base, [reach]
    being the distance within which the base counts. *)
Lemma scan_then_base (l : list (nat * t)) (targetBase : option Base.t)
    (this : t) (reach : Q) :
  let scan := List.fold_left f l (None, None) in
  match
    match targetBase with
    | Some b =>
        if JS.lt (Qabs (x (Base.sprite b) - x (Troop.sprite (troop this)))) reach
           && closer (Qabs (x (Base.sprite b) - x (Troop.sprite (troop this))))
                (snd scan)
        then Some theBase
        else fst scan
    | None => fst scan
    end
  with
  | None =>
      (forall it, In it l -> ok it = false) /\
      (forall b, targetBase = Some b -> (reach <= distanceTo this (Base.sprite b))%Q)
  | Some (aTroop id) =>
      exists other, In (id, other) l /\ ok (id, other) = true /\
        (forall it, In it l -> ok it = true -> (dist (id, other) <= dist it)%Q) /\
        (forall b, targetBase = Some b ->
           (distanceTo this (Base.sprite b) < reach)%Q ->
           (dist (id, other) <= distanceTo this (Base.sprite b))%Q)
  | Some theBase =>
      exists b, targetBase = Some b /\
        (distanceTo this (Base.sprite b) < reach)%Q /\
        (forall it, In it l -> ok it = true ->
           (distanceTo this (Base.sprite b) < dist it)%Q)
  | Some theHero => False
  end.
Proof.
  cbv zeta. pose proof (scan_from_nothing l) as Hs.
  destruct (List.fold_left f l (None, None)) as [best d].
  assert (Hfst :
    (forall b, targetBase = Some b ->
       JS.lt (distanceTo this (Base.sprite b)) reach
       && closer (distanceTo this (Base.sprite b)) d = false) ->
    match best with
    | None =>
        (forall it, In it l -> ok it = false) /\
        (forall b, targetBase = Some b ->
           (reach <= distanceTo this (Base.sprite b))%Q)
    | Some (aTroop id) =>
        exists other, In (id, other) l /\ ok (id, other) = true /\
          (forall it, In it l -> ok it = true -> (dist (id, other) <= dist it)%Q) /\
          (forall b, targetBase = Some b ->
             (distanceTo this (Base.sprite b) < reach)%Q ->
             (dist (id, other) <= distanceTo this (Base.sprite b))%Q)
    | Some theBase => False
    | Some theHero => False
    end).
  { intros Hbase.
    destruct best as [[id| |]|], d as [d|]; cbn [scanned] in Hs;
      try contradiction.
    - destruct Hs as [([id0 other] & Hin & Hid & Hok & Hd) Hmin].
      cbn [fst] in Hid. subst id0. exists other.
      split; [exact Hin|]. split; [exact Hok|]. split.
      + intros it Hit Hokit. rewrite Hd. now apply Hmin.
      + intros b Eb Hb. specialize (Hbase b Eb).
        apply andb_false_iff in Hbase. destruct Hbase as [H|H].
        * apply JS_lt_false_iff in H. lra.
        * cbn [closer] in H. apply JS_lt_false_iff in H. now rewrite Hd.
    - split; [exact Hs|]. intros b Eb. specialize (Hbase b Eb).
      apply andb_false_iff in Hbase. destruct Hbase as [H|H].
      + now apply JS_lt_false_iff in H.
      + discriminate. }
  destruct targetBase as [b|]; cbn [fst snd].
  - fold (distanceTo this (Base.sprite b)).
    destruct (JS.lt _ reach && closer _ d) eqn:E.
    + apply andb_true_iff in E. destruct E as [Hr Hc].
      apply JS_lt_iff in Hr. exists b. split; [reflexivity|].
      split; [exact Hr|]. intros it Hit Hokit.
      destruct best as [[id| |]|], d as [d|]; cbn [scanned] in Hs;
        try contradiction.
      * destruct Hs as [_ Hmin]. specialize (Hmin it Hit Hokit).
        cbn [closer] in Hc. apply JS_lt_iff in Hc. lra.
      * rewrite (Hs it Hit) in Hokit. discriminate.
    + assert (H := Hfst). specialize (H ltac:(now intros b' [= <-])).
      destruct best as [[id| |]|]; try contradiction; exact H.
  - assert (H := Hfst). specialize (H ltac:(intros b' [=])).
    destruct best as [[id| |]|]; try contradiction; exact H.
Qed.

End Scan.

Lemma findNearestTarget_cases (self : nat) (this : t)
    (allTroops : list (nat * t)) (targetBase : option Base.t) :
  match findNearestTarget self this allTroops targetBase with
  | None =>
      (forall it, In it allTroops -> opposing self this it ->
         (ENGAGEMENT_RANGE <= distanceTo this (Troop.sprite (troop (snd it))))%Q) /\
      (forall b, targetBase = Some b ->
         (ENGAGEMENT_RANGE <= distanceTo this (Base.sprite b))%Q)
  | Some (aTroop id) =>
      exists other, In (id, other) allTroops /\ opposing self this (id, other) /\
        (distanceTo this (Troop.sprite (troop other)) < ENGAGEMENT_RANGE)%Q /\
        (forall it, In it allTroops -> opposing self this it ->
           (distanceTo this (Troop.sprite (troop other))
            <= distanceTo this (Troop.sprite (troop (snd it))))%Q) /\
        (forall b, targetBase = Some b ->
           (distanceTo this (Troop.sprite (troop other))
            <= distanceTo this (Base.sprite b))%Q)
  | Some theBase =>
      exists b, targetBase = Some b /\
        (distanceTo this (Base.sprite b) < ENGAGEMENT_RANGE)%Q /\
        (forall it, In it allTroops -> opposing self this it ->
           (distanceTo this (Base.sprite b)
            < distanceTo this (Troop.sprite (troop (snd it))))%Q)
  | Some theHero => False
  end.
Proof.
  pose proof
    (scan_then_base
       (fun it =>
          negb (Nat.eqb (fst it) self
                || Bool.eqb (Troop.isEnemy (troop (snd it)))
                     (Troop.isEnemy (troop this)))
          && JS.lt (distanceTo this (Troop.sprite (troop (snd it))))
               ENGAGEMENT_RANGE)
       (fun it => distanceTo this (Troop.sprite (troop (snd it))))
       (fun (acc : option Ref * option Q) (it : nat * t) =>
          if Nat.eqb (fst it) self
             || Bool.eqb (Troop.isEnemy (troop (snd it))) (Troop.isEnemy (troop this))
          then acc
          else
            let distance :=
              Qabs (x (Troop.sprite (troop (snd it))) - x (Troop.sprite (troop this))) in
            if JS.lt distance ENGAGEMENT_RANGE && closer distance (snd acc)
            then (Some (aTroop (fst it)), Some distance)
            else acc)
       ltac:(intros acc it; unfold distanceTo; now destruct (_ || _))
       allTroops targetBase this ENGAGEMENT_RANGE) as H.
  cbv zeta in H. unfold findNearestTarget. cbv zeta.
  destruct (match targetBase with Some _ => _ | None => _ end) as [[id| |]|].
  - destruct H as (other & Hin & Hok & Hmin & Hbase).
    apply nearest_ok in Hok. destruct Hok as [Hopp Hnear]. cbn [fst snd] in *.
    exists other. split; [exact Hin|]. split; [exact Hopp|].
    split; [exact Hnear|]. split.
    + intros it Hit Hoppit.
      destruct (JS.lt (distanceTo this (Troop.sprite (troop (snd it))))
                  ENGAGEMENT_RANGE) eqn:E.
      * apply Hmin; [exact Hit|]. apply nearest_ok. split; [exact Hoppit|].
        now apply JS_lt_iff.
      * apply JS_lt_false_iff in E. lra.
    + intros b Eb.
      destruct (JS.lt (distanceTo this (Base.sprite b)) ENGAGEMENT_RANGE) eqn:E.
      * apply JS_lt_iff in E. now apply Hbase.
      * apply JS_lt_false_iff in E. lra.
  - destruct H as (b & Eb & Hb & Hlt). exists b.
    split; [exact Eb|]. split; [exact Hb|]. intros it Hit Hoppit.
    destruct (JS.lt (distanceTo this (Troop.sprite (troop (snd it))))
                ENGAGEMENT_RANGE) eqn:E.
    + apply Hlt; [exact Hit|]. apply nearest_ok. split; [exact Hoppit|].
      now apply JS_lt_iff.
    + apply JS_lt_false_iff in E. lra.
  - exact H.
  - destruct H as [Hnone Hbase]. split; [|exact Hbase].
    intros it Hit Hoppit. specialize (Hnone it Hit).
    apply andb_false_iff in Hnone. destruct Hnone as [Hn|Hn].
    + apply negb_false_iff in Hn. apply opposing_iff in Hoppit. congruence.
    + now apply JS_lt_false_iff in Hn.
Qed.

Lemma inRange_ok (self : nat) (this : t) (it : nat * t) :
  negb (Nat.eqb (fst it) self
        || Bool.eqb (Troop.isEnemy (troop (snd it))) (Troop.isEnemy (troop this)))
  && Troop.isTargetInAttackRange (troop this) (Some (Troop.sprite (troop (snd it))))
  = true
  <-> opposing self this it /\
      Troop.isTargetInAttackRange (troop this)
        (Some (Troop.sprite (troop (snd it)))) = true.
Proof. now rewrite andb_true_iff, negb_true_iff, opposing_iff. Qed.

Lemma findTargetInAttackRange_cases (self : nat) (this : t)
    (allTroops : list (nat * t)) (targetBase : option Base.t) :
  match findTargetInAttackRange self this allTroops targetBase with
  | None =>
      (forall it, In it allTroops -> opposing self this it ->
         Troop.isTargetInAttackRange (troop this)
           (Some (Troop.sprite (troop (snd it)))) = false) /\
      (forall b, targetBase = Some b ->
         (Troop.attackRange (troop this) <= distanceTo this (Base.sprite b))%Q)
  | Some (aTroop id) =>
      exists other, In (id, other) allTroops /\ opposing self this (id, other) /\
        Troop.isTargetInAttackRange (troop this)
          (Some (Troop.sprite (troop other))) = true /\
        (forall it, In it allTroops -> opposing self this it ->
           Troop.isTargetInAttackRange (troop this)
             (Some (Troop.sprite (troop (snd it)))) = true ->
           (distanceTo this (Troop.sprite (troop other))
            <= distanceTo this (Troop.sprite (troop (snd it))))%Q) /\
        (forall b, targetBase = Some b ->
           (distanceTo this (Base.sprite b) < Troop.attackRange (troop this))%Q ->
           (distanceTo this (Troop.sprite (troop other))
            <= distanceTo this (Base.sprite b))%Q)
  | Some theBase =>
      exists b, targetBase = Some b /\
        (distanceTo this (Base.sprite b) < Troop.attackRange (troop this))%Q /\
        (forall it, In it allTroops -> opposing self this it ->
           Troop.isTargetInAttackRange (troop this)
             (Some (Troop.sprite (troop (snd it)))) = true ->
           (distanceTo this (Base.sprite b)
            < distanceTo this (Troop.sprite (troop (snd it))))%Q)
  | Some theHero => False
  end.
Proof.
  pose proof
    (scan_then_base
       (fun it =>
          negb (Nat.eqb (fst it) self
                || Bool.eqb (Troop.isEnemy (troop (snd it)))
                     (Troop.isEnemy (troop this)))
          && Troop.isTargetInAttackRange (troop this)
               (Some (Troop.sprite (troop (snd it)))))
       (fun it => distanceTo this (Troop.sprite (troop (snd it))))
       (fun (acc : option Ref * option Q) (it : nat * t) =>
          if Nat.eqb (fst it) self
             || Bool.eqb (Troop.isEnemy (troop (snd it))) (Troop.isEnemy (troop this))
          then acc
          else if Troop.isTargetInAttackRange (troop this)
                    (Some (Troop.sprite (troop (snd it))))
          then
            let distance :=
              Qabs (x (Troop.sprite (troop (snd it))) - x (Troop.sprite (troop this))) in
            if closer distance (snd acc)
            then (Some (aTroop (fst it)), Some distance)
            else acc
          else acc)
       ltac:(intros acc it; unfold distanceTo; destruct (_ || _); cbn [negb andb];
             [reflexivity | now destruct (Troop.isTargetInAttackRange _ _)])
       allTroops targetBase this (Troop.attackRange (troop this))) as H.
  cbv zeta in H. unfold findTargetInAttackRange. cbv zeta.
  destruct (match targetBase with Some _ => _ | None => _ end) as [[id| |]|].
  - destruct H as (other & Hin & Hok & Hmin & Hbase).
    apply inRange_ok in Hok. destruct Hok as [Hopp Hnear]. cbn [fst snd] in *.
    exists other. split; [exact Hin|]. split; [exact Hopp|].
    split; [exact Hnear|]. split; [|exact Hbase].
    intros it Hit Hoppit Hr. apply Hmin; [exact Hit|].
    apply inRange_ok. now split.
  - destruct H as (b & Eb & Hb & Hlt). exists b.
    split; [exact Eb|]. split; [exact Hb|]. intros it Hit Hoppit Hr.
    apply Hlt; [exact Hit|]. apply inRange_ok. now split.
  - exact H.
  - destruct H as [Hnone Hbase]. split; [|exact Hbase].
    intros it Hit Hoppit. specialize (Hnone it Hit).
    apply andb_false_iff in Hnone. destruct Hnone as [Hn|Hn]; [|exact Hn].
    apply negb_false_iff in Hn. apply opposing_iff in Hoppit. congruence.
Qed.


(** Whom a queued troop attacks.  [findTargetInAttackRange] answers
    nothing exactly when no troop of the other side passes
    [isTargetInAttackRange] and the base is not strictly within the
    attack range; the base exactly when it is strictly within the attack
    range and strictly nearer than every such troop; and otherwise a
    troop of the other side that passes [isTargetInAttackRange], no other
    such troop being nearer, nor the base if that is within the range.
    It never answers a troop of the own side or the hero. *)
Theorem findTargetInAttackRange_answers_the_nearest_foe_in_range
    (me : nat) (this : t) (allTroops : list (nat * t))
    (targetBase : option Base.t) :
  let r := findTargetInAttackRange me this allTroops targetBase in
  let inRange (other : t) :=
    Troop.isTargetInAttackRange (troop this) (Some (Troop.sprite (troop other))) in
  (r = None <->
   (forall it, In it allTroops -> opposing me this it -> inRange (snd it) = false) /\
   (forall b, targetBase = Some b ->
      (Troop.attackRange (troop this) <= distanceTo this (Base.sprite b))%Q)) /\
  (r = Some theBase <->
   exists b, targetBase = Some b /\
     (distanceTo this (Base.sprite b) < Troop.attackRange (troop this))%Q /\
     (forall it, In it allTroops -> opposing me this it -> inRange (snd it) = true ->
        (distanceTo this (Base.sprite b)
         < distanceTo this (Troop.sprite (troop (snd it))))%Q)) /\
  (forall id, r = Some (aTroop id) ->
   exists other, In (id, other) allTroops /\ opposing me this (id, other) /\
     inRange other = true /\
     (forall it, In it allTroops -> opposing me this it -> inRange (snd it) = true ->
        (distanceTo this (Troop.sprite (troop other))
         <= distanceTo this (Troop.sprite (troop (snd it))))%Q) /\
     (forall b, targetBase = Some b ->
        (distanceTo this (Base.sprite b) < Troop.attackRange (troop this))%Q ->
        (distanceTo this (Troop.sprite (troop other))
         <= distanceTo this (Base.sprite b))%Q)) /\
  r <> Some theHero.
Proof.
  cbv zeta.
  pose proof (findTargetInAttackRange_cases me this allTroops targetBase) as H.
  destruct (findTargetInAttackRange me this allTroops targetBase) as [[id| |]|].
  - destruct H as (other & Hin & Hopp & Hnear & Hmin & Hbase).
    split; [|split; [|split]]; try discriminate.
    + split; [discriminate|]. intros [Hall _].
      specialize (Hall _ Hin Hopp). cbn [snd] in Hall. congruence.
    + split; [discriminate|]. intros (b & Eb & Hb & Hlt).
      specialize (Hlt _ Hin Hopp Hnear). specialize (Hbase b Eb Hb).
      cbn [snd] in Hlt. lra.
    + intros id' [= <-]. exists other. auto.
  - destruct H as (b & Eb & Hb & Hlt).
    split; [|split; [|split]]; try discriminate.
    + split; [discriminate|]. intros [_ Hbase]. specialize (Hbase b Eb). lra.
    + split; [|reflexivity]. intros _. exists b. auto.
  - contradiction.
  - destruct H as [Hall Hbase].
    split; [|split; [|split]]; try discriminate.
    + split; [auto | reflexivity].
    + split; [discriminate|]. intros (b & Eb & Hb & _).
      specialize (Hbase b Eb). lra.
Qed.

Lemma sameRank_iff (me : nat) (this : t) (it : nat * t) :
  Nat.eqb (fst it) me
  || negb (Bool.eqb (Troop.isEnemy (troop (snd it))) (Troop.isEnemy (troop this)))
  || negb (String.eqb (Troop.category (troop (snd it))) (Troop.category (troop this)))
  = false
  <-> sameRank me this it.
Proof.
  unfold sameRank.
  rewrite !orb_false_iff, !negb_false_iff, Nat.eqb_neq, String.eqb_eq,
    Bool.eqb_true_iff.
  tauto.
Qed.

(** A troop is queued exactly when some other troop of its side and
    category is strictly ahead of it, nearer than one and a half of its
    widths. *)
Lemma checkSameCategoryAlliesAhead_iff (me : nat) (this : t)
    (allTroops : list (nat * t)) (direction : Q) :
  checkSameCategoryAlliesAhead me this allTroops direction = true <->
  exists it, In it allTroops /\ sameRank me this it /\
    ((0 < direction /\
      x (Troop.sprite (troop this)) < x (Troop.sprite (troop (snd it))))%Q \/
     (direction < 0 /\
      x (Troop.sprite (troop (snd it))) < x (Troop.sprite (troop this)))%Q) /\
    (distanceTo this (Troop.sprite (troop (snd it)))
     < Troop.troopWidth (troop this) * (15 # 10))%Q.
Proof.
  induction allTroops as [|[id other] rest IH].
  - cbn. split; [discriminate | intros (it & [] & _)].
  - cbn [checkSameCategoryAlliesAhead].
    assert (Hrest :
      checkSameCategoryAlliesAhead me this rest direction = true ->
      exists it, In it ((id, other) :: rest) /\ sameRank me this it /\
        ((0 < direction /\
          x (Troop.sprite (troop this)) < x (Troop.sprite (troop (snd it))))%Q \/
         (direction < 0 /\
          x (Troop.sprite (troop (snd it))) < x (Troop.sprite (troop this)))%Q) /\
        (distanceTo this (Troop.sprite (troop (snd it)))
         < Troop.troopWidth (troop this) * (15 # 10))%Q).
    { intros H. apply IH in H. destruct H as (it & Hin & H).
      exists it. split; [now right | exact H]. }
    pose proof (sameRank_iff me this (id, other)) as Hrank. cbn [fst snd] in Hrank.
    destruct (Nat.eqb id me || _ || _) eqn:Eskip.
    + split; [exact Hrest|]. intros (it & [<- | Hin] & Hr & H).
      * apply Hrank in Hr. discriminate.
      * apply IH. now exists it.
    + pose proof (proj1 Hrank eq_refl) as Hr.
      fold (distanceTo this (Troop.sprite (troop other))).
      destruct ((JS.gt direction 0 && JS.gt _ _) || (JS.lt direction 0 && JS.lt _ _))
        eqn:Ebehind.
      * assert (Hahead :
          (0 < direction /\
           x (Troop.sprite (troop this)) < x (Troop.sprite (troop other)))%Q \/
          (direction < 0 /\
           x (Troop.sprite (troop other)) < x (Troop.sprite (troop this)))%Q).
        { apply orb_true_iff in Ebehind.
          destruct Ebehind as [E|E]; apply andb_true_iff in E; destruct E as [E1 E2].
          - left. apply JS_gt_iff in E1, E2. now split.
          - right. apply JS_lt_iff in E1, E2. now split. }
        destruct (JS.lt (distanceTo this (Troop.sprite (troop other))) _) eqn:Enear.
        -- split; [|reflexivity]. intros _. exists (id, other).
           split; [now left|]. split; [exact Hr|]. split; [exact Hahead|].
           now apply JS_lt_iff.
        -- split; [exact Hrest|]. intros (it & [<- | Hin] & Hr' & Ha & Hn).
           ++ apply JS_lt_iff in Hn. cbn [snd] in Hn. congruence.
           ++ apply IH. now exists it.
      * split; [exact Hrest|]. intros (it & [<- | Hin] & Hr' & Ha & Hn).
        -- cbn [snd] in Ha. apply orb_false_iff in Ebehind.
           destruct Ebehind as [E1 E2]. destruct Ha as [[H1 H2] | [H1 H2]].
           ++ apply JS_gt_iff in H1, H2. rewrite H1, H2 in E1. discriminate.
           ++ apply JS_lt_iff in H1, H2. rewrite H1, H2 in E2. discriminate.
        -- apply IH. now exists it.
Qed.

Lemma exists_foremost (key : nat * t -> Q) (l : list (nat * t)) :
  l <> [] -> exists it, In it l /\ forall it', In it' l -> (key it' <= key it)%Q.
Proof.
  induction l as [|a l IH]; [intros H; now elim H|]. intros _.
  destruct l as [|b l].
  - exists a. split; [now left|]. intros it' [<- | []]. apply Qle_refl.
  - destruct (IH ltac:(discriminate)) as (m & Hin & Hmax).
    destruct (Qlt_le_dec (key m) (key a)) as [Hlt | Hle].
    + exists a. split; [now left|]. intros it' [<- | Hin']; [apply Qle_refl|].
      specialize (Hmax it' Hin'). lra.
    + exists m. split; [now right|]. intros it' [<- | Hin']; [exact Hle|].
      now apply Hmax.
Qed.

(** A queue cannot lock up.  Among any troops marching the same way there
    is always one that [checkSameCategoryAlliesAhead] lets pass: the
    foremost, as nothing stands strictly ahead of it.  Troops at the same
    place, and a troop behind, never hold a troop up. *)
Theorem queue_never_locks_up (allTroops : list (nat * t)) (direction : Q) :
  allTroops <> [] ->
  exists it, In it allTroops /\
    checkSameCategoryAlliesAhead (fst it) (snd it) allTroops direction = false.
Proof.
  intros Hne.
  destruct (Qlt_le_dec 0 direction) as [Hpos | Hle].
  - destruct (exists_foremost (fun it => x (Troop.sprite (troop (snd it))))
                allTroops Hne) as (it & Hin & Hmax).
    exists it. split; [exact Hin|].
    destruct (checkSameCategoryAlliesAhead _ _ _ _) eqn:E; [|reflexivity].
    apply checkSameCategoryAlliesAhead_iff in E.
    destruct E as (it' & Hin' & _ & [[_ H] | [H _]] & _).
    + specialize (Hmax it' Hin'). cbn beta in Hmax. lra.
    + lra.
  - destruct (exists_foremost (fun it => - x (Troop.sprite (troop (snd it))))%Q
                allTroops Hne) as (it & Hin & Hmax).
    exists it. split; [exact Hin|].
    destruct (checkSameCategoryAlliesAhead _ _ _ _) eqn:E; [|reflexivity].
    apply checkSameCategoryAlliesAhead_iff in E.
    destruct E as (it' & Hin' & _ & [[H _] | [_ H]] & _).
    + lra.
    + specialize (Hmax it' Hin'). cbn beta in Hmax. lra.
Qed.

Lemma queue_never_locks_up_witness :
  exists it,
    In it [(0%nat, {| troop := Troop.new 100 500 "Light" 900 false TroopConfig.empty;
                      currentTarget := None; isAttacking := false;
                      isStopped := false |});
           (1%nat, {| troop := Troop.new 110 500 "Light" 900 false TroopConfig.empty;
                      currentTarget := None; isAttacking := false;
                      isStopped := false |})] /\
    checkSameCategoryAlliesAhead (fst it) (snd it)
      [(0%nat, {| troop := Troop.new 100 500 "Light" 900 false TroopConfig.empty;
                  currentTarget := None; isAttacking := false;
                  isStopped := false |});
       (1%nat, {| troop := Troop.new 110 500 "Light" 900 false TroopConfig.empty;
                  currentTarget := None; isAttacking := false;
                  isStopped := false |})] 1 = false.
Proof. apply queue_never_locks_up. discriminate. Defined.

Lemma NoDup_fst_unique (l : list (nat * t)) (id : nat) (a b : t) :
  NoDup (List.map fst l) -> In (id, a) l -> In (id, b) l -> a = b.
Proof.
  induction l as [|[id0 c] l IH]; cbn; intros Hnd Ha Hb; [contradiction|].
  inversion Hnd as [|? ? Hnot Hnd']; subst.
  destruct Ha as [Ha | Ha], Hb as [Hb | Hb].
  - congruence.
  - injection Ha as -> ->. elim Hnot.
    change id with (fst (id, b)). now apply in_map.
  - injection Hb as -> ->. elim Hnot.
    change id with (fst (id, a)). now apply in_map.
  - now apply IH.
Qed.

Lemma found_rightful (me : nat) (u : t) (allTroops : list (nat * t))
    (id : nat) (other : t) :
  NoDup (List.map fst allTroops) -> In (id, other) allTroops ->
  opposing me u (id, other) -> rightful me u allTroops (aTroop id).
Proof.
  intros Hnd Hin Hopp other' Hin'.
  now rewrite (NoDup_fst_unique allTroops id other' other Hnd Hin' Hin).
Qed.

Lemma findNearestTarget_rightful (me : nat) (u : t) (allTroops : list (nat * t))
    (targetBase : option Base.t) (r : Ref) :
  NoDup (List.map fst allTroops) ->
  findNearestTarget me u allTroops targetBase = Some r ->
  rightful me u allTroops r.
Proof.
  intros Hnd E.
  pose proof (findNearestTarget_cases me u allTroops targetBase) as H.
  rewrite E in H. destruct r as [id| |]; [|exact I|contradiction].
  destruct H as (other & Hin & Hopp & _). now apply (found_rightful me u _ id other).
Qed.

Lemma findTargetInAttackRange_rightful (me : nat) (u : t)
    (allTroops : list (nat * t)) (targetBase : option Base.t) (r : Ref) :
  NoDup (List.map fst allTroops) ->
  findTargetInAttackRange me u allTroops targetBase = Some r ->
  rightful me u allTroops r.
Proof.
  intros Hnd E.
  pose proof (findTargetInAttackRange_cases me u allTroops targetBase) as H.
  rewrite E in H. destruct r as [id| |]; [|exact I|contradiction].
  destruct H as (other & Hin & Hopp & _). now apply (found_rightful me u _ id other).
Qed.

Lemma heroInReach_enemy (u : t) (hero : option Hero.t) :
  heroInReach u hero = true -> Troop.isEnemy (troop u) = true.
Proof.
  unfold heroInReach. destruct hero as [h|]; [|discriminate].
  rewrite !andb_true_iff. tauto.
Qed.

(** What [Combat.attack] leaves of the attacker: all but the time of its
    last attack. *)
Lemma Combat_attack_attacker (now : Q) (tr : Troop.t) (tg : Target) :
  fst (fst (fst (Combat.attack now tr tg))) = tr \/
  fst (fst (fst (Combat.attack now tr tg))) = Troop.set_lastAttackTime now tr.
Proof.
  unfold Combat.attack.
  destruct (Z.leb _ _ || _); [now left|].
  destruct (JS.ge _ _); [|now left].
  destruct (String.eqb _ _); [now right|].
  destruct (Target.takeDamage _ _). now right.
Qed.

Lemma attack_outcome (now : Q) (u : t) (r : Ref) (tg : option Target) :
  let o := attack now u r tg in
  (forall r' tg', target o = Some (r', tg') -> r' = r) /\
  (currentTarget (self o) = currentTarget u \/ currentTarget (self o) = None) /\
  Troop.isEnemy (troop (self o)) = Troop.isEnemy (troop u) /\
  Troop.sprite (troop (self o)) = Troop.sprite (troop u).
Proof.
  cbv zeta. unfold attack. destruct tg as [tg|].
  - pose proof (Combat_attack_attacker now (troop u) tg) as Htr.
    destruct (Combat.attack now (troop u) tg) as [[[tr' tg'] projectile] log].
    cbn [fst] in Htr. cbn [self target].
    split; [intros r' tg'' [= <- _]; reflexivity|].
    destruct (Z.leb _ _ || _); cbn.
    + auto.
    + destruct Htr as [-> | ->]; auto.
  - cbn. split; [discriminate | auto].
Qed.

Lemma checkCurrentTarget_frame (u : t) (allTroops : list (nat * t))
    (targetBase : option Base.t) (hero : option Hero.t) :
  let u' := checkCurrentTarget u allTroops targetBase hero in
  troop u' = troop u /\ isStopped u' = isStopped u /\
  ((currentTarget u' = currentTarget u /\ isAttacking u' = isAttacking u) \/
   (currentTarget u' = None /\ isAttacking u' = false)).
Proof.
  cbv zeta. unfold checkCurrentTarget.
  destruct (currentTarget u) as [r|] eqn:Ec; [|cbn; auto].
  destruct (resolve r allTroops targetBase hero) as [tg|]; [|cbn; auto].
  destruct (negb (active (Target.sprite tg))); [cbn; auto|].
  assert (Hrange :
    forall c : bool,
      troop (if c then u else clearTarget u) = troop u /\
      isStopped (if c then u else clearTarget u) = isStopped u /\
      ((currentTarget (if c then u else clearTarget u) = Some r /\
        isAttacking (if c then u else clearTarget u) = isAttacking u) \/
       (currentTarget (if c then u else clearTarget u) = None /\
        isAttacking (if c then u else clearTarget u) = false))).
  { intros [|]; cbn; auto. }
  assert (Hdist :
    forall c : bool,
      troop (if c then clearTarget u else u) = troop u /\
      isStopped (if c then clearTarget u else u) = isStopped u /\
      ((currentTarget (if c then clearTarget u else u) = Some r /\
        isAttacking (if c then clearTarget u else u) = isAttacking u) \/
       (currentTarget (if c then clearTarget u else u) = None /\
        isAttacking (if c then clearTarget u else u) = false))).
  { intros [|]; cbn; auto. }
  destruct tg as [tr | b | h]; cbn [Target.sprite];
    [destruct (JS.truthyS _)| |]; auto.
Qed.

Lemma Target_takeDamage_sameKind (amount : Q) (tg : Target) :
  sameKind tg (fst (Target.takeDamage amount tg)).
Proof.
  destruct tg as [tr | b | h]; cbn.
  - unfold Troop.takeDamage. destruct (JS.le amount 0); [reflexivity|].
    cbn. now destruct (Z.leb _ 0).
  - now destruct (Base.takeDamage amount b).
  - exact I.
Qed.

Lemma sameKind_refl (tg : Target) : sameKind tg tg.
Proof. now destruct tg. Qed.

Lemma Combat_attack_target (now : Q) (tr : Troop.t) (tg : Target) :
  sameKind tg (snd (fst (fst (Combat.attack now tr tg)))).
Proof.
  unfold Combat.attack.
  destruct (Z.leb _ _ || _); [apply sameKind_refl|].
  destruct (JS.ge _ _); [|apply sameKind_refl].
  destruct (String.eqb _ _); [apply sameKind_refl|].
  pose proof (Target_takeDamage_sameKind
                (inject_Z (Troop.calculateDamage (Troop.set_lastAttackTime now tr)
                             (Target.category tg))) tg) as H.
  now destruct (Target.takeDamage _ tg).
Qed.

Lemma attack_target (now : Q) (u : t) (r : Ref) (tg : option Target) :
  forall r' tg', target (attack now u r tg) = Some (r', tg') ->
    r' = r /\ exists tg0, tg = Some tg0 /\ sameKind tg0 tg'.
Proof.
  intros r' tg'. unfold attack. destruct tg as [tg|]; [|discriminate].
  pose proof (Combat_attack_target now (troop u) tg) as H.
  destruct (Combat.attack now (troop u) tg) as [[[tr1 tg1] projectile] log].
  cbn in H |- *. intros [= <- <-]. split; [reflexivity|]. now exists tg.
Qed.

Lemma heroInReach_ext (u u' : t) (hero : option Hero.t) :
  troop u' = troop u -> heroInReach u' hero = heroInReach u hero.
Proof. intros E. unfold heroInReach. now rewrite E. Qed.

Lemma findTargetInAttackRange_ext (me : nat) (u u' : t)
    (allTroops : list (nat * t)) (targetBase : option Base.t) :
  troop u' = troop u ->
  findTargetInAttackRange me u' allTroops targetBase
  = findTargetInAttackRange me u allTroops targetBase.
Proof. intros E. unfold findTargetInAttackRange. now rewrite E. Qed.

Lemma findNearestTarget_ext (me : nat) (u u' : t) (allTroops : list (nat * t))
    (targetBase : option Base.t) :
  troop u' = troop u ->
  findNearestTarget me u' allTroops targetBase
  = findNearestTarget me u allTroops targetBase.
Proof. intros E. unfold findNearestTarget. now rewrite E. Qed.


(** An attack on the target a troop holds, the target being of known
    origin. *)
Lemma attack_known (now : Q) (me : nat) (u u' : t) (r : Ref)
    (allTroops : list (nat * t)) (targetBase : option Base.t)
    (hero : option Hero.t) :
  Troop.isEnemy (troop u') = Troop.isEnemy (troop u) ->
  currentTarget u' = Some r ->
  targetOrigin me u allTroops targetBase hero r ->
  knownOutcome me u allTroops targetBase hero
    (attack now u' r (resolve r allTroops targetBase hero)).
Proof.
  intros He Hc Hr.
  destruct (attack_outcome now u' r (resolve r allTroops targetBase hero))
    as (_ & Hcur & Hen & _).
  split; [now rewrite Hen|]. split.
  - intros r' E. destruct Hcur as [Hcur | Hcur]; rewrite Hcur in E;
      [|discriminate].
    rewrite Hc in E. now injection E as <-.
  - intros r' tg' E. apply attack_target in E. destruct E as [-> H].
    split; [exact Hr|]. destruct H as (tg0 & E0 & Hk). now exists tg0.
Qed.

Lemma still_known (me : nat) (u u' : t) (allTroops : list (nat * t))
    (targetBase : option Base.t) (hero : option Hero.t) :
  Troop.isEnemy (troop u') = Troop.isEnemy (troop u) ->
  (forall r, currentTarget u' = Some r ->
     targetOrigin me u allTroops targetBase hero r) ->
  knownOutcome me u allTroops targetBase hero (still u').
Proof. intros He Hc. split; [exact He|]. split; [exact Hc | discriminate]. Qed.

Lemma checkAndAttackFromQueue_known (now : Q) (me : nat) (u u' : t)
    (allTroops : list (nat * t)) (targetBase : option Base.t)
    (hero : option Hero.t) :
  troop u' = troop u ->
  (forall r, currentTarget u' = Some r ->
     targetOrigin me u allTroops targetBase hero r) ->
  knownOutcome me u allTroops targetBase hero
    (checkAndAttackFromQueue now me u' allTroops targetBase hero).
Proof.
  intros Htr Hcur. unfold checkAndAttackFromQueue.
  assert (He : Troop.isEnemy (troop u') = Troop.isEnemy (troop u))
    by now rewrite Htr.
  rewrite (heroInReach_ext u u' hero Htr),
    (findTargetInAttackRange_ext me u u' allTroops targetBase Htr).
  destruct (heroInReach u hero) eqn:Eh.
  - apply attack_known; [exact He | reflexivity|]. right. now left.
  - destruct (findTargetInAttackRange me u allTroops targetBase) as [r|] eqn:Ef.
    + apply attack_known; [exact He | reflexivity|]. now do 3 right.
    + destruct (isAttacking u').
      * apply still_known; [exact He | discriminate].
      * now apply still_known.
Qed.

(** Whatever [move] aims at, it held before or has just found. *)
Lemma move_known (delta now : Q) (me : nat) (u : t)
    (allTroops : list (nat * t)) (targetBase : option Base.t)
    (hero : option Hero.t) :
  knownOutcome me u allTroops targetBase hero
    (move delta now me u allTroops targetBase hero).
Proof.
  unfold move.
  assert (Hheld : forall u', troop u' = troop u ->
            (currentTarget u' = currentTarget u \/ currentTarget u' = None) ->
            forall r, currentTarget u' = Some r ->
              targetOrigin me u allTroops targetBase hero r).
  { intros u' _ [E | E] r Hr; rewrite E in Hr; [now left | discriminate]. }
  destruct (negb (active _)).
  { apply still_known; [reflexivity|]. intros r Hr. now left. }
  destruct (checkCurrentTarget_frame u allTroops targetBase hero)
    as (Htr & _ & Hct).
  set (u1 := checkCurrentTarget u allTroops targetBase hero) in *. clearbody u1.
  assert (Hc1 : currentTarget u1 = currentTarget u \/ currentTarget u1 = None)
    by (destruct Hct as [[H _] | [H _]]; auto).
  assert (He1 : Troop.isEnemy (troop u1) = Troop.isEnemy (troop u))
    by now rewrite Htr.
  assert (Hrest :
    knownOutcome me u allTroops targetBase hero
      (if match currentTarget u1 with
          | None => heroInReach u1 hero
          | Some _ => false
          end
       then
         attack now (aimAt theHero (set_isStopped true u1)) theHero
           (resolve theHero allTroops targetBase hero)
       else
         match
           findNearestTarget me (set_isStopped false u1) allTroops targetBase
         with
         | Some r =>
             attack now (aimAt r (set_isStopped true (set_isStopped false u1))) r
               (resolve r allTroops targetBase hero)
         | None =>
             if isStopped
                  (set_isStopped
                     (checkSameCategoryAlliesAhead me (set_isStopped false u1)
                        allTroops
                        (if JS.gt (Troop.targetX (troop u1))
                              (x (Troop.sprite (troop u1)))
                         then 1%Q else (-1)%Q))
                     (set_isStopped false u1))
             then
               checkAndAttackFromQueue now me
                 (set_isStopped
                    (checkSameCategoryAlliesAhead me (set_isStopped false u1)
                       allTroops
                       (if JS.gt (Troop.targetX (troop u1))
                             (x (Troop.sprite (troop u1)))
                        then 1%Q else (-1)%Q))
                    (set_isStopped false u1))
                 allTroops targetBase hero
             else
               still
                 (moveInDirection
                    (if JS.gt (Troop.targetX (troop u1))
                          (x (Troop.sprite (troop u1)))
                     then 1%Q else (-1)%Q)
                    delta
                    (set_isStopped
                       (checkSameCategoryAlliesAhead me (set_isStopped false u1)
                          allTroops
                          (if JS.gt (Troop.targetX (troop u1))
                                (x (Troop.sprite (troop u1)))
                           then 1%Q else (-1)%Q))
                       (set_isStopped false u1)))
         end)).
  { destruct (match currentTarget u1 with
              | None => heroInReach u1 hero
              | Some _ => false
              end) eqn:Eh.
    - apply attack_known; [exact He1 | reflexivity|]. right. left.
      split; [reflexivity|]. destruct (currentTarget u1); [discriminate|].
      now rewrite <- (heroInReach_ext u u1 hero Htr).
    - rewrite (findNearestTarget_ext me u (set_isStopped false u1))
        by exact Htr.
      destruct (findNearestTarget me u allTroops targetBase) as [r|] eqn:Ef.
      + apply attack_known; [exact He1 | reflexivity|]. right. right. now left.
      + cbn [isStopped set_isStopped].
        destruct (checkSameCategoryAlliesAhead _ _ _ _).
        * apply checkAndAttackFromQueue_known; [exact Htr|].
          now apply (Hheld u1 Htr Hc1).
        * apply still_known; [exact He1|]. now apply (Hheld u1 Htr Hc1). }
  pose proof (Hheld u1 Htr Hc1) as Hheld1.
  destruct (isAttacking u1); [|exact Hrest].
  destruct (currentTarget u1) as [r|] eqn:Ec; [|exact Hrest].
  apply attack_known; [exact He1 | exact Ec | now apply Hheld1].
Qed.

Lemma origin_rightful (me : nat) (u : t) (allTroops : list (nat * t))
    (targetBase : option Base.t) (hero : option Hero.t) (r : Ref) :
  NoDup (List.map fst allTroops) ->
  (forall r', currentTarget u = Some r' -> rightful me u allTroops r') ->
  targetOrigin me u allTroops targetBase hero r ->
  rightful me u allTroops r.
Proof.
  intros Hnd Hcur [H | [[-> H] | [H | H]]].
  - now apply Hcur.
  - cbn. now apply (heroInReach_enemy u hero).
  - now apply (findNearestTarget_rightful me u allTroops targetBase).
  - now apply (findTargetInAttackRange_rightful me u allTroops targetBase).
Qed.

(** No troop turns on its own side.  If the target a troop holds, if
    any, is a troop of the other side, the base it marches on or, for an
    enemy troop, the hero, then whatever [move] calls [attack] on in this
    frame is such a target, and so is the target the troop holds
    afterwards; the troop's side does not change. *)
Theorem move_aims_only_at_the_other_side (delta now : Q) (me : nat) (u : t)
    (allTroops : list (nat * t)) (targetBase : option Base.t)
    (hero : option Hero.t) :
  NoDup (List.map fst allTroops) ->
  (forall r, currentTarget u = Some r -> rightful me u allTroops r) ->
  let o := move delta now me u allTroops targetBase hero in
  (forall r tg, target o = Some (r, tg) -> rightful me u allTroops r) /\
  (forall r, currentTarget (self o) = Some r -> rightful me u allTroops r) /\
  Troop.isEnemy (troop (self o)) = Troop.isEnemy (troop u).
Proof.
  intros Hnd Hcur. cbv zeta.
  destruct (move_known delta now me u allTroops targetBase hero)
    as (Hside & Hheld & Hstruck).
  split; [|split; [|exact Hside]].
  - intros r tg E. destruct (Hstruck r tg E) as [Ho _].
    now apply (origin_rightful me u allTroops targetBase hero).
  - intros r E.
    apply (origin_rightful me u allTroops targetBase hero); auto.
Qed.

Lemma move_aims_only_at_the_other_side_witness :
  let ally :=
    {| troop := Troop.new 100 500 "Light" 900 false TroopConfig.empty;
       currentTarget := None; isAttacking := false; isStopped := false |} in
  let foe :=
    {| troop := Troop.new 120 500 "Heavy" 0 true TroopConfig.empty;
       currentTarget := None; isAttacking := false; isStopped := false |} in
  let o := move 16 2000 0 ally [(0%nat, ally); (1%nat, foe)] None None in
  (exists tg, target o = Some (aTroop 1, tg)) /\
  rightful 0 ally [(0%nat, ally); (1%nat, foe)] (aTroop 1).
Proof.
  cbv zeta. split; [eexists; vm_compute; reflexivity|].
  refine (proj1 (move_aims_only_at_the_other_side 16 2000 0
           {| troop := Troop.new 100 500 "Light" 900 false TroopConfig.empty;
              currentTarget := None; isAttacking := false; isStopped := false |}
           [(0%nat,
             {| troop := Troop.new 100 500 "Light" 900 false TroopConfig.empty;
                currentTarget := None; isAttacking := false; isStopped := false |});
            (1%nat,
             {| troop := Troop.new 120 500 "Heavy" 0 true TroopConfig.empty;
                currentTarget := None; isAttacking := false; isStopped := false |})]
           None None _ _) (aTroop 1) _ _).
  - cbn. repeat constructor; cbn; intuition discriminate.
  - cbn. discriminate.
  - vm_compute. reflexivity.
Defined.






End TroopFrames.

(** ** Troops and upgrades bought with gold *)

Section FieldOrders.

Import Field.

(** A troop is paid for exactly when it is spawned.  With both bases in
    place, [spawnAllyTroopWithGold] takes the unit's cost (75 for a
    longbowman, nothing for a category without a cost entry) and adds one
    allied troop at the player base, marching on the enemy base, when the
    gold suffices and, for a longbowman, the feature is unlocked;
    otherwise it changes nothing at all.  It also changes nothing for a
    category named like a member of [Object.prototype]: the cost found is
    that member, not a number, and these are the only categories without
    a numeric cost.  (The troop spawned is stated for the categories the
    troop configuration is modelled for: in a name such as
    ["Ranged:Archer"] the part before the colon is no name of a member of
    [Object.prototype].) *)
Theorem spawnAllyTroopWithGold_charges_for_what_it_spawns
    (category : string) (type : option string) (f : t) (pb eb : Base.t) :
  playerBase f = Some pb -> enemyBase f = Some eb ->
  let longbow :=
    match type with Some ty => String.eqb ty "Longbowman" | None => false end in
  let cost := if longbow then Some 75 else GameManager.getUnitCost category in
  let allowed :=
    negb longbow || Ledger.isFeatureUnlocked "longbowTraining" (manager f) in
  let f' := spawnAllyTroopWithGold category type f in
  (forall c,
     cost = Some c -> allowed = true ->
     c <= GameManager.gold (Ledger.manager (manager f)) ->
     ~ In (Troop.beforeColon category) JS.Object_prototype ->
     GameManager.gold (Ledger.manager (manager f'))
     = GameManager.gold (Ledger.manager (manager f)) - c /\
     GameManager.xp (Ledger.manager (manager f'))
     = GameManager.xp (Ledger.manager (manager f)) /\
     troops f' =
       troops f ++
       [(nextTroop f,
         newTroop (x (Base.sprite pb)) (y (Base.sprite pb)) category
           (x (Base.sprite eb)) false TroopConfig.empty)] /\
     playerBase f' = playerBase f /\ enemyBase f' = enemyBase f /\
     hero f' = hero f) /\
  (allowed = false \/ cost = None \/
   (exists c, cost = Some c /\ GameManager.gold (Ledger.manager (manager f)) < c) ->
   f' = f) /\
  (cost = None <-> longbow = false /\ In category JS.Object_prototype).
Proof.
  intros Hpb Heb. cbv zeta. unfold spawnAllyTroopWithGold.
  destruct (match type with Some ty => String.eqb ty "Longbowman" | None => false end).
  - cbn [negb orb].
    split; [|split]; [| |split; [discriminate | now intros [? _]]].
    + intros c [= <-] Hfeat Hgold _. rewrite Hfeat. cbn [negb].
      unfold GameManager.spendGold.
      replace (Z.geb _ 75) with true by (symmetry; apply Z.geb_le; lia).
      unfold spawnAllyTroop. cbn. rewrite Hpb, Heb. cbn.
      now repeat split.
    + intros [Hfeat | [Hcost | (c & [= <-] & Hgold)]].
      * now rewrite Hfeat.
      * discriminate.
      * destruct (Ledger.isFeatureUnlocked _ _); cbn [negb]; [|reflexivity].
        unfold GameManager.spendGold.
        replace (Z.geb _ 75) with false; [reflexivity|].
        symmetry. apply not_true_iff_false. rewrite Z.geb_le. lia.
  - cbn [negb orb].
    split; [|split].
    + intros c Hcost _ Hgold _. rewrite Hcost.
      unfold GameManager.spendGold.
      replace (Z.geb _ c) with true by (symmetry; apply Z.geb_le; lia).
      unfold spawnAllyTroop. cbn. rewrite Hpb, Heb. cbn.
      now repeat split.
    + intros [Hfeat | [Hcost | (c & Hcost & Hgold)]].
      * discriminate.
      * now rewrite Hcost.
      * rewrite Hcost. unfold GameManager.spendGold.
        replace (Z.geb _ c) with false; [reflexivity|].
        symmetry. apply not_true_iff_false. rewrite Z.geb_le. lia.
    + unfold GameManager.getUnitCost.
      destruct (unitCosts_cases category)
        as [[-> E] | [[-> E] | [[-> E] | [[Hin E] | [Hout E]]]]];
        rewrite E.
      1-3: split; [discriminate|];
           intros [_ Hin]; cbn in Hin; intuition discriminate.
      * now split.
      * split; [discriminate|]. now intros [_ Hin].
Qed.

Lemma spawnAllyTroopWithGold_charges_for_what_it_spawns_witness :
  GameManager.gold
    (Ledger.manager
       (manager (spawnAllyTroopWithGold "Heavy" None (create Ledger.initial))))
  = 100 - 50.
Proof.
  apply (proj1 (spawnAllyTroopWithGold_charges_for_what_it_spawns "Heavy" None
                  (create Ledger.initial) _ _ eq_refl eq_refl)
           50 eq_refl eq_refl).
  - vm_compute; discriminate.
  - cbn. intuition discriminate.
Defined.

(** A longbowman is the plain ranged troop at more than twice the price.
    Once the feature is unlocked and 75 gold are there, asking for a
    longbowman adds the very troop that asking for a ranged troop adds --
    attack range 150 and damage 15, no unit type -- for 75 gold instead
    of 35; whether the gold upgrade of the same name was bought plays no
    part. *)
Theorem longbowman_is_the_ranged_troop_at_75 (f : t) (pb eb : Base.t) :
  playerBase f = Some pb -> enemyBase f = Some eb ->
  Ledger.isFeatureUnlocked "longbowTraining" (manager f) = true ->
  75 <= GameManager.gold (Ledger.manager (manager f)) ->
  let a := spawnAllyTroopWithGold "Ranged" (Some "Longbowman"%string) f in
  let b := spawnAllyTroopWithGold "Ranged" None f in
  troops a = troops b /\
  GameManager.gold (Ledger.manager (manager a))
  = GameManager.gold (Ledger.manager (manager f)) - 75 /\
  GameManager.gold (Ledger.manager (manager b))
  = GameManager.gold (Ledger.manager (manager f)) - 35 /\
  exists u, troops a = troops f ++ [(nextTroop f, u)] /\
    Troop.category (TroopMove.troop u) = "Ranged"%string /\
    Troop.unitType (TroopMove.troop u) = None /\
    Troop.attackRange (TroopMove.troop u) = 150%Q /\
    Troop.attackDamage (TroopMove.troop u) = 15%Q /\
    Troop.isEnemy (TroopMove.troop u) = false.
Proof.
  intros Hpb Heb Hfeat Hgold. cbv zeta. unfold spawnAllyTroopWithGold.
  cbn [String.eqb Ascii.eqb Bool.eqb]. rewrite Hfeat. cbn [negb].
  change (GameManager.getUnitCost "Ranged") with (Some 35).
  unfold GameManager.spendGold.
  assert (E75 : Z.geb (GameManager.gold (Ledger.manager (manager f))) 75 = true)
    by (apply Z.geb_le; lia).
  assert (E35 : Z.geb (GameManager.gold (Ledger.manager (manager f))) 35 = true)
    by (apply Z.geb_le; lia).
  rewrite E75, E35. unfold spawnAllyTroop. cbn. rewrite Hpb, Heb. cbn.
  repeat split. eexists. repeat split.
Qed.

Lemma longbowman_is_the_ranged_troop_at_75_witness :
  let f :=
    set_manager
      (snd (Ledger.purchaseRoundUpgrade "unlockLongbowTraining" 200
              (Ledger.set_manager
                 (GameManager.addXP 200 GameManager.initial) Ledger.initial)))
      (create Ledger.initial) in
  troops (spawnAllyTroopWithGold "Ranged" (Some "Longbowman"%string) f)
  = troops (spawnAllyTroopWithGold "Ranged" None f).
Proof.
  cbv zeta.
  apply (longbowman_is_the_ranged_troop_at_75
           (set_manager
              (snd (Ledger.purchaseRoundUpgrade "unlockLongbowTraining" 200
                      (Ledger.set_manager
                         (GameManager.addXP 200 GameManager.initial)
                         Ledger.initial)))
              (create Ledger.initial)) _ _ eq_refl eq_refl);
    [reflexivity | vm_compute; discriminate].
Defined.

(** Reinforced walls add a quarter, once.  Bought while the player base
    stands, the upgrade costs 300 gold and raises the base's health and
    maximum health by a quarter of the maximum, rounded down, so the
    damage taken so far stays; a second purchase is refused and changes
    nothing. *)
Theorem reinforcedWalls_adds_a_quarter_once (f : t) (pb : Base.t) :
  playerBase f = Some pb ->
  0 < Base.health pb <= Base.maxHealth pb ->
  Ledger.canPurchaseUpgrade "reinforcedWalls" (manager f) = true ->
  let f' := purchaseBaseUpgrade "reinforcedWalls" f in
  (exists pb', playerBase f' = Some pb' /\
     Base.maxHealth pb' = Base.maxHealth pb + Base.maxHealth pb / 4 /\
     Base.health pb' = Base.health pb + Base.maxHealth pb / 4 /\
     0 < Base.health pb' <= Base.maxHealth pb' /\
     Base.sprite pb' = Base.sprite pb) /\
  GameManager.gold (Ledger.manager (manager f'))
  = GameManager.gold (Ledger.manager (manager f)) - 300 /\
  enemyBase f' = enemyBase f /\ hero f' = hero f /\ troops f' = troops f /\
  purchaseBaseUpgrade "reinforcedWalls" f' = f'.
Proof.
  intros Hpb Hh Hcan. cbv zeta.
  unfold Ledger.canPurchaseUpgrade in Hcan. cbn in Hcan.
  destruct (Ledger.includes "reinforcedWalls" (Ledger.purchasedUpgrades (manager f)))
    eqn:Einc; [discriminate|].
  assert (Hq : 0 <= Base.maxHealth pb / 4) by (apply Z.div_pos; lia).
  assert (Hpos : Z.eqb (Base.health pb) 0 = false) by (apply Z.eqb_neq; lia).
  assert (Hagain :
    forall l, In "reinforcedWalls"%string (Ledger.purchasedUpgrades l) ->
      Ledger.purchaseUpgrade "reinforcedWalls" l = (false, l)).
  { intros l Hin. unfold Ledger.purchaseUpgrade. cbn.
    apply includes_In in Hin. now rewrite Hin. }
  assert (E :
    purchaseBaseUpgrade "reinforcedWalls" f =
    {| manager :=
         {| Ledger.manager :=
              GameManager.set_gold
                (GameManager.gold (Ledger.manager (manager f)) - 300)
                (Ledger.manager (manager f));
            Ledger.purchasedUpgrades :=
              Ledger.setTrue "reinforcedWalls"
                (Ledger.purchasedUpgrades (manager f));
            Ledger.roundUpgrades := Ledger.roundUpgrades (manager f);
            Ledger.enemyUpgrades := Ledger.enemyUpgrades (manager f);
            Ledger.unlockedFeatures := Ledger.unlockedFeatures (manager f) |};
       gameActive := gameActive f;
       playerBase :=
         Some {| Base.isPlayerBase := Base.isPlayerBase pb;
                 Base.health := Base.health pb + Base.maxHealth pb / 4;
                 Base.maxHealth := Base.maxHealth pb + Base.maxHealth pb / 4;
                 Base.sprite := Base.sprite pb |};
       enemyBase := enemyBase f; hero := hero f; troops := troops f;
       nextTroop := nextTroop f |}).
  { unfold purchaseBaseUpgrade, Ledger.purchaseUpgrade. cbn. rewrite Einc.
    unfold GameManager.spendGold. rewrite Hcan.
    unfold applyUpgradeEffect. cbn. rewrite Hpb, Hpos.
    replace (Base.maxHealth pb * 25 / 100) with (Base.maxHealth pb / 4);
      [reflexivity|].
    change 100 with (4 * 25). now rewrite Z.div_mul_cancel_r. }
  rewrite E.
  split; [eexists; split; [reflexivity|]; cbn; repeat split; lia|].
  split; [reflexivity|]. split; [reflexivity|]. split; [reflexivity|].
  split; [reflexivity|].
  unfold purchaseBaseUpgrade. cbn [manager]. rewrite Hagain; [reflexivity|].
  cbn. apply setTrue_In. now left.
Qed.

Lemma reinforcedWalls_adds_a_quarter_once_witness :
  let f :=
    set_manager
      (Ledger.set_manager (GameManager.set_gold 300 GameManager.initial)
         Ledger.initial)
      (create Ledger.initial) in
  exists pb', playerBase (purchaseBaseUpgrade "reinforcedWalls" f) = Some pb' /\
    Base.maxHealth pb' = 300 + 300 / 4.
Proof.
  cbv zeta.
  destruct (reinforcedWalls_adds_a_quarter_once
              (set_manager
                 (Ledger.set_manager (GameManager.set_gold 300 GameManager.initial)
                    Ledger.initial)
                 (create Ledger.initial))
              (fst (createBases Ledger.initial)) eq_refl
              ltac:(cbn; lia) eq_refl)
    as [(pb' & H1 & H2 & _) _].
  exists pb'. split; [exact H1 | exact H2].
Defined.

(** Two upgrades that are paid for and change nothing in play.  Buying
    [improvedArrows] or [longbowTraining] with gold leaves the hero --
    and with it the damage of its arrows --, both bases and all troops
    as they were; only the manager's books change. *)
Theorem improvedArrows_and_longbowTraining_change_nothing_in_play
    (upgradeId : string) (f : t) :
  upgradeId = "improvedArrows"%string \/ upgradeId = "longbowTraining"%string ->
  let f' := purchaseBaseUpgrade upgradeId f in
  hero f' = hero f /\ playerBase f' = playerBase f /\
  enemyBase f' = enemyBase f /\ troops f' = troops f /\
  gameActive f' = gameActive f /\
  Ledger.unlockedFeatures (manager f') = Ledger.unlockedFeatures (manager f) /\
  (Ledger.canPurchaseUpgrade upgradeId (manager f) = true ->
   GameManager.gold (Ledger.manager (manager f'))
   = GameManager.gold (Ledger.manager (manager f))
     - (if String.eqb upgradeId "improvedArrows" then 300 else 400)).
Proof.
  intros Hid. cbv zeta. unfold purchaseBaseUpgrade, Ledger.canPurchaseUpgrade.
  unfold Ledger.purchaseUpgrade.
  destruct Hid as [-> | ->]; cbn [Ledger.baseUpgradeCost String.eqb Ascii.eqb Bool.eqb andb].
  - destruct (Ledger.includes _ (Ledger.purchasedUpgrades (manager f)));
      [now repeat split|].
    unfold GameManager.spendGold.
    destruct (Z.geb _ 300); [|now repeat split].
    now repeat split.
  - destruct (Ledger.includes _ (Ledger.purchasedUpgrades (manager f)));
      [now repeat split|].
    destruct (negb (Ledger.includes _ (Ledger.unlockedFeatures (manager f))));
      [now repeat split|].
    unfold GameManager.spendGold.
    destruct (Z.geb _ 400); [|now repeat split].
    now repeat split.
Qed.

Lemma improvedArrows_and_longbowTraining_change_nothing_in_play_witness :
  hero (purchaseBaseUpgrade "improvedArrows"
          (set_manager
             (Ledger.set_manager (GameManager.set_gold 300 GameManager.initial)
                Ledger.initial)
             (create Ledger.initial)))
  = Some (Hero.new 200 400, Summoner.new).
Proof.
  apply (improvedArrows_and_longbowTraining_change_nothing_in_play
           "improvedArrows"
           (set_manager
              (Ledger.set_manager (GameManager.set_gold 300 GameManager.initial)
                 Ledger.initial)
              (create Ledger.initial))).
  now left.
Defined.

(** What gold buys lasts one round.  The next round's scene is set up
    from the manager alone: the hero's platform settings are the base
    ones again and the player base has its 300 health, whatever was
    bought; and as the manager still lists the upgrade as bought, buying
    it again is refused and changes nothing. *)
Theorem upgrades_bought_with_gold_end_with_the_round
    (upgradeId : string) (f : t) :
  In upgradeId (Ledger.purchasedUpgrades (manager f)) ->
  let next := create (Ledger.advanceRound (manager f)) in
  (exists h ability, hero next = Some (h, ability) /\
     Summoner.platformCooldown ability = 5000%Q /\
     Summoner.platformDuration ability = 6000%Q /\
     Summoner.platformWidth ability = 70%Q /\
     Hero.damageMultiplier h = 1%Q) /\
  (exists pb, playerBase next = Some pb /\
     Base.health pb = 300 /\ Base.maxHealth pb = 300) /\
  GameManager.gold (Ledger.manager (manager next))
  = GameManager.gold (Ledger.manager (manager f)) /\
  purchaseBaseUpgrade upgradeId next = next.
Proof.
  intros Hin. cbv zeta.
  split; [do 2 eexists; split; [reflexivity|]; now repeat split|].
  split; [eexists; split; [reflexivity|]; now split|].
  split; [reflexivity|].
  unfold purchaseBaseUpgrade, Ledger.purchaseUpgrade. cbn [manager create].
  destruct (Ledger.baseUpgradeCost upgradeId); [|reflexivity].
  apply includes_In in Hin.
  change (Ledger.purchasedUpgrades (Ledger.advanceRound (manager f)))
    with (Ledger.purchasedUpgrades (manager f)).
  now rewrite Hin.
Qed.

Lemma upgrades_bought_with_gold_end_with_the_round_witness :
  let f :=
    purchaseBaseUpgrade "quickSummoning"
      (set_manager
         (Ledger.set_manager (GameManager.set_gold 350 GameManager.initial)
            Ledger.initial)
         (create Ledger.initial)) in
  (exists h ability, hero f = Some (h, ability) /\
     Summoner.platformCooldown ability = 3750%Q) /\
  purchaseBaseUpgrade "quickSummoning" (create (Ledger.advanceRound (manager f)))
  = create (Ledger.advanceRound (manager f)).
Proof.
  cbv zeta. split; [do 2 eexists; split; reflexivity|].
  apply (upgrades_bought_with_gold_end_with_the_round "quickSummoning"
           (purchaseBaseUpgrade "quickSummoning"
              (set_manager
                 (Ledger.set_manager (GameManager.set_gold 350 GameManager.initial)
                    Ledger.initial)
                 (create Ledger.initial)))).
  vm_compute. now left.
Defined.

End FieldOrders.

(** ** The troops' turn *)

Section TroopsTurn.

Import Battle.

Lemma replaceTroop_fst (id : nat) (g : TroopMove.t -> TroopMove.t)
    (l : list (nat * TroopMove.t)) :
  List.map fst (replaceTroop id g l) = List.map fst l.
Proof.
  unfold replaceTroop. rewrite map_map. apply map_ext.
  intros [k u]. cbn. now destruct (Nat.eqb k id).
Qed.

Lemma replaceTroop_In (id : nat) (g : TroopMove.t -> TroopMove.t)
    (l : list (nat * TroopMove.t)) (k : nat) (u' : TroopMove.t) :
  In (k, u') (replaceTroop id g l) ->
  exists u, In (k, u) l /\ ((k <> id /\ u' = u) \/ (k = id /\ u' = g u)).
Proof.
  unfold replaceTroop. rewrite in_map_iff. intros ([k0 u0] & E & Hin).
  cbn [fst snd] in E. destruct (Nat.eqb k0 id) eqn:Ek; injection E as <- <-;
    exists u0; (split; [exact Hin|]).
  - right. apply Nat.eqb_eq in Ek. now split.
  - left. apply Nat.eqb_neq in Ek. now split.
Qed.

Lemma removeAt_nil (j : nat) : removeAt j [] = [].
Proof. unfold removeAt. now destruct j. Qed.

Lemma removeAt_In (j : nat) (l : list (nat * TroopMove.t)) (it : nat * TroopMove.t) :
  In it (removeAt j l) -> In it l.
Proof.
  revert j. induction l as [|a l IH]; intros j; [now rewrite removeAt_nil|].
  destruct j as [|j]; unfold removeAt; cbn.
  - now right.
  - intros [<- | H]; [now left|]. right. now apply (IH j).
Qed.

Lemma removeAt_NoDup (j : nat) (l : list (nat * TroopMove.t)) :
  NoDup (List.map fst l) -> NoDup (List.map fst (removeAt j l)).
Proof.
  revert j. induction l as [|a l IH]; intros j Hnd; [now rewrite removeAt_nil|].
  inversion Hnd as [|? ? Hnot Hnd']; subst.
  destruct j as [|j]; unfold removeAt; cbn; [exact Hnd'|].
  constructor; [|now apply (IH j)].
  intros Hin. apply Hnot. apply in_map_iff in Hin.
  destruct Hin as (it & E & Hin). apply in_map_iff. exists it.
  split; [exact E|]. now apply (removeAt_In j).
Qed.

Lemma removeAt_length (j : nat) (l : list (nat * TroopMove.t)) :
  (List.length (removeAt j l) <= List.length l)%nat.
Proof.
  unfold removeAt. rewrite length_app, length_firstn, length_skipn. lia.
Qed.

Lemma lookup_In (id : nat) (l : list (nat * TroopMove.t)) (u : TroopMove.t) :
  TroopMove.lookup id l = Some u -> In (id, u) l.
Proof.
  unfold TroopMove.lookup.
  destruct (List.find _ l) as [[k u0]|] eqn:E; [|discriminate].
  cbn. intros [= <-]. apply find_some in E. destruct E as [Hin Hk].
  cbn in Hk. apply Nat.eqb_eq in Hk. now subst.
Qed.

(** A rightful target stays rightful when the sides stay. *)
Lemma rightful_transfer (me : nat) (u u' : TroopMove.t)
    (l l' : list (nat * TroopMove.t)) (r : TroopMove.Ref) :
  Troop.isEnemy (TroopMove.troop u') = Troop.isEnemy (TroopMove.troop u) ->
  (forall k other', In (k, other') l' ->
     exists other, In (k, other) l /\
       Troop.isEnemy (TroopMove.troop other')
       = Troop.isEnemy (TroopMove.troop other)) ->
  rightful me u l r -> rightful me u' l' r.
Proof.
  intros He Hl Hr. destruct r as [k| |]; cbn in *; [|exact I|congruence].
  intros other' Hin'. destruct (Hl _ _ Hin') as (other & Hin & E).
  specialize (Hr other Hin). unfold opposing in *. cbn [fst snd] in *.
  now rewrite E, He.
Qed.

Lemma troopsInv_nil (n : nat) : troopsInv [] n.
Proof. split; [constructor | intros id u []]. Qed.

Lemma troopsInv_push (l : list (nat * TroopMove.t)) (n : nat) (u : TroopMove.t) :
  troopsInv l n -> TroopMove.currentTarget u = None ->
  troopsInv (l ++ [(n, u)]) (S n).
Proof.
  intros [Hnd Hall] Hu. split.
  - rewrite map_app. cbn. apply NoDup_app; [exact Hnd | | ].
    + constructor; [intros [] | constructor].
    + intros k Hk [<- | []]. apply in_map_iff in Hk.
      destruct Hk as ([k' u'] & E & Hin). cbn in E. subst k'.
      destruct (Hall _ _ Hin) as [Hlt _]. lia.
  - intros id u0 Hin. apply in_app_iff in Hin.
    destruct Hin as [Hin | [[= <- <-] | []]].
    + destruct (Hall _ _ Hin) as [Hlt Hcur]. split; [lia|].
      intros r Hr. destruct (Hcur r Hr) as [Hright Hbound]. split.
      * destruct r as [k| |]; cbn in *; [|exact I|exact Hright].
        intros other Hin'. apply in_app_iff in Hin'.
        destruct Hin' as [Hin' | [[= -> <-] | []]]; [now apply Hright|lia].
      * destruct r; [lia | exact I | exact I].
    + split; [lia|]. intros r Hr. congruence.
Qed.

Lemma troopsInv_removeAt (l : list (nat * TroopMove.t)) (n j : nat) :
  troopsInv l n -> troopsInv (removeAt j l) n.
Proof.
  intros [Hnd Hall]. split; [now apply removeAt_NoDup|].
  intros id u Hin. apply removeAt_In in Hin.
  destruct (Hall _ _ Hin) as [Hlt Hcur]. split; [exact Hlt|].
  intros r Hr. destruct (Hcur r Hr) as [Hright Hbound]. split; [|exact Hbound].
  apply (rightful_transfer id u u l); [reflexivity | | exact Hright].
  intros k other' Hin'. exists other'. split; [|reflexivity].
  now apply (removeAt_In j).
Qed.

Lemma troopsInv_replace (l : list (nat * TroopMove.t)) (n id : nat)
    (g : TroopMove.t -> TroopMove.t) :
  troopsInv l n ->
  (forall u, In (id, u) l ->
     Troop.isEnemy (TroopMove.troop (g u)) = Troop.isEnemy (TroopMove.troop u) /\
     forall r, TroopMove.currentTarget (g u) = Some r ->
       rightful id u l r /\
       match r with
       | TroopMove.aTroop id' => (id' < n)%nat
       | _ => True
       end) ->
  troopsInv (replaceTroop id g l) n.
Proof.
  intros [Hnd Hall] Hg.
  assert (Hsides : forall k other', In (k, other') (replaceTroop id g l) ->
            exists other, In (k, other) l /\
              Troop.isEnemy (TroopMove.troop other')
              = Troop.isEnemy (TroopMove.troop other)).
  { intros k other' Hin'. apply replaceTroop_In in Hin'.
    destruct Hin' as (other & Hin & [[_ ->] | [-> ->]]); exists other;
      (split; [exact Hin|]); [reflexivity|].
    now destruct (Hg other Hin). }
  split; [now rewrite replaceTroop_fst|].
  intros k u' Hin'. apply replaceTroop_In in Hin'.
  destruct Hin' as (u & Hin & [[Hne ->] | [-> ->]]).
  - destruct (Hall _ _ Hin) as [Hlt Hcur]. split; [exact Hlt|].
    intros r Hr. destruct (Hcur r Hr) as [Hright Hbound]. split; [|exact Hbound].
    now apply (rightful_transfer k u u l).
  - destruct (Hall _ _ Hin) as [Hlt _]. split; [exact Hlt|].
    destruct (Hg u Hin) as [Hside Hcur].
    intros r Hr. destruct (Hcur r Hr) as [Hright Hbound]. split; [|exact Hbound].
    now apply (rightful_transfer id u (g u) l).
Qed.

Lemma handle_frame (c : SceneCall) (f : Field.t) :
  Field.troops (handle c f) = Field.troops f /\
  Field.nextTroop (handle c f) = Field.nextTroop f /\
  Field.playerBase (handle c f) = Field.playerBase f /\
  Field.enemyBase (handle c f) = Field.enemyBase f /\
  Field.hero (handle c f) = Field.hero f.
Proof.
  unfold handle. destruct (Game.handle _ _) as [[scene gm]|]; now repeat split.
Qed.

Lemma handles_frame (log : list SceneCall) (f : Field.t) :
  Field.troops (List.fold_left (fun acc c => handle c acc) log f)
  = Field.troops f /\
  Field.nextTroop (List.fold_left (fun acc c => handle c acc) log f)
  = Field.nextTroop f.
Proof.
  revert f. induction log as [|c log IH]; intros f; cbn; [now split|].
  destruct (IH (handle c f)) as [H1 H2].
  destruct (handle_frame c f) as (H3 & H4 & _).
  split; congruence.
Qed.

Lemma fieldInv_ext (f f' : Field.t) :
  Field.troops f' = Field.troops f -> Field.nextTroop f' = Field.nextTroop f ->
  fieldInv f -> fieldInv f'.
Proof. unfold fieldInv. now intros -> ->. Qed.

Lemma origin_inv (me : nat) (u : TroopMove.t) (l : list (nat * TroopMove.t))
    (n : nat) (targetBase : option Base.t) (hero : option Hero.t)
    (r : TroopMove.Ref) :
  troopsInv l n -> In (me, u) l ->
  targetOrigin me u l targetBase hero r ->
  rightful me u l r /\
  match r with
  | TroopMove.aTroop id' => (id' < n)%nat
  | _ => True
  end.
Proof.
  intros [Hnd Hall] Hin Ho. destruct (Hall _ _ Hin) as [_ Hcur]. split.
  - apply (origin_rightful me u l targetBase hero); [exact Hnd | | exact Ho].
    intros r' Hr'. now apply Hcur.
  - destruct Ho as [H | [[-> _] | [H | H]]].
    + now apply Hcur.
    + exact I.
    + destruct r as [k| |]; try exact I.
      pose proof (findNearestTarget_cases me u l targetBase) as Hc.
      rewrite H in Hc. destruct Hc as (other & Hin' & _).
      now destruct (Hall _ _ Hin').
    + destruct r as [k| |]; try exact I.
      pose proof (findTargetInAttackRange_cases me u l targetBase) as Hc.
      rewrite H in Hc. destruct Hc as (other & Hin' & _).
      now destruct (Hall _ _ Hin').
Qed.

(** Putting back what a troop's frame changed keeps the troops in
    order. *)
Lemma settle_inv (delta now : Q) (f : Field.t) (id : nat) (u : TroopMove.t)
    (enemy : bool) (targetBase : option Base.t) (hero : option Hero.t) :
  fieldInv f -> In (id, u) (Field.troops f) ->
  fieldInv
    (settle id enemy
       (TroopMove.move delta now id u (Field.troops f) targetBase hero) f).
Proof.
  intros Hf Hin.
  destruct (move_known delta now id u (Field.troops f) targetBase hero)
    as (Hside & Hheld & Hstruck).
  set (o := TroopMove.move delta now id u (Field.troops f) targetBase hero) in *.
  clearbody o. unfold settle.
  assert (H1 : troopsInv
                 (replaceTroop id (fun _ => TroopMove.self o) (Field.troops f))
                 (Field.nextTroop f)).
  { apply troopsInv_replace; [exact Hf|]. intros u0 Hin0.
    assert (u0 = u) by (apply (NoDup_fst_unique (Field.troops f) id);
                        [apply Hf | exact Hin0 | exact Hin]).
    subst u0. split; [exact Hside|]. intros r Hr.
    apply (origin_inv id u (Field.troops f) _ targetBase hero);
      [exact Hf | exact Hin | now apply Hheld]. }
  set (l1 := replaceTroop id (fun _ => TroopMove.self o) (Field.troops f)) in *.
  set (f1 := set_troops l1 f).
  assert (Hf1 : fieldInv f1) by exact H1.
  assert (H2 :
    fieldInv
      match TroopMove.target o with
      | Some (TroopMove.aTroop k, ofTroop tr) =>
          set_troops (replaceTroop k (TroopMove.set_troop tr) (Field.troops f1)) f1
      | Some (TroopMove.theBase, ofBase b) =>
          if enemy then set_playerBase (Some b) f1 else set_enemyBase (Some b) f1
      | Some (TroopMove.theHero, ofHero h) =>
          set_hero
            (match Field.hero f1 with
             | Some (_, ability) => Some (h, ability)
             | None => None
             end) f1
      | _ => f1
      end).
  { destruct (TroopMove.target o) as [[r tg']|] eqn:Et; [|exact Hf1].
    destruct r as [k| |], tg' as [tr | b | h]; try exact Hf1.
    - destruct (Hstruck _ _ eq_refl) as [Ho (tg & Eres & Hk)].
      cbn [TroopMove.resolve] in Eres.
      destruct (TroopMove.lookup k (Field.troops f)) as [other|] eqn:El;
        [|discriminate].
      cbn in Eres. injection Eres as <-. cbn in Hk. apply lookup_In in El.
      unfold fieldInv. cbn [Field.troops Field.nextTroop set_troops f1].
      apply troopsInv_replace; [exact H1|]. intros e He. split.
      + cbn. apply replaceTroop_In in He.
        destruct He as (e0 & Hin0 & [[Hne ->] | [-> ->]]).
        * now rewrite (NoDup_fst_unique (Field.troops f) k e0 other
                         (proj1 Hf) Hin0 El).
        * rewrite Hside, Hk.
          now rewrite (NoDup_fst_unique (Field.troops f) id u other
                         (proj1 Hf) Hin El).
      + intros r Hr. cbn in Hr. destruct H1 as [_ Hall1].
        destruct (Hall1 _ _ He) as [_ Hc]. exact (Hc r Hr).
    - now destruct enemy. }
  apply (fieldInv_ext _ _ (proj1 (handles_frame _ _)) (proj2 (handles_frame _ _))).
  exact H2.
Qed.

Lemma loop_inv (delta now : Q) (i : nat) (st : Field.t * list SubProjectile.t) :
  fieldInv (fst st) -> fieldInv (fst (loop i delta now st)).
Proof.
  revert st. induction i as [|j IH]; intros st Hst; [exact Hst|].
  cbn [loop].
  destruct (List.nth_error (Field.troops (fst st)) j) as [[id u]|] eqn:En;
    [|now apply IH].
  destruct (negb (active _)).
  - apply IH. cbn [fst]. now apply troopsInv_removeAt.
  - apply IH. cbn [fst]. apply settle_inv; [exact Hst|].
    now apply (nth_error_In _ j).
Qed.

Lemma Field_push_inv (u : TroopMove.t) (f : Field.t) :
  fieldInv f -> TroopMove.currentTarget u = None -> fieldInv (Field.push u f).
Proof. intros Hf Hu. now apply troopsInv_push. Qed.

Lemma Field_step_inv (c : Field.Call) (f : Field.t) :
  fieldInv f -> fieldInv (Field.step c f).
Proof.
  intros Hf.
  assert (Hally : forall category cfg f0, fieldInv f0 ->
            fieldInv (Field.spawnAllyTroop category cfg f0)).
  { intros category cfg f0 H0. unfold Field.spawnAllyTroop.
    destruct (Field.playerBase f0); [|exact H0].
    destruct (Field.enemyBase f0); [|exact H0].
    now apply Field_push_inv. }
  destruct c as [category type | category | | upgradeId]; cbn [Field.step].
  - unfold Field.spawnAllyTroopWithGold.
    destruct (match type with Some _ => _ | None => _ end).
    + destruct (negb _); [exact Hf|].
      destruct (GameManager.spendGold _ _) as [[|] g]; [|exact Hf].
      now apply Hally.
    + destruct (GameManager.getUnitCost category) as [cost|]; [|exact Hf].
      destruct (GameManager.spendGold _ _) as [[|] g]; [|exact Hf].
      now apply Hally.
  - unfold Field.spawnEnemyTroop.
    destruct (Field.playerBase f); [|exact Hf].
    destruct (Field.enemyBase f); [|exact Hf].
    now apply Field_push_inv.
  - unfold Field.generatePassiveIncome. now destruct (negb _).
  - unfold Field.purchaseBaseUpgrade.
    destruct (Ledger.purchaseUpgrade _ _) as [[|] l]; [|exact Hf].
    unfold Field.applyUpgradeEffect.
    destruct (Ledger.baseUpgradeCost upgradeId); [|exact Hf].
    destruct (String.eqb upgradeId "reinforcedWalls").
    + cbn [Field.playerBase Field.set_manager].
      destruct (Field.playerBase f) as [pb|]; [|exact Hf].
      now destruct (Z.eqb _ 0).
    + destruct (_ || _); [|exact Hf].
      cbn [Field.hero Field.set_manager].
      now destruct (Field.hero f) as [[h ability]|].
Qed.

Lemma Troop_takeDamage_side (damage : Q) (tr : Troop.t) :
  Troop.isEnemy (fst (Troop.takeDamage damage tr)) = Troop.isEnemy tr.
Proof.
  unfold Troop.takeDamage. destruct (JS.le damage 0); [reflexivity|].
  cbn. now destruct (Z.leb _ 0).
Qed.

Lemma step_fieldInv (e : Event) (f : Field.t) : fieldInv f -> fieldInv (step e f).
Proof.
  intros Hf.
  assert (Hkeep : forall g : TroopMove.t -> TroopMove.t, forall id,
            (forall u, Troop.isEnemy (TroopMove.troop (g u))
                       = Troop.isEnemy (TroopMove.troop u) /\
                       TroopMove.currentTarget (g u) = TroopMove.currentTarget u) ->
            troopsInv (replaceTroop id g (Field.troops f)) (Field.nextTroop f)).
  { intros g id Hg. apply troopsInv_replace; [exact Hf|].
    intros u Hin. destruct (Hg u) as [Hs Hc]. split; [exact Hs|].
    intros r Hr. rewrite Hc in Hr. destruct Hf as [_ Hall].
    destruct (Hall _ _ Hin) as [_ Hcur]. now apply Hcur. }
  destruct e as [c | delta now | id damage | player damage | id px py | h];
    cbn [step].
  - now apply Field_step_inv.
  - destruct (Field.gameActive f); [|exact Hf]. unfold updateTroops.
    destruct (Field.playerBase f); [|exact Hf].
    destruct (Field.enemyBase f); [|exact Hf].
    now apply loop_inv.
  - destruct (TroopMove.lookup id (Field.troops f)) as [u|] eqn:El; [|exact Hf].
    apply lookup_In in El.
    pose proof (Troop_takeDamage_side damage (TroopMove.troop u)) as Hs.
    destruct (Troop.takeDamage damage (TroopMove.troop u)) as [tr log].
    cbn [fst] in Hs.
    apply (fieldInv_ext _ _ (proj1 (handles_frame _ _))
             (proj2 (handles_frame _ _))).
    unfold fieldInv. cbn [Field.troops Field.nextTroop set_troops].
    apply troopsInv_replace; [exact Hf|]. intros u0 Hin0.
    rewrite (NoDup_fst_unique (Field.troops f) id u0 u (proj1 Hf) Hin0 El).
    destruct Hf as [_ Hall]. destruct (Hall _ _ El) as [_ Hcur].
    split; [exact Hs | intros r Hr; now apply Hcur].
  - destruct (if player then _ else _) as [b|]; [|exact Hf].
    destruct (Base.takeDamage damage b) as [b' log].
    apply (fieldInv_ext _ _ (proj1 (handles_frame _ _))
             (proj2 (handles_frame _ _))).
    now destruct player.
  - apply Hkeep. intros u. now split.
  - exact Hf.
Qed.

Lemma run_fieldInv (events : list Event) (f : Field.t) :
  fieldInv f -> fieldInv (run events f).
Proof.
  revert f. induction events as [|e events IH]; intros f Hf; [exact Hf|].
  cbn. apply IH. now apply step_fieldInv.
Qed.

Lemma create_fieldInv (l : Ledger.t) : fieldInv (Field.create l).
Proof. apply troopsInv_nil. Qed.

(** On the field no troop ever aims at its own side.  In every field the
    scene gets into from [create()] -- by the player's orders (troops
    bought, enemy troops spawned, income, upgrades), the troops' turns
    in any number of frames, hits on troops and bases by arrows and
    projectiles, and whatever the physics and the hero do -- the troops
    are distinct objects and the target a troop holds is a troop of the
    other side, the base it marches on or, for an enemy troop, the
    hero. *)
Theorem troops_on_the_field_aim_only_at_the_other_side
    (events : list Event) (l : Ledger.t) :
  let f := run events (Field.create l) in
  NoDup (List.map fst (Field.troops f)) /\
  (forall id u, In (id, u) (Field.troops f) -> (id < Field.nextTroop f)%nat) /\
  (forall id u r, In (id, u) (Field.troops f) ->
     TroopMove.currentTarget u = Some r ->
     rightful id u (Field.troops f) r).
Proof.
  cbv zeta.
  destruct (run_fieldInv events _ (create_fieldInv l)) as [Hnd Hall].
  split; [exact Hnd|]. split.
  - intros id u Hin. now destruct (Hall _ _ Hin).
  - intros id u r Hin Hr. destruct (Hall _ _ Hin) as [_ Hcur].
    now destruct (Hcur r Hr).
Qed.

Lemma noLoss_refl (f : Field.t) : noLoss f f.
Proof. unfold noLoss. repeat split; auto; lia. Qed.

Lemma noLoss_trans (f g h : Field.t) : noLoss f g -> noLoss g h -> noLoss f h.
Proof.
  unfold noLoss.
  intros (A1 & A2 & A3 & A4 & A5 & A6 & A7 & A8 & A9 & A10 & A11)
         (B1 & B2 & B3 & B4 & B5 & B6 & B7 & B8 & B9 & B10 & B11).
  repeat split; try congruence; try lia; auto.
Qed.

Lemma kill_reward_positive (category : string) (g : GameManager.t) (reward : Z) :
  GameManager.calculateKillReward category g = Some reward -> 1 <= reward.
Proof.
  unfold GameManager.calculateKillReward.
  destruct (GameManager.unitCosts category); intros [= <-]; lia.
Qed.

Lemma troopKillXP_positive (category : string) (xpReward : Z) :
  Game.troopKillXP category = JS.own xpReward -> 0 < xpReward.
Proof.
  unfold Game.troopKillXP, JS.member.
  destruct (String.eqb category "Light"); [intros [= <-]; lia|].
  destruct (String.eqb category "Ranged"); [intros [= <-]; lia|].
  destruct (String.eqb category "Heavy"); [intros [= <-]; lia|].
  now destruct (existsb _ _).
Qed.

(** The handler of a paid call leaves the balances numbers. *)
Lemma paid_handled (c : SceneCall) (st : GameScene.t * GameManager.t) :
  paid c -> exists st', Game.handle c st = Some st'.
Proof.
  destruct st as [scene gm].
  destruct c as [| | category]; cbn [paid Game.handle]; [eexists; reflexivity ..|].
  intros [-> | [-> | ->]]; eexists; reflexivity.
Qed.

Lemma handle_noLoss (c : SceneCall) (f : Field.t) : noLoss f (handle c f).
Proof.
  unfold handle.
  destruct (Game.handle c _) as [[scene gm]|] eqn:E; [|apply noLoss_refl].
  unfold noLoss, Game.handle in *.
  destruct c as [| | category].
  - injection E as <- <-. cbn. repeat split; auto; try lia; discriminate.
  - injection E as <- <-. cbn. repeat split; auto; try lia; try discriminate.
    unfold Game.baseDestroyXP. lia.
  - destruct (GameManager.calculateKillReward category _) as [reward|] eqn:Er;
      [|discriminate].
    destruct (Game.troopKillXP category) as [xpReward| |] eqn:Ex;
      try discriminate.
    injection E as <- <-.
    apply kill_reward_positive in Er. apply troopKillXP_positive in Ex.
    cbn. repeat split; auto; lia.
Qed.

Lemma handles_noLoss (log : list SceneCall) (f : Field.t) :
  noLoss f (List.fold_left (fun acc c => handle c acc) log f).
Proof.
  revert f. induction log as [|c log IH]; intros f; cbn; [apply noLoss_refl|].
  apply (noLoss_trans f (handle c f)); [apply handle_noLoss | apply IH].
Qed.

Lemma replaceTroop_length (id : nat) (g : TroopMove.t -> TroopMove.t)
    (l : list (nat * TroopMove.t)) :
  List.length (replaceTroop id g l) = List.length l.
Proof. unfold replaceTroop. apply length_map. Qed.

Lemma settle_noLoss (me : nat) (enemy : bool) (o : TroopMove.Outcome)
    (f : Field.t) :
  noLoss f (settle me enemy o f).
Proof.
  unfold settle.
  eapply noLoss_trans; [|apply handles_noLoss].
  unfold noLoss.
  destruct (TroopMove.target o) as [[[k| |] [tr | b | h]]|];
    try destruct enemy;
    cbn [Field.manager Field.troops Field.nextTroop Field.gameActive
         set_troops set_playerBase set_enemyBase set_hero];
    rewrite ?replaceTroop_length; repeat split; auto; lia.
Qed.

Lemma loop_noLoss (delta now : Q) (i : nat) (st : Field.t * list SubProjectile.t) :
  noLoss (fst st) (fst (loop i delta now st)).
Proof.
  revert st. induction i as [|j IH]; intros st; [apply noLoss_refl|].
  cbn [loop].
  destruct (List.nth_error (Field.troops (fst st)) j) as [[id u]|];
    [|apply IH].
  destruct (negb (active _)).
  - eapply noLoss_trans; [|apply IH]. cbn [fst]. unfold noLoss.
    cbn [Field.manager Field.troops Field.nextTroop Field.gameActive set_troops].
    pose proof (removeAt_length j (Field.troops (fst st))).
    repeat split; auto; lia.
  - eapply noLoss_trans; [|apply IH]. cbn [fst]. apply settle_noLoss.
Qed.

(** Every way through [move] ends in standing, in a call of [attack] or
    in a step, by a troop with the same stats. *)
Lemma move_cases (P : TroopMove.Outcome -> Prop) (delta now : Q) (me : nat)
    (u : TroopMove.t) (allTroops : list (nat * TroopMove.t))
    (targetBase : option Base.t) (hero : option Hero.t) :
  (forall u', TroopMove.troop u' = TroopMove.troop u -> P (TroopMove.still u')) ->
  (forall u' r tg, TroopMove.troop u' = TroopMove.troop u ->
     P (TroopMove.attack now u' r tg)) ->
  (forall u' direction, TroopMove.troop u' = TroopMove.troop u ->
     P (TroopMove.still (TroopMove.moveInDirection direction delta u'))) ->
  P (TroopMove.move delta now me u allTroops targetBase hero).
Proof.
  intros Hstill Hattack Hstep. unfold TroopMove.move.
  destruct (negb (active _)); [now apply Hstill|].
  destruct (checkCurrentTarget_frame u allTroops targetBase hero)
    as (Htr & _ & _).
  set (u1 := TroopMove.checkCurrentTarget u allTroops targetBase hero) in *.
  clearbody u1.
  assert (Hqueue : forall u', TroopMove.troop u' = TroopMove.troop u ->
            P (TroopMove.checkAndAttackFromQueue now me u' allTroops
                 targetBase hero)).
  { intros u' E. unfold TroopMove.checkAndAttackFromQueue.
    destruct (TroopMove.heroInReach u' hero); [now apply Hattack|].
    destruct (TroopMove.findTargetInAttackRange _ _ _ _);
      [now apply Hattack|].
    destruct (TroopMove.isAttacking u'); now apply Hstill. }
  destruct (TroopMove.isAttacking u1), (TroopMove.currentTarget u1) as [r0|];
    try (now apply Hattack); cbn match.
  all: try match goal with
           | |- context [TroopMove.heroInReach ?a ?b] =>
               destruct (TroopMove.heroInReach a b)
           end;
    try (now apply Hattack).
  all: destruct (TroopMove.findNearestTarget _ _ _ _); try (now apply Hattack).
  all: cbn [TroopMove.isStopped TroopMove.set_isStopped];
    destruct (TroopMove.checkSameCategoryAlliesAhead _ _ _ _);
    [now apply Hqueue | now apply Hstep].
Qed.

(** [move] leaves the troop its health and the life of its sprite. *)
Lemma move_keeps_health (delta now : Q) (me : nat) (u : TroopMove.t)
    (allTroops : list (nat * TroopMove.t)) (targetBase : option Base.t)
    (hero : option Hero.t) :
  let o := TroopMove.move delta now me u allTroops targetBase hero in
  Troop.health (TroopMove.troop (TroopMove.self o))
  = Troop.health (TroopMove.troop u) /\
  active (Troop.sprite (TroopMove.troop (TroopMove.self o)))
  = active (Troop.sprite (TroopMove.troop u)).
Proof.
  cbv zeta. apply move_cases.
  - intros u' E. cbn. now rewrite E.
  - intros u' r tg E.
    destruct (attack_outcome now u' r tg) as (_ & _ & _ & Hsp).
    rewrite Hsp, E. split; [|reflexivity].
    unfold TroopMove.attack. destruct tg as [tg|]; [|cbn; now rewrite E].
    pose proof (Combat_attack_attacker now (TroopMove.troop u') tg) as Htr.
    destruct (Combat.attack now (TroopMove.troop u') tg)
      as [[[tr' tg'] projectile] log].
    cbn [fst] in Htr. cbn [TroopMove.self].
    destruct (Z.leb _ _ || _); cbn; [now rewrite E|].
    destruct Htr as [-> | ->]; cbn; now rewrite E.
  - intros u' direction E. cbn. now rewrite E.
Qed.

(** Every way through [move], the target of an attack being the object
    the scene has under the reference. *)
Lemma move_cases_resolved (P : TroopMove.Outcome -> Prop) (delta now : Q)
    (me : nat) (u : TroopMove.t) (allTroops : list (nat * TroopMove.t))
    (targetBase : option Base.t) (hero : option Hero.t) :
  (forall u', TroopMove.troop u' = TroopMove.troop u -> P (TroopMove.still u')) ->
  (forall u' r, TroopMove.troop u' = TroopMove.troop u ->
     P (TroopMove.attack now u' r
          (TroopMove.resolve r allTroops targetBase hero))) ->
  (forall u' direction, TroopMove.troop u' = TroopMove.troop u ->
     P (TroopMove.still (TroopMove.moveInDirection direction delta u'))) ->
  P (TroopMove.move delta now me u allTroops targetBase hero).
Proof.
  intros Hstill Hattack Hstep. unfold TroopMove.move.
  destruct (negb (active _)); [now apply Hstill|].
  destruct (checkCurrentTarget_frame u allTroops targetBase hero)
    as (Htr & _ & _).
  set (u1 := TroopMove.checkCurrentTarget u allTroops targetBase hero) in *.
  clearbody u1.
  assert (Hqueue : forall u', TroopMove.troop u' = TroopMove.troop u ->
            P (TroopMove.checkAndAttackFromQueue now me u' allTroops
                 targetBase hero)).
  { intros u' E. unfold TroopMove.checkAndAttackFromQueue.
    destruct (TroopMove.heroInReach u' hero); [now apply Hattack|].
    destruct (TroopMove.findTargetInAttackRange _ _ _ _);
      [now apply Hattack|].
    destruct (TroopMove.isAttacking u'); now apply Hstill. }
  destruct (TroopMove.isAttacking u1), (TroopMove.currentTarget u1) as [r0|];
    try (now apply Hattack); cbn match.
  all: try match goal with
           | |- context [TroopMove.heroInReach ?a ?b] =>
               destruct (TroopMove.heroInReach a b)
           end;
    try (now apply Hattack).
  all: destruct (TroopMove.findNearestTarget _ _ _ _); try (now apply Hattack).
  all: cbn [TroopMove.isStopped TroopMove.set_isStopped];
    destruct (TroopMove.checkSameCategoryAlliesAhead _ _ _ _);
    [now apply Hqueue | now apply Hstep].
Qed.

Lemma sameTroop_refl (tg : Target) : sameTroop tg tg.
Proof. now destruct tg. Qed.

Lemma Target_takeDamage_kind (amount : Q) (tg : Target) :
  sameTroop tg (fst (Target.takeDamage amount tg)) /\
  forall c, In c (snd (Target.takeDamage amount tg)) -> callFor tg c.
Proof.
  destruct tg as [tr | b | h]; cbn [Target.takeDamage].
  - unfold Troop.takeDamage. destruct (JS.le amount 0); [now split|].
    cbv zeta. cbn [Troop.health Troop.set_health].
    destruct (Z.leb _ 0); [|now split].
    split; [now split|].
    cbn [snd Troop.isEnemy Troop.set_health Troop.category].
    destruct (Troop.isEnemy tr) eqn:Ee; [|intros c []].
    intros c [<- | []]. now exists tr.
  - unfold Base.takeDamage. destruct (JS.le amount 0); [now split|].
    cbv zeta. destruct (Z.leb _ 0); [|now split].
    split; [exact I|]. unfold Base.onDestroyed.
    destruct (Base.isPlayerBase _); intros c [<- | []]; exact I.
  - split; [exact I | intros c []].
Qed.

Lemma Combat_attack_kind (now : Q) (tr : Troop.t) (tg : Target) :
  Troop.category (fst (fst (fst (Combat.attack now tr tg)))) = Troop.category tr /\
  Troop.isEnemy (fst (fst (fst (Combat.attack now tr tg)))) = Troop.isEnemy tr /\
  sameTroop tg (snd (fst (fst (Combat.attack now tr tg)))) /\
  forall c, In c (snd (Combat.attack now tr tg)) -> callFor tg c.
Proof.
  unfold Combat.attack.
  destruct (Z.leb _ _ || _);
    [repeat split; [apply sameTroop_refl | intros c []]|].
  destruct (JS.ge _ _);
    [|repeat split; [apply sameTroop_refl | intros c []]].
  destruct (String.eqb _ _);
    [repeat split; [apply sameTroop_refl | intros c []]|].
  pose proof (Target_takeDamage_kind
                (inject_Z (Troop.calculateDamage (Troop.set_lastAttackTime now tr)
                             (Target.category tg))) tg) as [Hk Hc].
  destruct (Target.takeDamage _ tg) as [tg' log]. now repeat split.
Qed.

Lemma attack_kind (now : Q) (u : TroopMove.t) (r : TroopMove.Ref)
    (tg : option Target) :
  let o := TroopMove.attack now u r tg in
  Troop.category (TroopMove.troop (TroopMove.self o))
  = Troop.category (TroopMove.troop u) /\
  Troop.isEnemy (TroopMove.troop (TroopMove.self o))
  = Troop.isEnemy (TroopMove.troop u) /\
  (forall r' tg', TroopMove.target o = Some (r', tg') ->
     r' = r /\ exists tg0, tg = Some tg0 /\ sameTroop tg0 tg') /\
  (forall c, In c (TroopMove.calls o) ->
     exists tg0, tg = Some tg0 /\ callFor tg0 c).
Proof.
  cbv zeta. unfold TroopMove.attack. destruct tg as [tg|].
  - pose proof (Combat_attack_kind now (TroopMove.troop u) tg)
      as (Hcat & Hside & Hk & Hc).
    destruct (Combat.attack now (TroopMove.troop u) tg)
      as [[[tr' tg'] projectile] log].
    cbn [fst snd] in *.
    cbn [TroopMove.self TroopMove.target TroopMove.calls].
    split; [now destruct (Z.leb _ _ || _)|].
    split; [now destruct (Z.leb _ _ || _)|].
    split.
    + intros r' tg'' [= <- <-]. split; [reflexivity|]. now exists tg.
    + intros c Hin. exists tg. split; [reflexivity | now apply Hc].
  - cbn. repeat split; try discriminate. intros c [].
Qed.

(** What a troop's frame leaves of the kinds: the troop and the troop it
    has struck keep category and side, and a kill is rewarded only for
    an enemy troop of the list. *)
Lemma move_kind (delta now : Q) (me : nat) (u : TroopMove.t)
    (allTroops : list (nat * TroopMove.t)) (targetBase : option Base.t)
    (hero : option Hero.t) :
  let o := TroopMove.move delta now me u allTroops targetBase hero in
  Troop.category (TroopMove.troop (TroopMove.self o))
  = Troop.category (TroopMove.troop u) /\
  Troop.isEnemy (TroopMove.troop (TroopMove.self o))
  = Troop.isEnemy (TroopMove.troop u) /\
  (forall k tr, TroopMove.target o = Some (TroopMove.aTroop k, ofTroop tr) ->
     exists other, In (k, other) allTroops /\
       Troop.category tr = Troop.category (TroopMove.troop other) /\
       Troop.isEnemy tr = Troop.isEnemy (TroopMove.troop other)) /\
  (forall category, In (awardGoldForKill category) (TroopMove.calls o) ->
     exists k other, In (k, other) allTroops /\
       Troop.isEnemy (TroopMove.troop other) = true /\
       Troop.category (TroopMove.troop other) = category).
Proof.
  cbv zeta. apply move_cases_resolved.
  - intros u' E. cbn. rewrite E. repeat split; try discriminate. intros c [].
  - intros u' r E.
    destruct (attack_kind now u' r
                (TroopMove.resolve r allTroops targetBase hero))
      as (Hcat & Hside & Htg & Hcalls).
    rewrite Hcat, Hside, E. split; [reflexivity|]. split; [reflexivity|]. split.
    + intros k tr Et. destruct (Htg _ _ Et) as [<- (tg0 & Eres & Hk)].
      cbn [TroopMove.resolve] in Eres.
      destruct (TroopMove.lookup k allTroops) as [other|] eqn:El; [|discriminate].
      cbn in Eres. injection Eres as <-. apply lookup_In in El.
      exists other. split; [exact El|]. exact Hk.
    + intros category Hin. destruct (Hcalls _ Hin) as (tg0 & Eres & Hfor).
      destruct Hfor as (tr & -> & Henemy & Hcat').
      destruct r as [k| |]; cbn [TroopMove.resolve] in Eres.
      * destruct (TroopMove.lookup k allTroops) as [other|] eqn:El;
          [|discriminate].
        cbn in Eres. injection Eres as <-. apply lookup_In in El.
        now exists k, other.
      * now destruct targetBase.
      * now destruct hero.
  - intros u' direction E. cbn. rewrite E.
    repeat split; try discriminate. intros c [].
Qed.

(** The calls of a troop's frame are paid when the enemy troops are of
    rewarded categories. *)
Lemma move_calls_paid (delta now : Q) (me : nat) (u : TroopMove.t)
    (allTroops : list (nat * TroopMove.t)) (targetBase : option Base.t)
    (hero : option Hero.t) :
  enemiesRewarded allTroops ->
  forall c,
    In c (TroopMove.calls
            (TroopMove.move delta now me u allTroops targetBase hero)) ->
    paid c.
Proof.
  intros Hl c Hin. destruct c as [| | category]; try exact I.
  destruct (move_kind delta now me u allTroops targetBase hero)
    as (_ & _ & _ & Hcalls).
  destruct (Hcalls _ Hin) as (k & other & Hin' & Henemy & <-).
  now apply (Hl k other).
Qed.

Lemma settle_rewarded (delta now : Q) (f : Field.t) (id : nat) (u : TroopMove.t)
    (enemy : bool) (targetBase : option Base.t) (hero : option Hero.t) :
  enemiesRewarded (Field.troops f) -> In (id, u) (Field.troops f) ->
  enemiesRewarded
    (Field.troops
       (settle id enemy
          (TroopMove.move delta now id u (Field.troops f) targetBase hero) f)).
Proof.
  intros Hf Hin.
  destruct (move_kind delta now id u (Field.troops f) targetBase hero)
    as (Hcat & Hside & Hstruck & _).
  set (o := TroopMove.move delta now id u (Field.troops f) targetBase hero) in *.
  clearbody o. unfold settle. rewrite (proj1 (handles_frame _ _)).
  assert (H1 : enemiesRewarded
                 (replaceTroop id (fun _ => TroopMove.self o) (Field.troops f))).
  { intros k v Hv. apply replaceTroop_In in Hv.
    destruct Hv as (u0 & Hin0 & [[_ ->] | [-> ->]]); [now apply (Hf k)|].
    rewrite Hcat, Hside. now apply (Hf id). }
  destruct (TroopMove.target o) as [[[k| |] [tr | b | h]]|] eqn:Et;
    try exact H1; [|now destruct enemy].
  cbn [Field.troops set_troops].
  destruct (Hstruck k tr eq_refl) as (other & Hother & Hc & Hs).
  intros j v Hv. apply replaceTroop_In in Hv.
  destruct Hv as (u0 & Hin0 & [[_ ->] | [-> ->]]); [now apply (H1 j)|].
  cbn [TroopMove.troop TroopMove.set_troop]. rewrite Hc, Hs.
  now apply (Hf k).
Qed.

Lemma loop_rewarded (delta now : Q) (i : nat)
    (st : Field.t * list SubProjectile.t) :
  enemiesRewarded (Field.troops (fst st)) ->
  enemiesRewarded (Field.troops (fst (loop i delta now st))).
Proof.
  revert st. induction i as [|j IH]; intros st Hst; [exact Hst|].
  cbn [loop].
  destruct (List.nth_error (Field.troops (fst st)) j) as [[id u]|] eqn:En;
    [|now apply IH].
  destruct (negb (active _)).
  - apply IH. cbn [fst Field.troops set_troops].
    intros k v Hv. apply (Hst k). now apply (removeAt_In j).
  - apply IH. cbn [fst]. apply settle_rewarded; [exact Hst|].
    now apply (nth_error_In _ j).
Qed.

Lemma push_rewarded (u : TroopMove.t) (f : Field.t) :
  enemiesRewarded (Field.troops f) ->
  (Troop.isEnemy (TroopMove.troop u) = true ->
   rewarded (Troop.category (TroopMove.troop u))) ->
  enemiesRewarded (Field.troops (Field.push u f)).
Proof.
  intros Hf Hu id v Hin. cbn [Field.troops Field.push] in Hin.
  apply in_app_or in Hin.
  destruct Hin as [Hin | [[= <- <-] | []]]; [now apply (Hf id) | exact Hu].
Qed.

Lemma Field_step_rewarded (c : Field.Call) (f : Field.t) :
  spawnsRewarded (Order c) ->
  enemiesRewarded (Field.troops f) ->
  enemiesRewarded (Field.troops (Field.step c f)).
Proof.
  intros Hc Hf.
  assert (Hally : forall category cfg f0, enemiesRewarded (Field.troops f0) ->
            enemiesRewarded (Field.troops (Field.spawnAllyTroop category cfg f0))).
  { intros category cfg f0 H0. unfold Field.spawnAllyTroop.
    destruct (Field.playerBase f0); [|exact H0].
    destruct (Field.enemyBase f0); [|exact H0].
    apply push_rewarded; [exact H0 | discriminate]. }
  destruct c as [category type | category | | upgradeId]; cbn [Field.step].
  - unfold Field.spawnAllyTroopWithGold.
    destruct (match type with Some _ => _ | None => _ end).
    + destruct (negb _); [exact Hf|].
      destruct (GameManager.spendGold _ _) as [[|] g]; [|exact Hf].
      now apply Hally.
    + destruct (GameManager.getUnitCost category) as [cost|]; [|exact Hf].
      destruct (GameManager.spendGold _ _) as [[|] g]; [|exact Hf].
      now apply Hally.
  - unfold Field.spawnEnemyTroop.
    destruct (Field.playerBase f); [|exact Hf].
    destruct (Field.enemyBase f); [|exact Hf].
    apply push_rewarded; [exact Hf|]. intros _.
    cbn [spawnsRewarded] in Hc.
    destruct Hc as [-> | [-> | ->]]; [now left | right; now left | right; now right].
  - unfold Field.generatePassiveIncome. now destruct (negb _).
  - unfold Field.purchaseBaseUpgrade.
    destruct (Ledger.purchaseUpgrade _ _) as [[|] l]; [|exact Hf].
    unfold Field.applyUpgradeEffect.
    destruct (Ledger.baseUpgradeCost upgradeId); [|exact Hf].
    destruct (String.eqb upgradeId "reinforcedWalls").
    + cbn [Field.playerBase Field.set_manager].
      destruct (Field.playerBase f) as [pb|]; [|exact Hf].
      now destruct (Z.eqb _ 0).
    + destruct (_ || _); [|exact Hf].
      cbn [Field.hero Field.set_manager].
      now destruct (Field.hero f) as [[h ability]|].
Qed.

Lemma Troop_takeDamage_category (damage : Q) (tr : Troop.t) :
  Troop.category (fst (Troop.takeDamage damage tr)) = Troop.category tr.
Proof.
  unfold Troop.takeDamage. destruct (JS.le damage 0); [reflexivity|].
  cbn. now destruct (Z.leb _ 0).
Qed.

Lemma step_rewarded (e : Event) (f : Field.t) :
  spawnsRewarded e ->
  enemiesRewarded (Field.troops f) ->
  enemiesRewarded (Field.troops (step e f)).
Proof.
  intros He Hf.
  destruct e as [c | delta now | id damage | player damage | id px py | h];
    cbn [step].
  - now apply Field_step_rewarded.
  - destruct (Field.gameActive f); [|exact Hf]. unfold updateTroops.
    destruct (Field.playerBase f); [|exact Hf].
    destruct (Field.enemyBase f); [|exact Hf].
    now apply (loop_rewarded delta now _ (f, [])).
  - destruct (TroopMove.lookup id (Field.troops f)) as [u|] eqn:El; [|exact Hf].
    apply lookup_In in El.
    pose proof (Troop_takeDamage_side damage (TroopMove.troop u)) as Hs.
    pose proof (Troop_takeDamage_category damage (TroopMove.troop u)) as Hc.
    destruct (Troop.takeDamage damage (TroopMove.troop u)) as [tr log].
    cbn [fst] in Hs, Hc. rewrite (proj1 (handles_frame _ _)).
    cbn [Field.troops set_troops].
    intros j v Hv. apply replaceTroop_In in Hv.
    destruct Hv as (u0 & Hin0 & [[_ ->] | [-> ->]]); [now apply (Hf j)|].
    cbn [TroopMove.troop TroopMove.set_troop]. rewrite Hs, Hc.
    now apply (Hf id).
  - destruct (if player then _ else _) as [b|]; [|exact Hf].
    destruct (Base.takeDamage damage b) as [b' log].
    rewrite (proj1 (handles_frame _ _)). now destruct player.
  - cbn [Field.troops set_troops].
    intros j v Hv. apply replaceTroop_In in Hv.
    destruct Hv as (u0 & Hin0 & [[_ ->] | [-> ->]]); [now apply (Hf j)|].
    exact (Hf id u0 Hin0).
  - exact Hf.
Qed.

(** As the game is played -- enemy troops spawned in the rewarded
    categories, whatever else happens -- the enemy troops of the field
    are of rewarded categories. *)
Lemma run_rewarded (events : list Event) (f : Field.t) :
  Forall spawnsRewarded events ->
  enemiesRewarded (Field.troops f) ->
  enemiesRewarded (Field.troops (run events f)).
Proof.
  revert f. induction events as [|e events IH]; intros f He Hf; [exact Hf|].
  inversion He as [|? ? He1 He2]; subst.
  cbn. apply IH; [exact He2|]. now apply step_rewarded.
Qed.

(** The troops' turn costs the player nothing.  On a field whose enemy
    troops are of the rewarded categories -- the scene spawns no others,
    and then every field of the game is such a field ([run_rewarded])
    -- every kill of the turn is paid in numbers, and [updateTroops]
    never lowers gold or XP: they only grow, by the rewards for enemy
    troops killed and for the enemy base destroyed.  It leaves round,
    difficulty, upgrades and features alone, adds no troop and hands out
    no new troop number, never makes a game that is over active again,
    and leaves the enemy troops of rewarded categories; and on every
    field of that kind each call a troop's frame makes into the scene is
    handled with balances that stay numbers. *)
Theorem the_troops_turn_costs_nothing (delta now : Q) (f : Field.t) :
  enemiesRewarded (Field.troops f) ->
  let f' := fst (updateTroops delta now f) in
  (GameManager.gold (Ledger.manager (Field.manager f))
   <= GameManager.gold (Ledger.manager (Field.manager f')) /\
   GameManager.xp (Ledger.manager (Field.manager f))
   <= GameManager.xp (Ledger.manager (Field.manager f')) /\
   GameManager.currentRound (Ledger.manager (Field.manager f'))
   = GameManager.currentRound (Ledger.manager (Field.manager f)) /\
   GameManager.difficulty (Ledger.manager (Field.manager f'))
   = GameManager.difficulty (Ledger.manager (Field.manager f)) /\
   Ledger.purchasedUpgrades (Field.manager f')
   = Ledger.purchasedUpgrades (Field.manager f) /\
   Ledger.roundUpgrades (Field.manager f') = Ledger.roundUpgrades (Field.manager f) /\
   Ledger.enemyUpgrades (Field.manager f') = Ledger.enemyUpgrades (Field.manager f) /\
   Ledger.unlockedFeatures (Field.manager f')
   = Ledger.unlockedFeatures (Field.manager f) /\
   Field.nextTroop f' = Field.nextTroop f /\
   (List.length (Field.troops f') <= List.length (Field.troops f))%nat /\
   (Field.gameActive f' = true -> Field.gameActive f = true)) /\
  enemiesRewarded (Field.troops f') /\
  (forall g id u targetBase hero c st,
     enemiesRewarded (Field.troops g) ->
     In c (TroopMove.calls
             (TroopMove.move delta now id u (Field.troops g) targetBase hero)) ->
     exists st', Game.handle c st = Some st').
Proof.
  intros Hf. cbv zeta. split; [|split].
  - unfold updateTroops.
    destruct (Field.playerBase f); [|apply noLoss_refl].
    destruct (Field.enemyBase f); [|apply noLoss_refl].
    apply (loop_noLoss delta now _ (f, [])).
  - unfold updateTroops.
    destruct (Field.playerBase f); [|exact Hf].
    destruct (Field.enemyBase f); [|exact Hf].
    now apply (loop_rewarded delta now _ (f, [])).
  - intros g id u targetBase hero c st Hg Hc. apply paid_handled.
    now apply (move_calls_paid delta now id u (Field.troops g) targetBase hero Hg).
Qed.

Lemma the_troops_turn_costs_nothing_witness :
  GameManager.xp (Ledger.manager Ledger.initial)
  <= GameManager.xp
       (Ledger.manager
          (Field.manager
             (fst (updateTroops 16 1000
                     (run [Order (Field.SpawnEnemy "Heavy");
                           Order (Field.SpawnAlly "Light" None)]
                        (Field.create Ledger.initial)))))).
Proof.
  refine (proj1 (proj2 (proj1
            (the_troops_turn_costs_nothing 16 1000
               (run [Order (Field.SpawnEnemy "Heavy");
                     Order (Field.SpawnAlly "Light" None)]
                  (Field.create Ledger.initial)) _)))).
  intros id u Hin Henemy. vm_compute in Hin.
  destruct Hin as [[= <- <-] | [[= <- <-] | []]];
    [right; now right | discriminate].
Defined.

(** Through the troops' turn, a field of one side keeps every troop as
    healthy as it was. *)
Lemma loop_peace (delta now : Q) (side : bool) (f0 : Field.t) (i : nat)
    (st : Field.t * list SubProjectile.t) :
  fieldInv (fst st) ->
  (forall id u, In (id, u) (Field.troops (fst st)) ->
     Troop.isEnemy (TroopMove.troop u) = side /\
     exists u0, In (id, u0) (Field.troops f0) /\
       Troop.health (TroopMove.troop u) = Troop.health (TroopMove.troop u0) /\
       active (Troop.sprite (TroopMove.troop u))
       = active (Troop.sprite (TroopMove.troop u0))) ->
  forall id u, In (id, u) (Field.troops (fst (loop i delta now st))) ->
    exists u0, In (id, u0) (Field.troops f0) /\
      Troop.health (TroopMove.troop u) = Troop.health (TroopMove.troop u0) /\
      active (Troop.sprite (TroopMove.troop u))
      = active (Troop.sprite (TroopMove.troop u0)).
Proof.
  revert st. induction i as [|j IH]; intros st Hinv Hst.
  { intros id u Hin. now destruct (Hst id u Hin). }
  cbn [loop].
  destruct (List.nth_error (Field.troops (fst st)) j) as [[me u]|] eqn:En;
    [|now apply IH].
  destruct (negb (active _)).
  - apply IH; cbn [fst].
    + now apply troopsInv_removeAt.
    + intros id u' Hin. apply Hst. now apply (removeAt_In j).
  - apply nth_error_In in En.
    set (enemy := Troop.isEnemy (TroopMove.troop u)).
    set (targetBase :=
           if enemy then Field.playerBase (fst st) else Field.enemyBase (fst st)).
    set (hero := option_map fst (Field.hero (fst st))).
    apply IH; cbn [fst].
    + now apply settle_inv.
    + pose proof (move_known delta now me u (Field.troops (fst st)) targetBase hero)
        as (Hside & _ & Hstruck).
      pose proof (move_keeps_health delta now me u (Field.troops (fst st))
                    targetBase hero) as [Hhealth Hactive].
      set (o := TroopMove.move delta now me u (Field.troops (fst st))
                  targetBase hero) in *.
      clearbody o.
      assert (Htroops :
        Field.troops (settle me enemy o (fst st))
        = replaceTroop me (fun _ => TroopMove.self o) (Field.troops (fst st))).
      { unfold settle. rewrite (proj1 (handles_frame _ _)).
        destruct (TroopMove.target o) as [[r tg']|] eqn:Et; [|reflexivity].
        destruct r as [k| |], tg' as [tr | b | h]; try reflexivity;
          [|now destruct enemy].
        exfalso. destruct (Hstruck _ _ eq_refl) as [Ho (tg & Eres & _)].
        cbn [TroopMove.resolve] in Eres.
        destruct (TroopMove.lookup k (Field.troops (fst st))) as [other|] eqn:El;
          [|discriminate].
        apply lookup_In in El.
        destruct (origin_inv me u _ _ targetBase hero _ Hinv En Ho) as [Hr _].
        destruct (Hr other El) as [_ Hopp]. cbn [snd] in Hopp.
        destruct (Hst _ _ El) as [E1 _]. destruct (Hst _ _ En) as [E2 _].
        congruence. }
      rewrite Htroops. intros id u' Hin. apply replaceTroop_In in Hin.
      destruct Hin as (e0 & Hin0 & [[Hne ->] | [-> ->]]); [now apply Hst|].
      rewrite (NoDup_fst_unique _ me e0 u (proj1 Hinv) Hin0 En) in Hin0.
      destruct (Hst _ _ En) as [Hs (u0 & H0 & Hh & Ha)].
      split; [congruence|]. exists u0. split; [exact H0|]. split; congruence.
Qed.

(** Troops of one side alone never harm each other.  On any field the
    scene gets into, if all troops are of one side, then after the troops'
    turn every troop still in the list has the health it had and a sprite
    as alive as it was: the only thing they attack is the base they march
    on (or the hero). *)
Theorem one_side_alone_is_at_peace
    (events : list Event) (l : Ledger.t) (delta now : Q) (side : bool) :
  let f := run events (Field.create l) in
  (forall id u, In (id, u) (Field.troops f) ->
     Troop.isEnemy (TroopMove.troop u) = side) ->
  let f' := fst (updateTroops delta now f) in
  forall id u', In (id, u') (Field.troops f') ->
    exists u, In (id, u) (Field.troops f) /\
      Troop.health (TroopMove.troop u') = Troop.health (TroopMove.troop u) /\
      active (Troop.sprite (TroopMove.troop u'))
      = active (Troop.sprite (TroopMove.troop u)).
Proof.
  cbv zeta. intros Hside.
  pose proof (run_fieldInv events _ (create_fieldInv l)) as Hinv.
  set (f := run events (Field.create l)) in *. clearbody f.
  assert (Hsame : forall id u, In (id, u) (Field.troops f) ->
            Troop.isEnemy (TroopMove.troop u) = side /\
            exists u0, In (id, u0) (Field.troops f) /\
              Troop.health (TroopMove.troop u) = Troop.health (TroopMove.troop u0) /\
              active (Troop.sprite (TroopMove.troop u))
              = active (Troop.sprite (TroopMove.troop u0))).
  { intros id u Hin. split; [now apply (Hside id)|]. now exists u. }
  unfold updateTroops.
  destruct (Field.playerBase f);
    [|intros id u Hin; now destruct (Hsame id u Hin)].
  destruct (Field.enemyBase f);
    [|intros id u Hin; now destruct (Hsame id u Hin)].
  apply (loop_peace delta now side f _ (f, [])); [exact Hinv | exact Hsame].
Qed.

Lemma one_side_alone_is_at_peace_witness :
  let f :=
    run [Order (Field.SpawnAlly "Light" None);
         Order (Field.SpawnAlly "Light" None)]
      (Field.create Ledger.initial) in
  match Field.troops (fst (updateTroops 16 5000 f)) with
  | (id, u') :: _ =>
      exists u, In (id, u) (Field.troops f) /\
        Troop.health (TroopMove.troop u') = Troop.health (TroopMove.troop u)
  | [] => False
  end.
Proof.
  cbv zeta.
  pose proof (one_side_alone_is_at_peace
                [Order (Field.SpawnAlly "Light" None);
                 Order (Field.SpawnAlly "Light" None)]
                Ledger.initial 16 5000 false) as H.
  cbv zeta in H.
  destruct (Field.troops
              (fst (updateTroops 16 5000
                      (run [Order (Field.SpawnAlly "Light" None);
                            Order (Field.SpawnAlly "Light" None)]
                         (Field.create Ledger.initial)))))
    as [|[id u'] rest] eqn:E.
  - vm_compute in E. discriminate.
  - destruct (H ltac:(intros id0 u0 [[= <- <-] | [[= <- <-] | []]]; reflexivity)
                id u' ltac:(now left)) as (u & Hin & Hh & _).
    exists u. split; [exact Hin | exact Hh].
Defined.

End TroopsTurn.
